(** * p9admin/client.py: the OpenStack administrative client

    A shallow embedding of [p9admin.client]: the [memoize] decorator and
    [add_memo], and the methods of [OpenStackClient] that look up, create and
    reconcile identity and network resources.

    The client is a wrapper over two external SDKs (keystoneclient and
    openstacksdk).  Their operations are not part of the program: they are a
    record [sdk] of functions over an abstract remote state, and every
    theorem holds for every such record.  Where a property of the client
    depends on what the service does (membership after [add_to_group], an
    assignment after [grant]), that behaviour is a hypothesis of the theorem,
    and [Sim] gives a small executable service that satisfies it. *)

From stdpp Require Import base option list gmap strings.

Open Scope string_scope.
Open Scope list_scope.

(** ** Exceptions and outcomes *)

(** The exceptions the module distinguishes: [keystoneauth1]'s [NotFound],
    which several methods catch, the [ValueError] raised on bad arguments,
    and any other exception an SDK call may raise (never caught here). *)
Inductive exn :=
  | NotFound
  | ValueError (msg : string)
  | OtherError (tag : string).

#[global] Instance exn_eq_dec : EqDecision exn.
Proof. solve_decision. Defined.

Inductive outcome (A : Type) :=
  | Ok (a : A)
  | Raise (e : exn).
Arguments Ok {A} a.
Arguments Raise {A} e.

#[global] Instance outcome_eq_dec {A} `{EqDecision A} : EqDecision (outcome A).
Proof. solve_decision. Defined.

Definition is_ok {A} (o : outcome A) : bool :=
  match o with Ok _ => true | Raise _ => false end.

(** ** The monad of the client

    A computation reads and updates a state [S], may raise, and emits the
    events (remote calls, log records) it performs, in order.  A raised
    exception keeps the state reached and the events emitted so far, as a
    Python exception does. *)
Module Eff.
Section Eff.
Context {E S : Type}.

Definition M (A : Type) : Type := S -> outcome A * S * list E.

Definition ret {A} (a : A) : M A := fun s => (Ok a, s, []).

Definition raise {A} (e : exn) : M A := fun s => (Raise e, s, []).

Definition bind {A B} (m : M A) (k : A -> M B) : M B :=
  fun s =>
    match m s with
    | (Ok a, s1, t1) =>
        match k a s1 with
        | (o, s2, t2) => (o, s2, t1 ++ t2)
        end
    | (Raise e, s1, t1) => (Raise e, s1, t1)
    end.

Definition emit (e : E) : M unit := fun s => (Ok tt, s, [e]).

Definition gets {A} (f : S -> A) : M A := fun s => (Ok (f s), s, []).

Definition modify (f : S -> S) : M unit := fun s => (Ok tt, f s, []).

Definition lift {A} (o : outcome A) : M A := fun s => (o, s, []).

(** [try: m except NotFound: h] *)
Definition except_not_found {A} (m : M A) (h : M A) : M A :=
  fun s =>
    match m s with
    | (Raise NotFound, s1, t1) =>
        match h s1 with
        | (o, s2, t2) => (o, s2, t1 ++ t2)
        end
    | r => r
    end.

(** [for x in l: body x] *)
Fixpoint for_each {A} (l : list A) (body : A -> M unit) : M unit :=
  match l with
  | [] => ret tt
  | x :: l' => bind (body x) (fun _ => for_each l' body)
  end.
End Eff.
Arguments M : clear implicits.
End Eff.
Import Eff.

Declare Scope eff_scope.
Delimit Scope eff_scope with eff.
Notation "'do' x <- m ; k" := (bind m (fun x => k))
  (at level 10, x name, m at level 100, k at level 200) : eff_scope.
Notation "m ;; k" := (bind m (fun _ => k))
  (at level 100, k at level 200, right associativity) : eff_scope.

(** ** memoize and add_memo *)

(** What [args not in cache] and [cache[args] = ...] raise when a member
    of the argument tuple cannot be hashed (a list, a dict). *)
Definition unhashable : exn := OtherError "TypeError: unhashable type".

Section MemoizeBy.
Context {A K V : Type} `{Countable K}.
Context {E W : Type}.

(** [memoize(obj)]: the cache is a dictionary from argument tuples to
    results, created empty; the wrapper calls [obj] when the arguments are
    not in the cache, stores what it returns, and returns the stored value.
    When [obj] raises, nothing is stored in the cache.  The state of the
    wrapper is the cache paired with the state [W] that [obj] works on.

    A Python dictionary finds a key by its hash and [==]: [key args] is
    what the dictionary sees of the tuple [args].  It is [None] for a
    tuple that cannot be hashed, for which [args not in cache] raises
    before [obj] is called, and two tuples have the same key when they are
    equal for [==] (as [(1,)], [(1.0,)] and [(True,)] are). *)
Definition memoize_by (key : A -> option K) (obj : A -> M E W V)
  : A -> M E (gmap K V * W) V :=
  fun args '(cache, w) =>
    match key args with
    | None => (Raise unhashable, (cache, w), [])
    | Some k =>
        match cache !! k with
        | None =>
            match obj args w with
            | (Ok v, w', t) => (Ok v, (<[k := v]> cache, w'), t)
            | (Raise e, w', t) => (Raise e, (cache, w'), t)
            end
        | Some v => (Ok v, (cache, w), [])
        end
    end.
End MemoizeBy.

Section Memoize.
Context {K V : Type} `{Countable K}.
Context {E W : Type}.

(** The wrapper as the client uses it: on argument tuples that can all be
    hashed and that are equal for [==] only when they are the same (the
    client itself with a name or an id, which are strings). *)
Definition memoize (obj : K -> M E W V) : K -> M E (gmap K V * W) V :=
  memoize_by Some obj.

(** [add_memo(obj, args, memo)]: [obj.cache[args] = memo]. *)
Definition add_memo (cache : gmap K V) (args : K) (memo : V) : gmap K V :=
  <[args := memo]> cache.

(** A caller that makes the calls [ks] one after the other, keeping each
    outcome (it catches what a call raises and goes on). *)
Fixpoint call_seq {S} (f : K -> M E S V) (ks : list K) (s : S)
  : list (outcome V) * S * list E :=
  match ks with
  | [] => ([], s, [])
  | k :: ks' =>
      match f k s with
      | (o, s1, t1) =>
          match call_seq f ks' s1 with
          | (os, s2, t2) => (o :: os, s2, t1 ++ t2)
          end
      end
  end.
End Memoize.

(** ** Observing the wrapped function

    [spy obj] is [obj] keeping a journal of its invocations: the arguments
    and the outcome of each, in order. *)
Section Spy.
Context {K V : Type} `{Countable K}.
Context {E W : Type}.

Definition spy (obj : K -> M E W V)
  : K -> M E (W * list (K * outcome V)) V :=
  fun args '(w, journal) =>
    match obj args w with
    | (o, w', t) => (o, (w', journal ++ [(args, o)]), t)
    end.

(** How many times the journal shows an invocation with [args]. *)
Definition invocations (args : K) (journal : list (K * outcome V)) : nat :=
  length (filter (fun p => fst p = args) journal).
End Spy.

(** ** Calls of a wrapper and stores by add_memo, one after the other *)

(** What a program does with a memoized function: it calls the wrapper, or
    it stores a value for a tuple with [add_memo]. *)
Inductive use (A V : Type) :=
  | Apply (args : A)
  | AddMemo (args : A) (memo : V).
Arguments Apply {A V} args.
Arguments AddMemo {A V} args memo.

(** What the caller gets: the value the wrapper returns, [None] from
    [add_memo], or an exception. *)
Definition returned {V} (o : outcome V) : outcome (option V) :=
  match o with Ok v => Ok (Some v) | Raise e => Raise e end.

Section Uses.
Context {A K V : Type} `{Countable K}.
Context {E W : Type}.
Variable key : A -> option K.

Definition use_step (obj : A -> M E W V) (u : use A V)
  : M E (gmap K V * W) (option V) :=
  match u with
  | Apply args =>
      fun s =>
        match memoize_by key obj args s with
        | (o, s', t) => (returned o, s', t)
        end
  | AddMemo args memo =>
      fun '(cache, w) =>
        match key args with
        | Some k => (Ok None, (add_memo cache k memo, w), [])
        | None => (Raise unhashable, (cache, w), [])
        end
  end.

(** The uses [us] one after the other, each outcome kept. *)
Definition use_seq (obj : A -> M E W V) (us : list (use A V))
    (s : gmap K V * W)
  : list (outcome (option V)) * (gmap K V * W) * list E :=
  call_seq (use_step obj) us s.

(** The part of a journal whose arguments have the key [k]. *)
Definition for_key (k : K) (journal : list (A * outcome V))
  : list (A * outcome V) :=
  filter (fun p => key (fst p) = Some k) journal.

(** What a caller can tell from the uses made and their outcomes, for the
    tuples of key [k].

    [stored k cur hist]: the value held for [k] after the uses [hist],
    when [cur] was held before: the memo of the latest [add_memo] if there
    is one, else the value held before, else what the first call that
    returned has returned. *)
Definition note (k : K) (cur : option V)
    (h : use A V * outcome (option V)) : option V :=
  match h with
  | (Apply args, Ok (Some v)) =>
      if decide (key args = Some k)
      then match cur with Some _ => cur | None => Some v end
      else cur
  | (AddMemo args memo, Ok _) =>
      if decide (key args = Some k) then Some memo else cur
  | _ => cur
  end.

Definition stored (k : K) (cur : option V)
    (hist : list (use A V * outcome (option V))) : option V :=
  foldl (note k) cur hist.

(** [due k hist]: the invocations that are due for [k] over the uses
    [hist] when nothing is held for [k] before them: one for each call
    with a tuple of key [k], as long as these calls raise, the last one
    for the first such call that returns; none from an [add_memo] for [k]
    on. *)
Fixpoint due (k : K) (hist : list (use A V * outcome (option V)))
  : list (A * outcome V) :=
  match hist with
  | [] => []
  | (Apply args, Ok (Some v)) :: rest =>
      if decide (key args = Some k) then [(args, Ok v)] else due k rest
  | (Apply args, Raise e) :: rest =>
      if decide (key args = Some k)
      then (args, Raise e) :: due k rest
      else due k rest
  | (AddMemo args _, Ok _) :: rest =>
      if decide (key args = Some k) then [] else due k rest
  | _ :: rest => due k rest
  end.

(** No [add_memo] for [k] among the uses from [i] up to [j]. *)
Definition no_store_between (k : K) (us : list (use A V)) (i j : nat)
  : Prop :=
  forall m args memo,
    i < m < j -> us !! m = Some (AddMemo args memo) -> key args <> Some k.

(** With a pure function: the wrapper raises on tuples that cannot be
    hashed and otherwise gives what the function gives, when the function
    does not tell tuples of one key apart. *)
Definition through_cache (f : A -> outcome V) (a : A)
  : outcome (option V) :=
  match key a with
  | Some _ => returned (f a)
  | None => Raise unhashable
  end.
End Uses.

(** Argument tuples of one member, for examples: an integer, a float of
    integral value, or a list.  [1 == 1.0] and both have the same hash; a
    list cannot be hashed. *)
Module Py.
Inductive arg :=
  | Int (n : nat)
  | Float (n : nat)
  | Lst (l : list nat).

Definition key (a : arg) : option nat :=
  match a with
  | Int n => Some n
  | Float n => Some n
  | Lst _ => None
  end.

(** [type(x).__name__], a pure function. *)
Definition type_name (a : arg) : string :=
  match a with
  | Int _ => "int"
  | Float _ => "float"
  | Lst _ => "list"
  end.

(** A function over a counter of its invocations: the first invocation
    raises, the later ones return the type name. *)
Definition flaky (a : arg) : M unit nat string :=
  fun n =>
    (match n with 0 => Raise NotFound | S _ => Ok (type_name a) end,
     S n, []).
End Py.

(** ** Data of the SDKs *)

(** A keystone or network resource (user, group, role, project, network,
    router, security group): the attributes the client reads. *)
Record resource := Resource { res_id : string; res_name : string }.

Record subnet_res := Subnet {
  subnet_id : string;
  subnet_name : string;
  subnet_cidr : string
}.

(** A security group rule; [remote_ip_prefix] is [None] for a rule that has
    no address prefix. *)
Record sg_rule := SgRule {
  rule_id : string;
  rule_direction : string;
  rule_ethertype : string;
  remote_ip_prefix : option string
}.

(** [p9admin.User]: the attributes [name], [email] and [user]; [user] is
    [None] until the keystone user is resolved. *)
Module User.
Record t := Make {
  name : string;
  email : string;
  user : option resource
}.
End User.

#[global] Instance resource_eq_dec : EqDecision resource.
Proof. solve_decision. Defined.
#[global] Instance subnet_res_eq_dec : EqDecision subnet_res.
Proof. solve_decision. Defined.
#[global] Instance sg_rule_eq_dec : EqDecision sg_rule.
Proof. solve_decision. Defined.
#[global] Instance user_eq_dec : EqDecision User.t.
Proof. solve_decision. Defined.

(** Keyword arguments of a listing call. *)
Definition kwargs := list (string * string).

(** What a paginated listing yields when it is iterated: the elements, then
    either the end of the listing or an exception. *)
Definition listing (A : Type) : Type := list A * option exn.

(** ** Events: remote calls and log records *)

Inductive call :=
  | UsersList (group : resource)
  | UsersAddToGroup (user_id : string) (group : resource)
  | UsersRemoveFromGroup (user_id : string) (group : resource)
  | UsersFind (name : string)
  | UsersCreate (name email description : string)
      (default_project : option resource)
  | GroupsFind (name : string)
  | GroupsCreate (name : string)
  | RolesFind (name : string)
  | RolesCheck (role : string) (user group : option resource)
      (project : resource)
  | RolesGrant (role : string) (user group : option resource)
      (project : resource)
  | RolesRevoke (role : string) (user group : option resource)
      (project : resource)
  | Networks (kw : kwargs)
  | Subnets (kw : kwargs)
  | Routers (kw : kwargs)
  | SecurityGroups (kw : kwargs)
  | SecurityGroupRules (kw : kwargs)
  | GetSubnet (id : string)
  | GetSecurityGroup (id : string).

Inductive level := Debug | Info.

(** The subject of a role assignment as the log shows it. *)
Inductive subject := SubjGroup (name : string) | SubjUser (name : string).

(** One constructor for each format string of the module, with the values
    substituted. *)
Inductive message :=
  | FoundLocalUser (name id : string)
  | CreatedLocalUser (name id : string)
  | FoundGroup (name id : string)
  | CreatedGroup (name id : string)
  | AddedUser (user_id gname gid : string)
  | DeletedUser (user_id gname gid : string)
  | LeavingUser (user_id gname gid : string)
  | UpdatingGroup (gname gid : string) (added deleted unchanged : nat)
  | FoundAccess (s : subject) (pname rname rid : string)
  | GrantedAccess (s : subject) (pname rname rid : string)
  | RevokedAccess (s : subject) (pname rname rid : string)
  | NoAccess (s : subject) (pname rname rid : string)
  | FoundNetwork (name id : string)
  | FoundSubnet (name id cidr : string)
  | FoundRouter (name id : string)
  | FoundSecurityGroup (name id : string)
  | FoundSecurityGroupRule (prefix : option string) (id : string).

Inductive event :=
  | Call (c : call)
  | Log (l : level) (m : message).

#[global] Instance call_eq_dec : EqDecision call.
Proof. solve_decision. Defined.
#[global] Instance level_eq_dec : EqDecision level.
Proof. solve_decision. Defined.
#[global] Instance subject_eq_dec : EqDecision subject.
Proof. solve_decision. Defined.
#[global] Instance message_eq_dec : EqDecision message.
Proof. solve_decision. Defined.
#[global] Instance event_eq_dec : EqDecision event.
Proof. solve_decision. Defined.

(** The remote calls of a trace, in order. *)
Definition calls_of (t : list event) : list call :=
  omap (fun e => match e with Call c => Some c | Log _ _ => None end) t.

(** How many times the call [c] occurs in the trace [t]. *)
Definition times (c : call) (t : list event) : nat :=
  length (filter (fun c' => c' = c) (calls_of t)).

(** ** The SDKs

    [R] is the state of the remote service.  Lookups and listings read it;
    the other operations may change it, also when they raise. *)
Record sdk (R : Type) := Sdk {
  users_list : resource -> R -> outcome (list resource);
  users_find : string -> R -> outcome resource;
  users_create :
    string -> string -> string -> option resource -> R -> outcome resource * R;
  users_add_to_group : string -> resource -> R -> outcome unit * R;
  users_remove_from_group : string -> resource -> R -> outcome unit * R;
  groups_find : string -> R -> outcome resource;
  groups_create : string -> R -> outcome resource * R;
  roles_find : string -> R -> outcome resource;
  (** the truth value of what [roles.check] returns *)
  roles_check :
    string -> option resource -> option resource -> resource -> R ->
    outcome bool;
  roles_grant :
    string -> option resource -> option resource -> resource -> R ->
    outcome unit * R;
  roles_revoke :
    string -> option resource -> option resource -> resource -> R ->
    outcome unit * R;
  net_networks : kwargs -> R -> listing resource;
  net_subnets : kwargs -> R -> listing subnet_res;
  net_routers : kwargs -> R -> listing resource;
  net_security_groups : kwargs -> R -> listing resource;
  net_security_group_rules : kwargs -> R -> listing sg_rule;
  net_get_subnet : string -> R -> outcome subnet_res;
  net_get_security_group : string -> R -> outcome resource
}.
Arguments Sdk {R}.
Arguments users_list {R}.
Arguments users_find {R}.
Arguments users_create {R}.
Arguments users_add_to_group {R}.
Arguments users_remove_from_group {R}.
Arguments groups_find {R}.
Arguments groups_create {R}.
Arguments roles_find {R}.
Arguments roles_check {R}.
Arguments roles_grant {R}.
Arguments roles_revoke {R}.
Arguments net_networks {R}.
Arguments net_subnets {R}.
Arguments net_routers {R}.
Arguments net_security_groups {R}.
Arguments net_security_group_rules {R}.
Arguments net_get_subnet {R}.
Arguments net_get_security_group {R}.

(** ** The iteration order of sets

    [for x in s] over a Python set visits every element once, in an order
    that the language does not fix (it depends on the hashes, which for
    strings change from one process to the next).  [iterate] is that
    order: any enumeration of the set without repetition.  The three sets
    that [ensure_group_members] iterates are built once, iterated once and
    are pairwise disjoint, so every order that a run can take is the
    [iterate] of some instance; what is proved for every instance holds
    for every run. *)
Class SetOrder := {
  iterate : gset string -> list string;
  iterate_perm : forall X, iterate X ≡ₚ elements X
}.

(** One such order, to compute with. *)
#[global] Instance elements_order : SetOrder :=
  {| iterate := elements; iterate_perm := fun X => reflexivity (elements X) |}.

(** Another one: the same enumeration backwards. *)
Definition reversed_order : SetOrder :=
  {| iterate := fun X => reverse (elements X);
     iterate_perm := fun X => reverse_Permutation (elements X) |}.

(** ** The client *)

(** The state of an [OpenStackClient]: the remote service behind its two
    connections and the caches of its memoized methods [role], [subnet] and
    [security_group].  The cache keys are the arguments after [self]. *)
Record client (R : Type) := Client {
  remote : R;
  role_cache : gmap string resource;
  subnet_cache : gmap string subnet_res;
  security_group_cache : gmap string resource
}.
Arguments Client {R}.
Arguments remote {R}.
Arguments role_cache {R}.
Arguments subnet_cache {R}.
Arguments security_group_cache {R}.

Definition set_remote {R} (r : R) (c : client R) : client R :=
  Client r (role_cache c) (subnet_cache c) (security_group_cache c).
Definition set_role_cache {R} (m : gmap string resource) (c : client R)
  : client R :=
  Client (remote c) m (subnet_cache c) (security_group_cache c).
Definition set_subnet_cache {R} (m : gmap string subnet_res) (c : client R)
  : client R :=
  Client (remote c) (role_cache c) m (security_group_cache c).
Definition set_security_group_cache {R} (m : gmap string resource)
  (c : client R) : client R :=
  Client (remote c) (role_cache c) (subnet_cache c) m.

Section Client.
Context {R : Type} (K : sdk R) `{!SetOrder}.

Local Open Scope eff_scope.

Abbreviation M := (Eff.M event).

(** A remote call that reads the service. *)
Definition request {A} (c : call) (f : R -> outcome A) : M R A :=
  fun r => (f r, r, [Call c]).

(** A remote call that may change the service. *)
Definition command {A} (c : call) (f : R -> outcome A * R) : M R A :=
  fun r => match f r with (o, r') => (o, r', [Call c]) end.

(** A listing call: the SDK returns a lazy sequence over the service. *)
Definition paginate {A} (c : call) (f : R -> listing A) : M R (listing A) :=
  fun r => (Ok (f r), r, [Call c]).

(** A computation on the remote service, run by the client. *)
Definition on_remote {A} (m : M R A) : M (client R) A :=
  fun c => match m (remote c) with (o, r', t) => (o, set_remote r' c, t) end.

(** A memoized method: its wrapper runs on the method's cache and the
    remote service. *)
Definition with_cache {V A} (get : client R -> gmap string V)
    (set : gmap string V -> client R -> client R)
    (m : M (gmap string V * R) A) : M (client R) A :=
  fun c =>
    match m (get c, remote c) with
    | (o, (cache', r'), t) => (o, set_remote r' (set cache' c), t)
    end.

Definition log (l : level) (m : message) : M (client R) unit :=
  emit (Log l m).

(** *** role *)
Definition role (name : string) : M (client R) resource :=
  with_cache role_cache set_role_cache
    (memoize (fun name => request (RolesFind name) (roles_find K name)) name).

(** *** subnets, subnet, security_groups, security_group *)

(** A generator over a listing: not yet started (the body runs from the
    first [next]), or suspended at a [yield] with the rest of the SDK's
    listing to go. *)
Inductive generator (A : Type) :=
  | Created (kw : kwargs)
  | Suspended (rest : listing A).
Arguments Created {A} kw.
Arguments Suspended {A} rest.

(** [next] on the generator of [subnets]: take the next subnet of the
    SDK's listing, [add_memo] it for [subnet], yield it.  [None] is the end
    of the iteration. *)
Definition subnets_resume (l : listing subnet_res)
  : M (client R) (option subnet_res * generator subnet_res) :=
  match l with
  | (subnet :: rest, e) =>
      modify (fun c =>
        set_subnet_cache
          (add_memo (subnet_cache c) (subnet_id subnet) subnet) c) ;;
      ret (Some subnet, Suspended (rest, e))
  | ([], None) => ret (None, Suspended l)
  | ([], Some e) => raise e
  end.

Definition subnets_next (g : generator subnet_res)
  : M (client R) (option subnet_res * generator subnet_res) :=
  match g with
  | Created kw =>
      do l <- on_remote (paginate (Subnets kw) (net_subnets K kw)) ;
      subnets_resume l
  | Suspended l => subnets_resume l
  end.

Definition subnets (kw : kwargs) : generator subnet_res := Created kw.

Definition subnet (id : string) : M (client R) subnet_res :=
  with_cache subnet_cache set_subnet_cache
    (memoize (fun id => request (GetSubnet id) (net_get_subnet K id)) id).

Definition security_groups_resume (l : listing resource)
  : M (client R) (option resource * generator resource) :=
  match l with
  | (sg :: rest, e) =>
      modify (fun c =>
        set_security_group_cache
          (add_memo (security_group_cache c) (res_id sg) sg) c) ;;
      ret (Some sg, Suspended (rest, e))
  | ([], None) => ret (None, Suspended l)
  | ([], Some e) => raise e
  end.

Definition security_groups_next (g : generator resource)
  : M (client R) (option resource * generator resource) :=
  match g with
  | Created kw =>
      do l <- on_remote
        (paginate (SecurityGroups kw) (net_security_groups K kw)) ;
      security_groups_resume l
  | Suspended l => security_groups_resume l
  end.

Definition security_groups (kw : kwargs) : generator resource := Created kw.

Definition security_group (id : string) : M (client R) resource :=
  with_cache security_group_cache set_security_group_cache
    (memoize
       (fun id => request (GetSecurityGroup id) (net_get_security_group K id))
       id).

(** A consumer that calls [next] up to [n] times on a generator and keeps
    what it yields, as a [for] loop that stops after [n] elements does. *)
Fixpoint take_from {A}
    (next : generator A -> M (client R) (option A * generator A))
    (n : nat) (g : generator A) : M (client R) (list A) :=
  match n with
  | 0 => ret []
  | S n' =>
      do r <- next g ;
      match r with
      | (Some x, g') => do xs <- take_from next n' g' ; ret (x :: xs)
      | (None, _) => ret []
      end
  end.

(** *** _find_user, find_user, ensure_user *)
Definition _find_user (email : string) : M (client R) (option resource) :=
  except_not_found
    (do u <- on_remote (request (UsersFind email) (users_find K email)) ;
     ret (Some u))
    (ret None).

(** The argument of [find_user] is an e-mail address or a [p9admin.User]. *)
Inductive user_ref :=
  | Email (email : string)
  | UserObject (u : User.t).

(** [find_user] returns the keystone user, or [None]; given a
    [p9admin.User], it also assigns the result to the object's [user]
    attribute: the second component is the argument after the call. *)
Definition find_user (email : user_ref)
  : M (client R) (option resource * user_ref) :=
  match email with
  | UserObject u =>
      do found <- _find_user (User.email u) ;
      ret (found, UserObject (User.Make (User.name u) (User.email u) found))
  | Email e =>
      do found <- _find_user e ;
      ret (found, Email e)
  end.

(** [ensure_user] returns the keystone user and the [p9admin.User] object
    after the call.  When it raises, the object is as it was: its [user]
    attribute was [None] and no assignment changed that. *)
Definition ensure_user (u : User.t) (default_project : option resource)
  : M (client R) (resource * User.t) :=
  match User.user u with
  | Some found => ret (found, u)
  | None =>
      do r <- find_user (Email (User.email u)) ;
      match fst r with
      | Some found =>
          log Info (FoundLocalUser (res_name found) (res_id found)) ;;
          ret (found, User.Make (User.name u) (User.email u) (Some found))
      | None =>
          do created <- on_remote
            (command
               (UsersCreate (User.email u) (User.email u) (User.name u)
                  default_project)
               (users_create K (User.email u) (User.email u) (User.name u)
                  default_project)) ;
          log Info (CreatedLocalUser (res_name created) (res_id created)) ;;
          ret (created,
               User.Make (User.name u) (User.email u) (Some created))
      end
  end.

(** *** find_group, ensure_group *)
Definition find_group (name : string) : M (client R) (option resource) :=
  except_not_found
    (do g <- on_remote (request (GroupsFind name) (groups_find K name)) ;
     ret (Some g))
    (ret None).

Definition ensure_group (name : string) : M (client R) resource :=
  do group <- find_group name ;
  match group with
  | Some group =>
      log Info (FoundGroup (res_name group) (res_id group)) ;;
      ret group
  | None =>
      do group <- on_remote
        (command (GroupsCreate name) (groups_create K name)) ;
      log Info (CreatedGroup (res_name group) (res_id group)) ;;
      ret group
  end.

(** *** ensure_group_members *)
Definition ids (l : list resource) : gset string :=
  list_to_set (res_id <$> l).

(** The three sets of [ensure_group_members], from the ids of the members
    the group has and the ids it is to have. *)
Definition to_add (existing_users ensure_users : gset string)
  : gset string :=
  ensure_users ∖ existing_users.

Definition to_delete (keep_others : bool)
    (existing_users ensure_users : gset string) : gset string :=
  if keep_others then ∅ else existing_users ∖ ensure_users.

Definition unchanged (keep_others : bool)
    (existing_users ensure_users : gset string) : gset string :=
  if keep_others then existing_users else ensure_users ∩ existing_users.

(** The loops run over Python sets: every element once, in the order
    [iterate]. *)
Definition ensure_group_members (group : resource)
    (ensure_users : list resource) (keep_others : bool)
  : M (client R) unit :=
  do existing_users <- on_remote
    (request (UsersList group) (users_list K group)) ;
  let existing_users := ids existing_users in
  let ensure_users := ids ensure_users in
  let to_add := to_add existing_users ensure_users in
  let to_delete := to_delete keep_others existing_users ensure_users in
  let unchanged := unchanged keep_others existing_users ensure_users in
  for_each (iterate to_add) (fun user_id =>
    on_remote (command (UsersAddToGroup user_id group)
                 (users_add_to_group K user_id group)) ;;
    log Debug (AddedUser user_id (res_name group) (res_id group))) ;;
  for_each (iterate to_delete) (fun user_id =>
    on_remote (command (UsersRemoveFromGroup user_id group)
                 (users_remove_from_group K user_id group)) ;;
    log Debug (DeletedUser user_id (res_name group) (res_id group))) ;;
  for_each (iterate unchanged) (fun user_id =>
    log Debug (LeavingUser user_id (res_name group) (res_id group))) ;;
  log Info (UpdatingGroup (res_name group) (res_id group)
              (size to_add) (size to_delete) (size unchanged)).

(** *** check_role_assignment, grant_project_access, revoke_project_access *)
Definition check_role_assignment (role : string)
    (user group : option resource) (project : resource)
  : M (client R) bool :=
  except_not_found
    (do found <- on_remote
       (request (RolesCheck role user group project)
          (roles_check K role user group project)) ;
     if found then ret true else ret false)
    (ret false).

(** The first statement of [grant_project_access] and
    [revoke_project_access]: the subject for the log, or [ValueError]. *)
Definition subject_of (user group : option resource) : outcome subject :=
  match user, group with
  | None, Some group => Ok (SubjGroup (res_name group))
  | Some user, None => Ok (SubjUser (res_name user))
  | _, _ => Raise (ValueError "Must specify exactly one of user or group")
  end.

(** The call names exactly one of [user] and [group]. *)
Definition one_subject (user group : option resource) : Prop :=
  (user = None /\ group <> None) \/ (user <> None /\ group = None).

Definition grant_project_access (project : resource)
    (user group : option resource) (role_name : string)
  : M (client R) unit :=
  do subject <- lift (subject_of user group) ;
  do role <- role role_name ;
  do assigned <- check_role_assignment (res_id role) user group project ;
  if assigned then
    log Info (FoundAccess subject (res_name project)
                (res_name role) (res_id role))
  else
    (on_remote (command (RolesGrant (res_id role) user group project)
                  (roles_grant K (res_id role) user group project)) ;;
     log Info (GrantedAccess subject (res_name project)
                 (res_name role) (res_id role))).

Definition revoke_project_access (project : resource)
    (user group : option resource) (role_name : string)
  : M (client R) unit :=
  do subject <- lift (subject_of user group) ;
  do role <- role role_name ;
  do assigned <- check_role_assignment (res_id role) user group project ;
  if assigned then
    (on_remote (command (RolesRevoke (res_id role) user group project)
                  (roles_revoke K (res_id role) user group project)) ;;
     log Info (RevokedAccess subject (res_name project)
                 (res_name role) (res_id role)))
  else
    log Info (NoAccess subject (res_name project)
                (res_name role) (res_id role)).

(** *** find_network, find_subnet, find_router, find_security_group *)

(** [for x in listing: found x; return x] followed by [return None]: the
    loop body runs for the first element only. *)
Definition return_first {A} (l : listing A) (found : A -> M (client R) unit)
  : M (client R) (option A) :=
  match l with
  | (x :: _, _) => found x ;; ret (Some x)
  | ([], None) => ret None
  | ([], Some e) => raise e
  end.

Definition find_network (project : resource) (name : string)
  : M (client R) (option resource) :=
  let kw := [("project_id", res_id project); ("name", name)] in
  do networks <- on_remote (paginate (Networks kw) (net_networks K kw)) ;
  return_first networks (fun network =>
    log Info (FoundNetwork (res_name network) (res_id network))).

Definition find_subnet (project network : resource) (name : string)
  : M (client R) (option subnet_res) :=
  let kw := [("project_id", res_id project);
             ("network_id", res_id network); ("name", name)] in
  do subnets <- on_remote (paginate (Subnets kw) (net_subnets K kw)) ;
  return_first subnets (fun subnet =>
    log Info (FoundSubnet (subnet_name subnet) (subnet_id subnet)
                (subnet_cidr subnet))).

Definition find_router (project : resource) (name : string)
  : M (client R) (option resource) :=
  let kw := [("project_id", res_id project); ("name", name)] in
  do routers <- on_remote (paginate (Routers kw) (net_routers K kw)) ;
  return_first routers (fun router =>
    log Info (FoundRouter (res_name router) (res_id router))).

Definition find_security_group (project : resource) (name : string)
  : M (client R) (option resource) :=
  let kw := [("project_id", res_id project); ("name", name)] in
  do security_groups <- on_remote
    (paginate (SecurityGroups kw) (net_security_groups K kw)) ;
  return_first security_groups (fun sg =>
    log Info (FoundSecurityGroup (res_name sg) (res_id sg))).

(** *** find_security_group_rule *)
Definition any_address : string := "0.0.0.0/0".

(** The loop of [find_security_group_rule] over what the listing yields. *)
Fixpoint find_rule_loop (sg_rules : list sg_rule) (e : option exn)
  : M (client R) (option sg_rule) :=
  match sg_rules with
  | sg_rule :: rest =>
      if decide (remote_ip_prefix sg_rule = Some any_address) then
        log Info (FoundSecurityGroupRule (remote_ip_prefix sg_rule)
                    (rule_id sg_rule)) ;;
        ret (Some sg_rule)
      else find_rule_loop rest e
  | [] => match e with None => ret None | Some e => raise e end
  end.

Definition find_security_group_rule (security_group : resource)
  : M (client R) (option sg_rule) :=
  let kw := [("security_group_id", res_id security_group);
             ("direction", "ingress"); ("ethertype", "IPv4")] in
  do sg_rules <- on_remote
    (paginate (SecurityGroupRules kw) (net_security_group_rules K kw)) ;
  find_rule_loop (fst sg_rules) (snd sg_rules).
End Client.

Arguments Created {A} kw.
Arguments Suspended {A} rest.

(** ** A simulated service

    An executable instance of [sdk], small enough to compute with: users,
    groups and roles are looked up by name, group membership and role
    assignments are finite sets, and the network listings filter tables by
    the [name] keyword.  [outage], when set, is raised at the end of every
    listing. *)
Module Sim.
Definition assignment : Type :=
  string * option string * option string * string.

Record state := State {
  users : list resource;
  groups : list resource;
  roles : list resource;
  members : gmap string (gset string);
  grants : gset assignment;
  networks : list resource;
  subnets : list subnet_res;
  routers : list resource;
  security_groups : list resource;
  rules : list sg_rule;
  outage : option exn
}.

Definition empty : state :=
  State [] [] [] ∅ ∅ [] [] [] [] [] None.

(** [find(name=...)] of a keystone manager: the one match, [NotFound] for
    none, another exception for several. *)
Definition find_by_name (name : string) (l : list resource)
  : outcome resource :=
  match filter (fun x => res_name x = name) l with
  | [] => Raise NotFound
  | [x] => Ok x
  | _ => Raise (OtherError "NoUniqueMatch")
  end.

Definition member_ids (r : state) (group : resource) : gset string :=
  default ∅ (members r !! res_id group).

Definition user_of_id (r : state) (id : string) : resource :=
  default (Resource id "")
    (snd <$> list_find (fun u => res_id u = id) (users r)).

Definition set_users (l : list resource) (r : state) : state :=
  State l (groups r) (roles r) (members r) (grants r) (networks r)
    (subnets r) (routers r) (security_groups r) (rules r) (outage r).
Definition set_groups (l : list resource) (r : state) : state :=
  State (users r) l (roles r) (members r) (grants r) (networks r)
    (subnets r) (routers r) (security_groups r) (rules r) (outage r).
Definition set_members (m : gmap string (gset string)) (r : state)
  : state :=
  State (users r) (groups r) (roles r) m (grants r) (networks r)
    (subnets r) (routers r) (security_groups r) (rules r) (outage r).
Definition set_grants (g : gset assignment) (r : state) : state :=
  State (users r) (groups r) (roles r) (members r) g (networks r)
    (subnets r) (routers r) (security_groups r) (rules r) (outage r).

Definition key (role : string) (user group : option resource)
    (project : resource) : assignment :=
  (role, res_id <$> user, res_id <$> group, res_id project).

Definition kw_get (k : string) (kw : kwargs) : option string :=
  (fun p => snd (snd p)) <$> list_find (fun p => fst p = k) kw.

Definition named {A} (nm : A -> string) (kw : kwargs) (l : list A)
  : list A :=
  match kw_get "name" kw with
  | Some n => filter (fun x => nm x = n) l
  | None => l
  end.

Definition service : sdk state := {|
  users_list g r := Ok (user_of_id r <$> elements (member_ids r g));
  users_find n r := find_by_name n (users r);
  users_create n e d p r :=
    let u := Resource ("user-" ++ n) n in
    (Ok u, set_users (users r ++ [u]) r);
  users_add_to_group uid g r :=
    if decide (uid ∈ res_id <$> users r) then
      (Ok tt, set_members (<[res_id g := {[uid]} ∪ member_ids r g]>
                             (members r)) r)
    else (Raise NotFound, r);
  users_remove_from_group uid g r :=
    if decide (uid ∈ member_ids r g) then
      (Ok tt, set_members (<[res_id g := member_ids r g ∖ {[uid]}]>
                             (members r)) r)
    else (Raise NotFound, r);
  groups_find n r := find_by_name n (groups r);
  groups_create n r :=
    let g := Resource ("group-" ++ n) n in
    (Ok g, set_groups (groups r ++ [g]) r);
  roles_find n r := find_by_name n (roles r);
  roles_check ro u g p r :=
    if decide (key ro u g p ∈ grants r) then Ok true else Raise NotFound;
  roles_grant ro u g p r :=
    (Ok tt, set_grants ({[key ro u g p]} ∪ grants r) r);
  roles_revoke ro u g p r :=
    if decide (key ro u g p ∈ grants r) then
      (Ok tt, set_grants (grants r ∖ {[key ro u g p]}) r)
    else (Raise NotFound, r);
  net_networks kw r := (named res_name kw (networks r), outage r);
  net_subnets kw r := (named subnet_name kw (subnets r), outage r);
  net_routers kw r := (named res_name kw (routers r), outage r);
  net_security_groups kw r :=
    (named res_name kw (security_groups r), outage r);
  net_security_group_rules kw r :=
    (filter (fun x => kw_get "direction" kw = Some (rule_direction x)
                      ∧ kw_get "ethertype" kw = Some (rule_ethertype x))
       (rules r),
     outage r);
  net_get_subnet id r :=
    match filter (fun x => subnet_id x = id) (subnets r) with
    | x :: _ => Ok x
    | [] => Raise NotFound
    end;
  net_get_security_group id r :=
    match filter (fun x => res_id x = id) (security_groups r) with
    | x :: _ => Ok x
    | [] => Raise NotFound
    end
|}.

(** A client of the simulated service with empty caches. *)
Definition connect (r : state) : client state := Client r ∅ ∅ ∅.
End Sim.

(** The [roles.grant] calls of a trace. *)
Definition is_grant (c : call) : bool :=
  match c with RolesGrant _ _ _ _ => true | _ => false end.

Definition grants_of (t : list event) : list call :=
  filter (fun c => is_grant c = true) (calls_of t).

(** The [p9admin.User] object with its [user] attribute assigned. *)
Definition resolved (u : User.t) (k : resource) : User.t :=
  User.Make (User.name u) (User.email u) (Some k).

(** ** Linear search, as a property of a result

    [returns_first l o]: [o] is the first element the listing [l] yields,
    and [None] exactly when [l] ends without yielding any. *)
Definition returns_first {A} (l : listing A) (o : outcome (option A)) : Prop :=
  (forall x rest e, l = (x :: rest, e) -> o = Ok (Some x)) /\
  (o = Ok None <-> l = ([], None)).

Definition open_rule (x : sg_rule) : Prop :=
  remote_ip_prefix x = Some any_address.

(** [returns_first_open l o]: [o] is the first rule that [l] yields whose
    prefix is [0.0.0.0/0], and [None] when [l] ends and has yielded no such
    rule. *)
Definition returns_first_open (l : listing sg_rule)
    (o : outcome (option sg_rule)) : Prop :=
  (forall pre r post e,
      l = (pre ++ r :: post, e) ->
      Forall (fun x => ~ open_rule x) pre -> open_rule r ->
      o = Ok (Some r)) /\
  (forall rules,
      l = (rules, None) -> Forall (fun x => ~ open_rule x) rules ->
      o = Ok None) /\
  (forall r, o = Ok (Some r) -> r ∈ fst l /\ open_rule r).

(** ** Sample data for the simulated service *)
Module Sample.
Definition alice : resource := Resource "u1" "alice@example.com".
Definition bob : resource := Resource "u2" "bob@example.com".
Definition carol : resource := Resource "u3" "carol@example.com".
Definition devs : resource := Resource "g1" "devs".
Definition member : resource := Resource "r1" "_member_".
Definition proj : resource := Resource "p1" "proj".
Definition net : resource := Resource "n1" "net".
Definition sub_a : subnet_res := Subnet "s1" "sub" "10.0.0.0/24".
Definition sub_b : subnet_res := Subnet "s2" "sub" "10.0.1.0/24".
Definition sg_a : resource := Resource "sg1" "default".
Definition sg_b : resource := Resource "sg2" "default".
Definition rule_ssh : sg_rule :=
  SgRule "x1" "ingress" "IPv4" (Some "10.0.0.0/8").
Definition rule_out : sg_rule :=
  SgRule "x2" "egress" "IPv4" (Some "0.0.0.0/0").
Definition rule_any : sg_rule :=
  SgRule "x3" "ingress" "IPv4" (Some "0.0.0.0/0").
Definition rule_all : sg_rule :=
  SgRule "x4" "ingress" "IPv4" (Some "0.0.0.0/0").

(** [devs] has the members alice and bob; nobody has a role yet. *)
Definition cloud : Sim.state := {|
  Sim.users := [alice; bob; carol];
  Sim.groups := [devs];
  Sim.roles := [member];
  Sim.members := {[ "g1" := {[ "u1"; "u2" ]} ]};
  Sim.grants := ∅;
  Sim.networks := [net];
  Sim.subnets := [sub_a; sub_b];
  Sim.routers := [];
  Sim.security_groups := [sg_a; sg_b];
  Sim.rules := [rule_ssh; rule_out; rule_any; rule_all];
  Sim.outage := None
|}.

Definition dana : User.t := User.Make "Dana" "dana@example.com" None.
End Sample.

(** ** Further observations on traces *)

(** The [roles.revoke] calls of a trace. *)
Definition is_revoke (c : call) : bool :=
  match c with RolesRevoke _ _ _ _ => true | _ => false end.

Definition revokes_of (t : list event) : list call :=
  filter (fun c => is_revoke c = true) (calls_of t).

(** The remote calls [ensure_group_members] sets out to make once it knows
    the ids of the members: the listing, then the additions, then the
    removals, each loop in the iteration order of its set. *)
Definition membership_plan `{!SetOrder} (group : resource)
    (keep_others : bool) (existing ensure : gset string) : list call :=
  UsersList group
  :: ((fun uid => UsersAddToGroup uid group)
        <$> iterate (to_add existing ensure))
  ++ ((fun uid => UsersRemoveFromGroup uid group)
        <$> iterate (to_delete keep_others existing ensure)).

(** ** Projects, the external network and routers

    The methods of the client that the sections above leave out use further
    operations of the SDKs and raise [SystemExit]; they have their own
    record of operations and their own events. *)

(** A subnet with the gateway address that [create_router] reads. *)
Record subnet_gw := SubnetGw { gw_subnet : subnet_res; gateway_ip : string }.

(** A volume or a server of the listings over all tenants. *)
Record owned := Owned { owned_id : string; owned_project_id : string }.

#[global] Instance subnet_gw_eq_dec : EqDecision subnet_gw.
Proof. solve_decision. Defined.
#[global] Instance owned_eq_dec : EqDecision owned.
Proof. solve_decision. Defined.

Inductive xcall :=
  | ProjectsFind (name : string)
  | ProjectsGet (id : string)
  | NetFindNetwork (name project_id : string)
  | GroupsList
  | BlockStorageVolumes
  | ComputeServers
  | NetCreateRouter (project_id name description gateway_network_id : string)
  | NetCreatePort (project_id network_id subnet_id ip_address : string)
  | NetAddInterfaceToRouter (router : resource) (subnet_id port_id : string).

Inductive xmessage :=
  | FoundProject (name id : string)
  | CouldNotFindServiceProject
  | CouldNotFindNetwork (name project_name : string)
  | RetrievedGroups (n : nat)
  | CreatedRouter (name id : string)
  | CreatedPort (id : string)
  | AddedPortToRouter.

Inductive xevent :=
  | XCall (c : xcall)
  | XInfo (m : xmessage)
  | XCritical (m : xmessage).

#[global] Instance xcall_eq_dec : EqDecision xcall.
Proof. solve_decision. Defined.
#[global] Instance xmessage_eq_dec : EqDecision xmessage.
Proof. solve_decision. Defined.
#[global] Instance xevent_eq_dec : EqDecision xevent.
Proof. solve_decision. Defined.

Definition xcalls_of (t : list xevent) : list xcall :=
  omap (fun e => match e with XCall c => Some c | _ => None end) t.

Record xsdk (R : Type) := XSdk {
  projects_find : string -> R -> outcome resource;
  projects_get : string -> R -> outcome resource;
  (** [find_network(name, project_id=...)]: [None] when there is none *)
  net_find_network : string -> string -> R -> outcome (option resource);
  groups_list : R -> outcome (list resource);
  (** [volumes(details=True, all_tenants=True)] *)
  block_storage_volumes : R -> listing owned;
  (** [servers(details=True, all_tenants=True)] *)
  compute_servers : R -> listing owned;
  net_create_router :
    string -> string -> string -> string -> R -> outcome resource * R;
  net_create_port :
    string -> string -> string -> string -> R -> outcome resource * R;
  net_add_interface_to_router :
    resource -> string -> string -> R -> outcome unit * R
}.
Arguments XSdk {R}.
Arguments projects_find {R}.
Arguments projects_get {R}.
Arguments net_find_network {R}.
Arguments groups_list {R}.
Arguments block_storage_volumes {R}.
Arguments compute_servers {R}.
Arguments net_create_router {R}.
Arguments net_create_port {R}.
Arguments net_add_interface_to_router {R}.

(** The double quote of the messages. *)
Definition dq : string := String (Ascii.ascii_of_nat 34) EmptyString.

(** [SystemExit], which [sys.exit] raises: an exception that no handler of
    the module catches. *)
Definition SystemExit (arg : string) : exn := OtherError ("SystemExit: " ++ arg).

Section Projects.
Context {R : Type} (X : xsdk R).

Local Open Scope eff_scope.

Abbreviation XM := (Eff.M xevent).

Definition xrequest {A} (c : xcall) (f : R -> outcome A) : XM R A :=
  fun r => (f r, r, [XCall c]).

Definition xcommand {A} (c : xcall) (f : R -> outcome A * R) : XM R A :=
  fun r => match f r with (o, r') => (o, r', [XCall c]) end.

Definition sys_exit {S A} (arg : string) : XM S A := raise (SystemExit arg).

(** A computation on the inner state, run where a cache sits in front of
    it. *)
Definition behind {C S A} (m : XM S A) : XM (C * S) A :=
  fun '(cache, s) => match m s with (o, s', t) => (o, (cache, s'), t) end.

(** *** find_project *)
Definition find_project (name : string) : XM R resource :=
  except_not_found
    (xrequest (ProjectsFind name) (projects_find X name))
    (except_not_found
       (xrequest (ProjectsGet name) (projects_get X name))
       (sys_exit
          ("Could not find project with name or ID " ++ dq ++ name ++ dq))).

(** *** service_project *)

(** The state of a memoized method without arguments: its cache, whose one
    key is the empty argument tuple, and the state its body works on. *)
Definition service_project : XM (gmap unit resource * R) resource :=
  memoize
    (fun _ : unit =>
       except_not_found
         (do project <- xrequest (ProjectsFind "service")
                          (projects_find X "service") ;
          emit (XInfo (FoundProject (res_name project) (res_id project))) ;;
          ret project)
         (emit (XCritical CouldNotFindServiceProject) ;;
          sys_exit "1"))
    tt.

(** *** external_network *)
Definition external_network
  : XM (gmap unit resource * (gmap unit resource * R)) resource :=
  memoize
    (fun _ : unit =>
       let name := "external" in
       do project <- service_project ;
       do network <- behind
         (xrequest (NetFindNetwork name (res_id project))
            (net_find_network X name (res_id project))) ;
       match network with
       | None =>
           do project <- service_project ;
           emit (XCritical (CouldNotFindNetwork name (res_name project))) ;;
           sys_exit "1"
       | Some network => ret network
       end)
    tt.

(** *** create_router *)
Definition create_router (project network : resource) (subnet : subnet_gw)
    (name : string)
  : XM (gmap unit resource * (gmap unit resource * R)) resource :=
  do external <- external_network ;
  do router <- behind (behind
    (xcommand
       (NetCreateRouter (res_id project) name "Default router"
          (res_id external))
       (net_create_router X (res_id project) name "Default router"
          (res_id external)))) ;
  emit (XInfo (CreatedRouter (res_name router) (res_id router))) ;;
  do port <- behind (behind
    (xcommand
       (NetCreatePort (res_id project) (res_id network)
          (subnet_id (gw_subnet subnet)) (gateway_ip subnet))
       (net_create_port X (res_id project) (res_id network)
          (subnet_id (gw_subnet subnet)) (gateway_ip subnet)))) ;
  emit (XInfo (CreatedPort (res_id port))) ;;
  behind (behind
    (xcommand
       (NetAddInterfaceToRouter router (subnet_id (gw_subnet subnet))
          (res_id port))
       (net_add_interface_to_router X router (subnet_id (gw_subnet subnet))
          (res_id port)))) ;;
  emit (XInfo AddedPortToRouter) ;;
  ret router.

(** *** groups *)
Definition groups : XM (gmap unit (list resource) * R) (list resource) :=
  memoize
    (fun _ : unit =>
       do groups <- xrequest GroupsList (groups_list X) ;
       emit (XInfo (RetrievedGroups (length groups))) ;;
       ret groups)
    tt.
End Projects.

(** ** Volumes and servers

    [all_volumes] and [all_servers] are memoized and return what the SDK
    returns: a one-pass iterator over the listing.  The cache holds that
    iterator object; the model keeps in the cache what the iterator has
    still to yield, so that advancing the iterator changes the cached
    entry, as every holder of the Python object sees it. *)
Section Owned.
Context {R : Type}.
Variable list_call : xcall.
Variable list_all : R -> listing owned.

Local Open Scope eff_scope.

(** [all_volumes()] ([all_servers()]): memoized, the iterator is created by
    the first call. *)
Definition all_owned : M xevent (gmap unit (listing owned) * R) unit :=
  memoize (fun _ : unit => fun r => (Ok (list_all r), r, [XCall list_call])) tt
  ;; ret tt.

(** The loop body of [volumes] ([servers]) run up to its next [yield]:
    elements of other projects are skipped. *)
Fixpoint scan (project_id : string) (l : list owned)
  : option owned * list owned :=
  match l with
  | [] => (None, [])
  | x :: rest =>
      if decide (owned_project_id x = project_id) then (Some x, rest)
      else scan project_id rest
  end.

(** Advancing the cached iterator to the next element of the project.  An
    iterator that has raised is finished. *)
Definition advance (project_id : string)
  : M xevent (gmap unit (listing owned) * R) (option owned) :=
  fun '(cache, r) =>
    match cache !! tt with
    | Some (l, e) =>
        match scan project_id l with
        | (Some x, rest) => (Ok (Some x), (<[tt := (rest, e)]> cache, r), [])
        | (None, _) =>
            match e with
            | None => (Ok None, (<[tt := ([], None)]> cache, r), [])
            | Some e => (Raise e, (<[tt := ([], None)]> cache, r), [])
            end
        end
    | None => (Ok None, (cache, r), [])
    end.

(** The generator of [volumes(project_id)]: not started, or in its loop. *)
Inductive owned_generator :=
  | Unstarted (project_id : string)
  | Looping (project_id : string).

Definition owned_next (g : owned_generator)
  : M xevent (gmap unit (listing owned) * R)
      (option owned * owned_generator) :=
  match g with
  | Unstarted project_id =>
      all_owned ;;
      do x <- advance project_id ;
      ret (x, Looping project_id)
  | Looping project_id =>
      do x <- advance project_id ;
      ret (x, Looping project_id)
  end.

(** A consumer that asks the generator for up to [n] elements. *)
Fixpoint owned_take (n : nat) (g : owned_generator)
  : M xevent (gmap unit (listing owned) * R) (list owned) :=
  match n with
  | 0 => ret []
  | S n' =>
      do r <- owned_next g ;
      match r with
      | (Some x, g') => do xs <- owned_take n' g' ; ret (x :: xs)
      | (None, _) => ret []
      end
  end.
End Owned.

Definition volumes {R} (X : xsdk R) (project_id : string) : owned_generator :=
  Unstarted project_id.
Definition volumes_take {R} (X : xsdk R) :=
  owned_take BlockStorageVolumes (block_storage_volumes X).

Definition servers {R} (X : xsdk R) (project_id : string) : owned_generator :=
  Unstarted project_id.
Definition servers_take {R} (X : xsdk R) :=
  owned_take ComputeServers (compute_servers X).

(** ** __init__: the authentication taken from the environment *)

(** What [__init__] passes to the session: the authentication of
    [p9admin.SAML], which is outside this module, or a password
    authentication with its six arguments. *)
Inductive auth :=
  | SamlAuth
  | Password (auth_url username password user_domain_id project_name
              project_domain_id : string).

Inductive auth_log :=
  | AuthenticatingSaml (username project_name : string)
  | AuthenticatingPassword (username project_name : string).

#[global] Instance auth_eq_dec : EqDecision auth.
Proof. solve_decision. Defined.
#[global] Instance auth_log_eq_dec : EqDecision auth_log.
Proof. solve_decision. Defined.

(** [os.environ[key]]: the value, or [KeyError] with the key. *)
Definition environ (env : gmap string string) (key : string)
  : string + string :=
  match env !! key with
  | Some v => inr v
  | None => inl key
  end.

(** [__init__]: the records logged, and [inl key] for the [KeyError] raised
    for [key] or [inr] the authentication given to the session.  [SamlAuth]
    stands for what [self.saml().auth()] returns. *)
Definition init (env : gmap string string)
  : list auth_log * (string + auth) :=
  if decide (default "password" (env !! "OS_PROTOCOL") = "SAML") then
    match environ env "OS_USERNAME" with
    | inl k => ([], inl k)
    | inr username =>
    match environ env "OS_PROJECT_NAME" with
    | inl k => ([], inl k)
    | inr project_name =>
        ([AuthenticatingSaml username project_name], inr SamlAuth)
    end end
  else
    match environ env "OS_USERNAME" with
    | inl k => ([], inl k)
    | inr log_username =>
    match environ env "OS_PROJECT_NAME" with
    | inl k => ([], inl k)
    | inr log_project_name =>
    let logged := [AuthenticatingPassword log_username log_project_name] in
    match environ env "OS_AUTH_URL" with
    | inl k => (logged, inl k)
    | inr auth_url =>
    match environ env "OS_USERNAME" with
    | inl k => (logged, inl k)
    | inr username =>
    match environ env "OS_PASSWORD" with
    | inl k => (logged, inl k)
    | inr password =>
    match environ env "OS_USER_DOMAIN_ID" with
    | inl k => (logged, inl k)
    | inr user_domain_id =>
    match environ env "OS_PROJECT_NAME" with
    | inl k => (logged, inl k)
    | inr project_name =>
    match environ env "OS_PROJECT_DOMAIN_ID" with
    | inl k => (logged, inl k)
    | inr project_domain_id =>
        (logged,
         inr (Password auth_url username password user_domain_id
                project_name project_domain_id))
    end end end end end end end end.

(** The variables [__init__] reads, in the order of their first reading. *)
Definition required (saml : bool) : list string :=
  if saml then ["OS_USERNAME"; "OS_PROJECT_NAME"]
  else ["OS_USERNAME"; "OS_PROJECT_NAME"; "OS_AUTH_URL"; "OS_PASSWORD";
        "OS_USER_DOMAIN_ID"; "OS_PROJECT_DOMAIN_ID"].

(** ** A simulated service for projects and routers *)
Module XSim.
Record state := State {
  projects : list resource;
  (** networks with the id of their project *)
  networks : list (string * resource);
  group_list : list resource;
  volumes : list owned;
  servers : list owned;
  routers : list resource;
  ports : list resource;
  interfaces : list (string * string);
  (** how many more ports may be created *)
  port_quota : nat;
  outage : option exn
}.

Definition set_routers (l : list resource) (r : state) : state :=
  State (projects r) (networks r) (group_list r) (volumes r) (servers r) l
    (ports r) (interfaces r) (port_quota r) (outage r).
Definition add_port (x : resource) (r : state) : state :=
  State (projects r) (networks r) (group_list r) (volumes r) (servers r)
    (routers r) (ports r ++ [x]) (interfaces r) (pred (port_quota r))
    (outage r).
Definition set_interfaces (l : list (string * string)) (r : state) : state :=
  State (projects r) (networks r) (group_list r) (volumes r) (servers r)
    (routers r) (ports r) l (port_quota r) (outage r).

Definition service : xsdk state := {|
  projects_find n r := Sim.find_by_name n (projects r);
  projects_get id r :=
    match filter (fun x => res_id x = id) (projects r) with
    | x :: _ => Ok x
    | [] => Raise NotFound
    end;
  net_find_network n pid r :=
    Ok (snd <$> head (filter (fun x => fst x = pid /\ res_name (snd x) = n)
                        (networks r)));
  groups_list r := Ok (group_list r);
  block_storage_volumes r := (volumes r, outage r);
  compute_servers r := (servers r, outage r);
  net_create_router pid n d gw r :=
    let x := Resource ("router-" ++ n) n in
    (Ok x, set_routers (routers r ++ [x]) r);
  net_create_port pid nid sid ip r :=
    match port_quota r with
    | 0 => (Raise (OtherError "Conflict"), r)
    | S _ => let x := Resource ("port-" ++ sid) "" in (Ok x, add_port x r)
    end;
  net_add_interface_to_router router sid pid r :=
    (Ok tt, set_interfaces (interfaces r ++ [(res_id router, pid)]) r)
|}.
End XSim.

Module XSample.
Definition services : resource := Resource "p0" "service".
Definition tenant : resource := Resource "p1" "proj".
Definition external : resource := Resource "n0" "external".
Definition inner : resource := Resource "n1" "net".
Definition sub : subnet_gw :=
  SubnetGw (Subnet "s1" "sub" "10.0.0.0/24") "10.0.0.1".

Definition cloud : XSim.state := {|
  XSim.projects := [services; tenant];
  XSim.networks := [("p0", external); ("p1", inner)];
  XSim.group_list := [Resource "g1" "devs"];
  XSim.volumes := [Owned "v1" "p1"; Owned "v2" "p0"; Owned "v3" "p1"];
  XSim.servers := [Owned "i1" "p0"; Owned "i2" "p1"];
  XSim.routers := [];
  XSim.ports := [];
  XSim.interfaces := [];
  XSim.port_quota := 1;
  XSim.outage := None
|}.

(** The same cloud with no port left to create. *)
Definition full : XSim.state := {|
  XSim.projects := [services; tenant];
  XSim.networks := [("p0", external); ("p1", inner)];
  XSim.group_list := [];
  XSim.volumes := [];
  XSim.servers := [];
  XSim.routers := [];
  XSim.ports := [];
  XSim.interfaces := [];
  XSim.port_quota := 0;
  XSim.outage := None
|}.

(** A cloud without the external network. *)
Definition isolated : XSim.state := {|
  XSim.projects := [services; tenant];
  XSim.networks := [("p1", inner)];
  XSim.group_list := [];
  XSim.volumes := [];
  XSim.servers := [];
  XSim.routers := [];
  XSim.ports := [];
  XSim.interfaces := [];
  XSim.port_quota := 1;
  XSim.outage := None
|}.
End XSample.

(** ** The methods of the client, one after the other

    What happens to a client between two calls of a getter: calls of its
    methods, with whatever arguments, and changes of the service that do
    not go through this client. *)
Module Method.
Inductive t :=
  | Role (name : string)
  | SubnetsNext (g : generator subnet_res)
  | Subnet (id : string)
  | SecurityGroupsNext (g : generator resource)
  | SecurityGroup (id : string)
  | FindUser (email : user_ref)
  | EnsureUser (u : User.t) (default_project : option resource)
  | FindGroup (name : string)
  | EnsureGroup (name : string)
  | EnsureGroupMembers (group : resource) (ensure_users : list resource)
      (keep_others : bool)
  | CheckRoleAssignment (role : string) (user group : option resource)
      (project : resource)
  | GrantProjectAccess (project : resource) (user group : option resource)
      (role_name : string)
  | RevokeProjectAccess (project : resource) (user group : option resource)
      (role_name : string)
  | FindNetwork (project : resource) (name : string)
  | FindSubnet (project network : resource) (name : string)
  | FindRouter (project : resource) (name : string)
  | FindSecurityGroup (project : resource) (name : string)
  | FindSecurityGroupRule (security_group : resource).
End Method.

Inductive step (R : Type) :=
  | Calls (m : Method.t)
  | Service (r : R).
Arguments Calls {R} m.
Arguments Service {R} r.

Section Steps.
Context {R : Type} (K : sdk R) `{!SetOrder}.

(** The client that a call leaves, whether it returns or raises. *)
Definition left_by {A} (m : M event (client R) A) (c : client R)
  : client R :=
  snd (fst (m c)).

Definition after (s : step R) (c : client R) : client R :=
  match s with
  | Service r => set_remote r c
  | Calls m =>
      match m with
      | Method.Role name => left_by (role K name) c
      | Method.SubnetsNext g => left_by (subnets_next K g) c
      | Method.Subnet id => left_by (subnet K id) c
      | Method.SecurityGroupsNext g => left_by (security_groups_next K g) c
      | Method.SecurityGroup id => left_by (security_group K id) c
      | Method.FindUser email => left_by (find_user K email) c
      | Method.EnsureUser u default_project =>
          left_by (ensure_user K u default_project) c
      | Method.FindGroup name => left_by (find_group K name) c
      | Method.EnsureGroup name => left_by (ensure_group K name) c
      | Method.EnsureGroupMembers group ensure_users keep_others =>
          left_by (ensure_group_members K group ensure_users keep_others) c
      | Method.CheckRoleAssignment role user group project =>
          left_by (check_role_assignment K role user group project) c
      | Method.GrantProjectAccess project user group role_name =>
          left_by (grant_project_access K project user group role_name) c
      | Method.RevokeProjectAccess project user group role_name =>
          left_by (revoke_project_access K project user group role_name) c
      | Method.FindNetwork project name =>
          left_by (find_network K project name) c
      | Method.FindSubnet project network name =>
          left_by (find_subnet K project network name) c
      | Method.FindRouter project name =>
          left_by (find_router K project name) c
      | Method.FindSecurityGroup project name =>
          left_by (find_security_group K project name) c
      | Method.FindSecurityGroupRule security_group =>
          left_by (find_security_group_rule K security_group) c
      end
  end.



End Steps.

(** * Properties *)

(** ** Traces *)

Lemma calls_of_app (t1 t2 : list event) :
  calls_of (t1 ++ t2) = calls_of t1 ++ calls_of t2.
Proof. apply omap_app. Qed.

Lemma times_app (c : call) (t1 t2 : list event) :
  times c (t1 ++ t2) = times c t1 + times c t2.
Proof.
  unfold times. by rewrite calls_of_app, filter_app, length_app.
Qed.

Lemma times_nil (c : call) : times c [] = 0.
Proof. reflexivity. Qed.

Lemma times_log (c : call) (l : level) (m : message) (t : list event) :
  times c (Log l m :: t) = times c t.
Proof. reflexivity. Qed.

Lemma times_call (c c' : call) (t : list event) :
  times c (Call c' :: t) = (if decide (c' = c) then 1 else 0) + times c t.
Proof.
  unfold times. simpl. rewrite filter_cons. by case_decide.
Qed.

(** ** The monad *)

Section EffFacts.
Context {E S : Type}.

Lemma bind_ok {A B} (m : M E S A) (k : A -> M E S B) s b s' t :
  bind m k s = (Ok b, s', t) ->
  exists a s1 t1 t2,
    m s = (Ok a, s1, t1) /\ k a s1 = (Ok b, s', t2) /\ t = t1 ++ t2.
Proof.
  unfold bind. destruct (m s) as [[[a|e] s1] t1]; [|discriminate].
  destruct (k a s1) as [[o s2] t2] eqn:Hk. intros [= -> -> <-].
  by exists a, s1, t1, t2.
Qed.

Lemma bind_run {A B} (m : M E S A) (k : A -> M E S B) s a s1 t1 :
  m s = (Ok a, s1, t1) ->
  bind m k s =
    match k a s1 with (o, s2, t2) => (o, s2, t1 ++ t2) end.
Proof. unfold bind. by intros ->. Qed.

Lemma bind_raise {A B} (m : M E S A) (k : A -> M E S B) s e s1 t1 :
  m s = (Raise e, s1, t1) -> bind m k s = (Raise e, s1, t1).
Proof. unfold bind. by intros ->. Qed.
End EffFacts.

(** ** check_role_assignment *)

Section RoleAssignment.
Context {R : Type} (K : sdk R).

Lemma check_role_assignment_run role user group project (c : client R) :
  check_role_assignment K role user group project c =
    (match roles_check K role user group project (remote c) with
     | Ok b => Ok b
     | Raise NotFound => Ok false
     | Raise e => Raise e
     end, c, [Call (RolesCheck role user group project)]).
Proof.
  unfold check_role_assignment, except_not_found, bind, on_remote, request,
    ret.
  destruct c as [r rc sc gc]; simpl.
  destruct (roles_check K role user group project r) as [[]|[]]; done.
Qed.

(** C8: [check_role_assignment] makes one [roles.check] call and leaves
    the client as it was; it returns the truth value of what the call
    returns, returns [False] when the call raises [NotFound] (which
    therefore never leaves the method), and so returns [True] exactly when
    the call succeeds with a true value. *)
Theorem check_role_assignment_total
    role user group project (c c' : client R) o t :
  check_role_assignment K role user group project c = (o, c', t) ->
  c' = c /\ t = [Call (RolesCheck role user group project)] /\
  (forall b,
      roles_check K role user group project (remote c) = Ok b ->
      o = Ok b) /\
  (roles_check K role user group project (remote c) = Raise NotFound ->
   o = Ok false) /\
  (o = Ok true <->
   roles_check K role user group project (remote c) = Ok true) /\
  o <> Raise NotFound.
Proof.
  rewrite check_role_assignment_run. intros [= <- <- <-].
  destruct (roles_check K role user group project (remote c)) as [[]|[]];
    repeat split; intros; congruence.
Qed.
End RoleAssignment.

Lemma check_role_assignment_total_witness :
  let c := Sim.connect Sample.cloud in
  let check :=
    roles_check Sim.service "r1" (Some Sample.alice) None Sample.proj
      (remote c) in
  c = c /\
  [Call (RolesCheck "r1" (Some Sample.alice) None Sample.proj)]
  = [Call (RolesCheck "r1" (Some Sample.alice) None Sample.proj)] /\
  (forall b, check = Ok b -> Ok false = Ok b) /\
  (check = Raise NotFound -> Ok false = Ok false) /\
  (Ok false = Ok true <-> check = Ok true) /\
  Ok false <> Raise (A := bool) NotFound.
Proof.
  apply (check_role_assignment_total Sim.service "r1" (Some Sample.alice)
           None Sample.proj (Sim.connect Sample.cloud)).
  vm_compute. reflexivity.
Defined.

(** ** grant_project_access and revoke_project_access: the argument check *)

Section ProjectAccessArguments.
Context {R : Type} (K : sdk R).

Lemma role_run role_name (c : client R) :
  role K role_name c =
    match role_cache c !! role_name with
    | Some ro => (Ok ro, c, [])
    | None =>
        match roles_find K role_name (remote c) with
        | Ok ro =>
            (Ok ro, set_role_cache (<[role_name := ro]> (role_cache c)) c,
             [Call (RolesFind role_name)])
        | Raise e => (Raise e, c, [Call (RolesFind role_name)])
        end
    end.
Proof.
  unfold role, with_cache, memoize, memoize_by, request.
  destruct c as [r rc sc gc]; simpl.
  destruct (rc !! role_name); [done|].
  destruct (roles_find K role_name r); done.
Qed.

Lemma subject_of_raise user group :
  ~ one_subject user group ->
  subject_of user group
  = Raise (ValueError "Must specify exactly one of user or group").
Proof.
  unfold one_subject. destruct user, group; simpl; intros Hn; try done.
  - destruct Hn. by right.
  - destruct Hn. by left.
Qed.

Lemma one_subject_ok user group :
  one_subject user group -> exists s, subject_of user group = Ok s.
Proof.
  unfold one_subject.
  destruct user, group; simpl; intros [[? ?]|[? ?]]; try done; eauto.
Qed.

(** After the argument check the methods look the role up and check the
    assignment: at least one remote call is made. *)
Lemma check_then_calls {A} role user group project
    (k : bool -> M event (client R) A) (c : client R) :
  calls_of (snd (bind (check_role_assignment K role user group project) k c))
  <> [].
Proof.
  unfold bind. rewrite check_role_assignment_run.
  destruct (roles_check K role user group project (remote c)) as [b|[]];
    simpl; try done.
  - by destruct (k b c) as [[? ?] ?].
  - by destruct (k false c) as [[? ?] ?].
Qed.

Lemma role_then_calls {A} role_name
    (k : resource -> M event (client R) A) (c : client R) :
  (forall ro c', calls_of (snd (k ro c')) <> []) ->
  calls_of (snd (bind (role K role_name) k c)) <> [].
Proof.
  intros Hk. unfold bind. rewrite role_run.
  destruct (role_cache c !! role_name) as [ro|].
  - specialize (Hk ro c). by destruct (k ro c) as [[? ?] ?].
  - destruct (roles_find K role_name (remote c)) as [ro|e]; [|done].
    by destruct (k ro _) as [[? ?] ?].
Qed.

(** C10: called with both a user and a group, or with neither,
    [grant_project_access] and [revoke_project_access] raise [ValueError]
    with no event at all (no role lookup, no check, no grant or revoke, no
    log) and leave the client and the service as they were; called with
    exactly one of them they go on to the remote calls. *)
Theorem project_access_needs_one_subject
    project user group role_name (c : client R) :
  (~ one_subject user group ->
   grant_project_access K project user group role_name c
   = (Raise (ValueError "Must specify exactly one of user or group"), c, [])
   /\ revoke_project_access K project user group role_name c
      = (Raise (ValueError "Must specify exactly one of user or group"),
         c, [])) /\
  (one_subject user group ->
   calls_of (snd (grant_project_access K project user group role_name c))
   <> [] /\
   calls_of (snd (revoke_project_access K project user group role_name c))
   <> []).
Proof.
  split.
  - intros Hn. unfold grant_project_access, revoke_project_access, bind, lift.
    by rewrite (subject_of_raise _ _ Hn).
  - intros [s Hs]%one_subject_ok.
    unfold grant_project_access, revoke_project_access.
    split; unfold bind at 1, lift; rewrite Hs.
    + match goal with |- context [bind (role K role_name) ?k c] =>
        pose proof (role_then_calls role_name k c) as Hc;
        destruct (bind (role K role_name) k c) as [[o c'] t] end.
      simpl in *. apply Hc. intros ro c1. apply check_then_calls.
    + match goal with |- context [bind (role K role_name) ?k c] =>
        pose proof (role_then_calls role_name k c) as Hc;
        destruct (bind (role K role_name) k c) as [[o c'] t] end.
      simpl in *. apply Hc. intros ro c1. apply check_then_calls.
Qed.
End ProjectAccessArguments.

Lemma project_access_needs_one_subject_witness :
  (grant_project_access Sim.service Sample.proj (Some Sample.alice)
     (Some Sample.devs) "_member_" (Sim.connect Sample.cloud)
   = (Raise (ValueError "Must specify exactly one of user or group"),
      Sim.connect Sample.cloud, [])
   /\ revoke_project_access Sim.service Sample.proj (Some Sample.alice)
        (Some Sample.devs) "_member_" (Sim.connect Sample.cloud)
      = (Raise (ValueError "Must specify exactly one of user or group"),
         Sim.connect Sample.cloud, []))
  /\ calls_of
       (snd (grant_project_access Sim.service Sample.proj None
               (Some Sample.devs) "_member_" (Sim.connect Sample.cloud)))
     <> [].
Proof.
  split.
  - apply (project_access_needs_one_subject Sim.service Sample.proj
             (Some Sample.alice) (Some Sample.devs)).
    unfold one_subject. intros [[? _]|[_ ?]]; discriminate.
  - apply (project_access_needs_one_subject Sim.service Sample.proj
             None (Some Sample.devs)).
    left. split; [reflexivity | discriminate].
Defined.

(** ** The find methods of the network service *)

Section LinearSearch.
Context {R : Type} (K : sdk R).

Lemma return_first_log {A} (l : listing A) (m : A -> message) (c : client R) :
  returns_first l
    (fst (fst (return_first l (fun x => log Info (m x)) c))).
Proof.
  unfold returns_first, return_first, log, emit, bind, ret, raise.
  destruct l as [[|x rest] [e|]]; simpl.
  all: split; [intros ? ? ? [=]; by subst | split; intros [=]; done].
Qed.

Lemma on_remote_paginate {A} (call : call) (f : R -> listing A)
    (c : client R) :
  on_remote (paginate call f) c = (Ok (f (remote c)), c, [Call call]).
Proof. by destruct c. Qed.

Lemma bind_paginate {A B} (call : call) (f : R -> listing A)
    (k : listing A -> M event (client R) B) (c : client R) :
  fst (fst (bind (on_remote (paginate call f)) k c))
  = fst (fst (k (f (remote c)) c)).
Proof.
  unfold bind. rewrite on_remote_paginate. by destruct (k _ c) as [[? ?] ?].
Qed.

Lemma find_rule_loop_first pre r post e (c : client R) :
  Forall (fun x => ~ open_rule x) pre -> open_rule r ->
  fst (fst (find_rule_loop (pre ++ r :: post) e c)) = Ok (Some r).
Proof.
  intros Hpre Hr. induction Hpre as [|x pre Hx _ IH]; simpl.
  - by rewrite decide_True.
  - by rewrite decide_False.
Qed.

Lemma find_rule_loop_none rules (c : client R) :
  Forall (fun x => ~ open_rule x) rules ->
  fst (fst (find_rule_loop rules None c)) = Ok None.
Proof.
  induction 1 as [|x rules Hx _ IH]; simpl; [done|]. by rewrite decide_False.
Qed.

Lemma find_rule_loop_some rules e r (c : client R) :
  fst (fst (find_rule_loop rules e c)) = Ok (Some r) ->
  r ∈ rules /\ open_rule r.
Proof.
  induction rules as [|x rules IH]; simpl.
  - by destruct e.
  - case_decide as Hx.
    + intros [= ->]. split; [left | done].
    + intros [Hin Hr]%IH. split; [by right | done].
Qed.

(** C7: [find_network], [find_subnet], [find_router] and
    [find_security_group] return the first element that the SDK's listing
    for their query yields, and [None] exactly when the listing ends
    without an element.  [find_security_group_rule] asks for the ingress
    IPv4 rules of the group and returns the first one yielded whose
    [remote_ip_prefix] is [0.0.0.0/0], and [None] when the listing ends
    without one; what it returns is a rule of that listing, hence an
    ingress IPv4 rule when the SDK applies the filter it was given. *)
Theorem find_is_linear_search
    (project network security_group : resource) name (c : client R) :
  returns_first
    (net_networks K [("project_id", res_id project); ("name", name)]
       (remote c))
    (fst (fst (find_network K project name c))) /\
  returns_first
    (net_subnets K
       [("project_id", res_id project); ("network_id", res_id network);
        ("name", name)] (remote c))
    (fst (fst (find_subnet K project network name c))) /\
  returns_first
    (net_routers K [("project_id", res_id project); ("name", name)]
       (remote c))
    (fst (fst (find_router K project name c))) /\
  returns_first
    (net_security_groups K [("project_id", res_id project); ("name", name)]
       (remote c))
    (fst (fst (find_security_group K project name c))) /\
  returns_first_open
    (net_security_group_rules K
       [("security_group_id", res_id security_group);
        ("direction", "ingress"); ("ethertype", "IPv4")] (remote c))
    (fst (fst (find_security_group_rule K security_group c))).
Proof.
  unfold find_network, find_subnet, find_router, find_security_group,
    find_security_group_rule.
  rewrite !bind_paginate.
  do 4 (split; [apply return_first_log|]).
  split; [|split].
  - intros pre r post e Hl Hpre Hr. rewrite Hl. simpl.
    by apply find_rule_loop_first.
  - intros rules Hl Hrules. rewrite Hl. simpl.
    by apply find_rule_loop_none.
  - intros r Hr. by apply find_rule_loop_some in Hr.
Qed.
End LinearSearch.

Lemma find_is_linear_search_witness :
  let c := Sim.connect Sample.cloud in
  fst (fst (find_network Sim.service Sample.proj "net" c))
  = Ok (Some Sample.net) /\
  fst (fst (find_subnet Sim.service Sample.proj Sample.net "sub" c))
  = Ok (Some Sample.sub_a) /\
  (fst (fst (find_router Sim.service Sample.proj "gw" c)) = Ok None <->
   net_routers Sim.service [("project_id", "p1"); ("name", "gw")]
     Sample.cloud = ([], None)) /\
  fst (fst (find_security_group_rule Sim.service Sample.sg_a c))
  = Ok (Some Sample.rule_any).
Proof.
  intros c.
  destruct (find_is_linear_search Sim.service Sample.proj Sample.net
              Sample.sg_a "net" c) as ([Hnet _] & _).
  destruct (find_is_linear_search Sim.service Sample.proj Sample.net
              Sample.sg_a "sub" c) as (_ & [Hsub _] & _).
  destruct (find_is_linear_search Sim.service Sample.proj Sample.net
              Sample.sg_a "gw" c) as (_ & _ & [_ Hgw] & _ & (Hrule & _)).
  split; [|split; [|split]].
  - apply (Hnet Sample.net [] None). vm_compute. reflexivity.
  - apply (Hsub Sample.sub_a [Sample.sub_b] None). vm_compute. reflexivity.
  - exact Hgw.
  - apply (Hrule [Sample.rule_ssh] Sample.rule_any [Sample.rule_all] None).
    + vm_compute. reflexivity.
    + repeat constructor. discriminate.
    + reflexivity.
Defined.

(** ** The listing generators seed the caches *)

Section Seeding.
Context {R : Type} (K : sdk R).

Lemma subnet_run id (c : client R) :
  subnet K id c =
    match subnet_cache c !! id with
    | Some s => (Ok s, c, [])
    | None =>
        match net_get_subnet K id (remote c) with
        | Ok s =>
            (Ok s, set_subnet_cache (<[id := s]> (subnet_cache c)) c,
             [Call (GetSubnet id)])
        | Raise e => (Raise e, c, [Call (GetSubnet id)])
        end
    end.
Proof.
  unfold subnet, with_cache, memoize, memoize_by, request.
  destruct c as [r rc sc gc]; simpl.
  destruct (sc !! id); [done|]. by destruct (net_get_subnet K id r).
Qed.

Lemma security_group_run id (c : client R) :
  security_group K id c =
    match security_group_cache c !! id with
    | Some s => (Ok s, c, [])
    | None =>
        match net_get_security_group K id (remote c) with
        | Ok s =>
            (Ok s,
             set_security_group_cache (<[id := s]> (security_group_cache c)) c,
             [Call (GetSecurityGroup id)])
        | Raise e => (Raise e, c, [Call (GetSecurityGroup id)])
        end
    end.
Proof.
  unfold security_group, with_cache, memoize, memoize_by, request.
  destruct c as [r rc sc gc]; simpl.
  destruct (gc !! id); [done|]. by destruct (net_get_security_group K id r).
Qed.

(** One [next] that yields [s] stores [s] under its id and keeps the rest of
    the cache. *)
Lemma subnets_resume_cache l s g' (c c' : client R) t :
  subnets_resume l c = (Ok (Some s, g'), c', t) ->
  subnet_cache c' = <[subnet_id s := s]> (subnet_cache c).
Proof.
  destruct l as [[|x rest] [e|]]; simpl; try done.
  all: unfold bind, modify, ret; simpl; by intros [= <- _ <- _].
Qed.

Lemma subnets_next_cache g s g' (c c' : client R) t :
  subnets_next K g c = (Ok (Some s, g'), c', t) ->
  subnet_cache c' = <[subnet_id s := s]> (subnet_cache c).
Proof.
  destruct g as [kw|l]; simpl; [|apply subnets_resume_cache].
  intros (l & c1 & t1 & t2 & Hl & Hres & _)%bind_ok.
  rewrite on_remote_paginate in Hl. injection Hl as _ <- _.
  by apply subnets_resume_cache in Hres.
Qed.

Lemma security_groups_resume_cache l s g' (c c' : client R) t :
  security_groups_resume l c = (Ok (Some s, g'), c', t) ->
  security_group_cache c' = <[res_id s := s]> (security_group_cache c).
Proof.
  destruct l as [[|x rest] [e|]]; simpl; try done.
  all: unfold bind, modify, ret; simpl; by intros [= <- _ <- _].
Qed.

Lemma security_groups_next_cache g s g' (c c' : client R) t :
  security_groups_next K g c = (Ok (Some s, g'), c', t) ->
  security_group_cache c' = <[res_id s := s]> (security_group_cache c).
Proof.
  destruct g as [kw|l]; simpl; [|apply security_groups_resume_cache].
  intros (l & c1 & t1 & t2 & Hl & Hres & _)%bind_ok.
  rewrite on_remote_paginate in Hl. injection Hl as _ <- _.
  by apply security_groups_resume_cache in Hres.
Qed.

(** The cache after a consumer has taken the elements [xs]. *)
Lemma take_from_cache {A} (next : generator A -> M event (client R) _)
    (cache : client R -> gmap string A) (id : A -> string) :
  (forall g x g' c c' t,
      next g c = (Ok (Some x, g'), c', t) ->
      cache c' = <[id x := x]> (cache c)) ->
  (forall g g' c c' t, next g c = (Ok (None, g'), c', t) -> cache c' = cache c) ->
  forall n g c xs c' t,
    take_from next n g c = (Ok xs, c', t) ->
    cache c' = foldl (fun m x => <[id x := x]> m) (cache c) xs.
Proof.
  intros Hsome Hnone n. induction n as [|n IH]; intros g c xs c' t; simpl.
  - by intros [= <- <- _].
  - intros ([[x|] g1] & c1 & t1 & t2 & Hnext & Hrest & _)%bind_ok.
    + apply bind_ok in Hrest as (ys & c2 & t3 & t4 & Htake & Hret & _).
      injection Hret as <- <- _. simpl.
      rewrite <- (Hsome _ _ _ _ _ _ Hnext). by eapply IH.
    + injection Hrest as <- <- _. simpl. by eapply Hnone.
Qed.

Lemma foldl_insert_notin {A} (id : A -> string) xs (m : gmap string A) k :
  k ∉ id <$> xs -> foldl (fun m x => <[id x := x]> m) m xs !! k = m !! k.
Proof.
  revert m. induction xs as [|x xs IH]; intros m; simpl; [done|].
  rewrite not_elem_of_cons. intros [Hk Hin].
  rewrite IH by done. by rewrite lookup_insert_ne.
Qed.

Lemma foldl_insert_lookup {A} (id : A -> string) xs (m : gmap string A) x :
  NoDup (id <$> xs) -> x ∈ xs ->
  foldl (fun m x => <[id x := x]> m) m xs !! id x = Some x.
Proof.
  revert m. induction xs as [|y xs IH]; intros m; simpl.
  - by intros _ ?%elem_of_nil.
  - rewrite NoDup_cons. intros [Hy Hnd] [->|Hin]%elem_of_cons.
    + rewrite foldl_insert_notin by done. by rewrite lookup_insert_eq.
    + by apply IH.
Qed.

Lemma subnets_resume_end l g' (c c' : client R) t :
  subnets_resume l c = (Ok (None, g'), c', t) -> c' = c.
Proof.
  destruct l as [[|x rest] [e|]]; simpl; try done.
  all: unfold bind, modify, ret; simpl; by intros [=].
Qed.

Lemma security_groups_resume_end l g' (c c' : client R) t :
  security_groups_resume l c = (Ok (None, g'), c', t) -> c' = c.
Proof.
  destruct l as [[|x rest] [e|]]; simpl; try done.
  all: unfold bind, modify, ret; simpl; by intros [=].
Qed.

Lemma subnets_next_end g g' (c c' : client R) t :
  subnets_next K g c = (Ok (None, g'), c', t) ->
  subnet_cache c' = subnet_cache c.
Proof.
  destruct g as [kw|l]; simpl.
  - intros (l & c1 & t1 & t2 & Hl & Hres & _)%bind_ok.
    rewrite on_remote_paginate in Hl. injection Hl as _ <- _.
    by apply subnets_resume_end in Hres as ->.
  - by intros ->%subnets_resume_end.
Qed.

Lemma security_groups_next_end g g' (c c' : client R) t :
  security_groups_next K g c = (Ok (None, g'), c', t) ->
  security_group_cache c' = security_group_cache c.
Proof.
  destruct g as [kw|l]; simpl.
  - intros (l & c1 & t1 & t2 & Hl & Hres & _)%bind_ok.
    rewrite on_remote_paginate in Hl. injection Hl as _ <- _.
    by apply security_groups_resume_end in Hres as ->.
  - by intros ->%security_groups_resume_end.
Qed.

(** One step of a consumer. *)
Lemma take_from_S {A}
    (next : generator A -> M event (client R) (option A * generator A))
    n g (c : client R) :
  take_from next (S n) g c =
    match next g c with
    | (Ok (Some x, g'), c1, t1) =>
        match take_from next n g' c1 with
        | (Ok xs, c2, t2) => (Ok (x :: xs), c2, t1 ++ t2)
        | (Raise e, c2, t2) => (Raise e, c2, t1 ++ t2)
        end
    | (Ok (None, _), c1, t1) => (Ok [], c1, t1)
    | (Raise e, c1, t1) => (Raise e, c1, t1)
    end.
Proof.
  cbn [take_from]. unfold bind at 1.
  destruct (next g c) as [[[[[x|] g']|e] c1] t1];
    [|by unfold ret; rewrite app_nil_r|done].
  unfold bind, ret.
  destruct (take_from next n g' c1) as [[[xs|e] c2] t2]; [|done].
  by rewrite app_nil_r.
Qed.

(** A consumer of a generator suspended over the listing [(l, e)], when
    the generator yields each element after [seed] has stored it: it gets
    the first [n] elements; past the end of the listing, all of them or the
    exception that ended it. *)
Lemma take_from_listing {A}
    (next : generator A -> M event (client R) (option A * generator A))
    (seed : A -> client R -> client R) :
  (forall x rest e c,
      next (Suspended (x :: rest, e)) c
      = (Ok (Some x, Suspended (rest, e)), seed x c, [])) ->
  (forall c,
      next (Suspended ([], None)) c
      = (Ok (None, Suspended ([], None)), c, [])) ->
  (forall err c, next (Suspended ([], Some err)) c = (Raise err, c, [])) ->
  forall n l e c,
    take_from next n (Suspended (l, e)) c =
      (if decide (n <= length l) then Ok (take n l)
       else match e with None => Ok l | Some err => Raise err end,
       foldl (fun c x => seed x c) c (take n l), []).
Proof.
  intros Hyield Hend Hraise n.
  induction n as [|n IH]; intros l e c; [done|].
  rewrite take_from_S. destruct l as [|x rest].
  - destruct e as [err|]; [by rewrite Hraise|by rewrite Hend].
  - rewrite Hyield, IH. cbn [length take foldl].
    destruct (decide (n <= length rest)).
    + by rewrite decide_True by lia.
    + rewrite decide_False by lia. by destruct e.
Qed.

Lemma subnets_seeded xs (c : client R) :
  foldl (fun c x =>
           set_subnet_cache
             (add_memo (subnet_cache c) (subnet_id x) x) c) c xs
  = set_subnet_cache
      (foldl (fun m x => <[subnet_id x := x]> m) (subnet_cache c) xs) c.
Proof.
  revert c. induction xs as [|x xs IH]; intros c; simpl.
  - by destruct c.
  - rewrite IH. by destruct c.
Qed.

Lemma security_groups_seeded xs (c : client R) :
  foldl (fun c x =>
           set_security_group_cache
             (add_memo (security_group_cache c) (res_id x) x) c) c xs
  = set_security_group_cache
      (foldl (fun m x => <[res_id x := x]> m) (security_group_cache c) xs) c.
Proof.
  revert c. induction xs as [|x xs IH]; intros c; simpl.
  - by destruct c.
  - rewrite IH. by destruct c.
Qed.

(** A consumer of [subnets(kw)] that asks for [S n] subnets: one listing
    call; it gets the first [S n] subnets of the SDK's listing (all of
    them, or the exception that ended the listing, when there are fewer),
    and each one it was given is stored under its id. *)
Lemma subnets_consumed kw n (c : client R) :
  let l := net_subnets K kw (remote c) in
  take_from (subnets_next K) (S n) (subnets kw) c =
    (if decide (S n <= length (fst l)) then Ok (take (S n) (fst l))
     else match snd l with None => Ok (fst l) | Some err => Raise err end,
     set_subnet_cache
       (foldl (fun m x => <[subnet_id x := x]> m) (subnet_cache c)
          (take (S n) (fst l))) c,
     [Call (Subnets kw)]).
Proof.
  cbv zeta. rewrite <- subnets_seeded.
  pose proof (take_from_listing (subnets_next K)
                (fun x c =>
                   set_subnet_cache
                     (add_memo (subnet_cache c) (subnet_id x) x) c))
    as Hrun.
  destruct (net_subnets K kw (remote c)) as [l e] eqn:Hl.
  specialize (Hrun ltac:(done) ltac:(done) ltac:(done) (S n) l e c).
  rewrite take_from_S in Hrun. rewrite take_from_S.
  unfold subnets. cbn [subnets_next] in *. unfold bind at 1.
  rewrite on_remote_paginate, Hl. cbn [fst snd].
  destruct (subnets_resume (l, e) c) as [[[[[x|] g']|err] c1] t1].
  - destruct (take_from (subnets_next K) n g' c1) as [[[xs|err] c2] t2];
      injection Hrun as <- <- Ht; by rewrite <- app_assoc, Ht.
  - injection Hrun as <- <- Ht. by rewrite Ht.
  - injection Hrun as <- <- Ht. by rewrite Ht.
Qed.

Lemma security_groups_consumed kw n (c : client R) :
  let l := net_security_groups K kw (remote c) in
  take_from (security_groups_next K) (S n) (security_groups kw) c =
    (if decide (S n <= length (fst l)) then Ok (take (S n) (fst l))
     else match snd l with None => Ok (fst l) | Some err => Raise err end,
     set_security_group_cache
       (foldl (fun m x => <[res_id x := x]> m) (security_group_cache c)
          (take (S n) (fst l))) c,
     [Call (SecurityGroups kw)]).
Proof.
  cbv zeta. rewrite <- security_groups_seeded.
  pose proof (take_from_listing (security_groups_next K)
                (fun x c =>
                   set_security_group_cache
                     (add_memo (security_group_cache c) (res_id x) x) c))
    as Hrun.
  destruct (net_security_groups K kw (remote c)) as [l e] eqn:Hl.
  specialize (Hrun ltac:(done) ltac:(done) ltac:(done) (S n) l e c).
  rewrite take_from_S in Hrun. rewrite take_from_S.
  unfold security_groups. cbn [security_groups_next] in *. unfold bind at 1.
  rewrite on_remote_paginate, Hl. cbn [fst snd].
  destruct (security_groups_resume (l, e) c) as [[[[[x|] g']|err] c1] t1].
  - destruct (take_from (security_groups_next K) n g' c1)
      as [[[xs|err] c2] t2];
      injection Hrun as <- <- Ht; by rewrite <- app_assoc, Ht.
  - injection Hrun as <- <- Ht. by rewrite Ht.
  - injection Hrun as <- <- Ht. by rewrite Ht.
Qed.

(** C9: when the generator of [subnets] has just yielded a subnet,
    [subnet] called with its id returns that very object with no remote
    call and no change of state; and after a consumer has taken any number
    of subnets with distinct ids from [subnets(kw)], this holds for each
    subnet it was given.  The same for [security_groups] and
    [security_group].

    What is yielded is what the SDK lists: a consumer that asks
    [subnets(kw)] for [S n] subnets makes one listing call and is given the
    first [S n] subnets of the SDK's listing (all of them when the listing
    ends before); when their ids are distinct, [subnet] called with the id
    of any of them then returns that object with no remote call.  The same
    for [security_groups] and [security_group]. *)
Theorem listings_seed_the_cache (c c' : client R) t :
  (forall g s g',
      subnets_next K g c = (Ok (Some s, g'), c', t) ->
      subnet K (subnet_id s) c' = (Ok s, c', [])) /\
  (forall g s g',
      security_groups_next K g c = (Ok (Some s, g'), c', t) ->
      security_group K (res_id s) c' = (Ok s, c', [])) /\
  (forall kw n xs,
      take_from (subnets_next K) n (subnets kw) c = (Ok xs, c', t) ->
      NoDup (subnet_id <$> xs) ->
      forall s, s ∈ xs -> subnet K (subnet_id s) c' = (Ok s, c', [])) /\
  (forall kw n xs,
      take_from (security_groups_next K) n (security_groups kw) c
      = (Ok xs, c', t) ->
      NoDup (res_id <$> xs) ->
      forall s, s ∈ xs -> security_group K (res_id s) c' = (Ok s, c', [])) /\
  (forall kw n,
      let listed := net_subnets K kw (remote c) in
      let xs := take (S n) (fst listed) in
      let run := take_from (subnets_next K) (S n) (subnets kw) c in
      snd run = [Call (Subnets kw)] /\
      (S n <= length (fst listed) \/ snd listed = None ->
       fst (fst run) = Ok xs) /\
      (NoDup (subnet_id <$> xs) ->
       forall s, s ∈ xs ->
         subnet K (subnet_id s) (snd (fst run))
         = (Ok s, snd (fst run), []))) /\
  (forall kw n,
      let listed := net_security_groups K kw (remote c) in
      let xs := take (S n) (fst listed) in
      let run :=
        take_from (security_groups_next K) (S n) (security_groups kw) c in
      snd run = [Call (SecurityGroups kw)] /\
      (S n <= length (fst listed) \/ snd listed = None ->
       fst (fst run) = Ok xs) /\
      (NoDup (res_id <$> xs) ->
       forall s, s ∈ xs ->
         security_group K (res_id s) (snd (fst run))
         = (Ok s, snd (fst run), []))).
Proof.
  split; [|split; [|split; [|split; [|split]]]].
  - intros g s g' Hnext%subnets_next_cache.
    by rewrite subnet_run, Hnext, lookup_insert_eq.
  - intros g s g' Hnext%security_groups_next_cache.
    by rewrite security_group_run, Hnext, lookup_insert_eq.
  - intros kw n xs Htake Hnd s Hs.
    apply (take_from_cache _ subnet_cache subnet_id) in Htake;
      [|apply subnets_next_cache|apply subnets_next_end].
    by rewrite subnet_run, Htake, foldl_insert_lookup.
  - intros kw n xs Htake Hnd s Hs.
    apply (take_from_cache _ security_group_cache res_id) in Htake;
      [|apply security_groups_next_cache|apply security_groups_next_end].
    by rewrite security_group_run, Htake, foldl_insert_lookup.
  - intros kw n. cbv zeta. rewrite subnets_consumed. cbn [fst snd].
    split; [done|]. split.
    + intros Hall. destruct (decide (S n <= _)) as [|Hlt]; [done|].
      destruct Hall as [Hle|Hnone]; [lia|].
      rewrite Hnone, take_ge; [done|lia].
    + intros Hnd s Hs. rewrite subnet_run.
      replace (subnet_cache (set_subnet_cache _ c)) with
        (foldl (fun m x => <[subnet_id x := x]> m) (subnet_cache c)
           (take (S n) (fst (net_subnets K kw (remote c)))))
        by (by destruct c).
      by rewrite foldl_insert_lookup.
  - intros kw n. cbv zeta. rewrite security_groups_consumed. cbn [fst snd].
    split; [done|]. split.
    + intros Hall. destruct (decide (S n <= _)) as [|Hlt]; [done|].
      destruct Hall as [Hle|Hnone]; [lia|].
      rewrite Hnone, take_ge; [done|lia].
    + intros Hnd s Hs. rewrite security_group_run.
      replace (security_group_cache (set_security_group_cache _ c)) with
        (foldl (fun m x => <[res_id x := x]> m) (security_group_cache c)
           (take (S n) (fst (net_security_groups K kw (remote c)))))
        by (by destruct c).
      by rewrite foldl_insert_lookup.
Qed.
End Seeding.

Lemma listings_seed_the_cache_witness :
  let c := Sim.connect Sample.cloud in
  let run :=
    take_from (subnets_next Sim.service) 2 (subnets [("name", "sub")]) c in
  let groups :=
    take_from (security_groups_next Sim.service) 2
      (security_groups [("name", "default")]) c in
  (fst (fst run) = Ok [Sample.sub_a; Sample.sub_b] /\
   subnet Sim.service "s2" (snd (fst run))
   = (Ok Sample.sub_b, snd (fst run), []) /\
   snd (subnet Sim.service "s2" c) = [Call (GetSubnet "s2")]) /\
  (fst (fst groups) = Ok [Sample.sg_a; Sample.sg_b] /\
   snd groups = [Call (SecurityGroups [("name", "default")])] /\
   security_group Sim.service "sg1" (snd (fst groups))
   = (Ok Sample.sg_a, snd (fst groups), []) /\
   snd (security_group Sim.service "sg1" c) = [Call (GetSecurityGroup "sg1")]).
Proof.
  intros c run groups.
  destruct (listings_seed_the_cache Sim.service c (snd (fst run)) (snd run))
    as (_ & _ & Hseed & _ & _ & Hlisted).
  split.
  - split; [vm_compute; reflexivity|split; [|vm_compute; reflexivity]].
    apply (Hseed [("name", "sub")] 2 [Sample.sub_a; Sample.sub_b]
             ltac:(vm_compute; reflexivity)
             ltac:(apply (bool_decide_unpack _); vm_compute; reflexivity)
             Sample.sub_b).
    right. left.
  - destruct (Hlisted [("name", "default")] 1) as (Hcall & Hxs & Hget).
    split; [|split; [exact Hcall|split; [|vm_compute; reflexivity]]].
    + etrans; [apply Hxs; left; vm_compute; lia|].
      vm_compute. reflexivity.
    + apply (Hget ltac:(apply (bool_decide_unpack _); vm_compute; reflexivity)
               Sample.sg_a).
      vm_compute. left.
Defined.

(** ** ensure_group *)

Section EnsureGroup.
Context {R : Type} (K : sdk R).

Lemma find_group_run name (c : client R) :
  find_group K name c =
    (match groups_find K name (remote c) with
     | Ok g => Ok (Some g)
     | Raise NotFound => Ok None
     | Raise e => Raise e
     end, c, [Call (GroupsFind name)]).
Proof.
  unfold find_group, except_not_found, bind, on_remote, request, ret.
  destruct c as [r rc sc gc]; simpl.
  by destruct (groups_find K name r) as [g|[]].
Qed.

Lemma ensure_group_run name (c : client R) :
  ensure_group K name c =
    match groups_find K name (remote c) with
    | Ok g =>
        (Ok g, c,
         [Call (GroupsFind name);
          Log Info (FoundGroup (res_name g) (res_id g))])
    | Raise NotFound =>
        match groups_create K name (remote c) with
        | (Ok g, r') =>
            (Ok g, set_remote r' c,
             [Call (GroupsFind name); Call (GroupsCreate name);
              Log Info (CreatedGroup (res_name g) (res_id g))])
        | (Raise e, r') =>
            (Raise e, set_remote r' c,
             [Call (GroupsFind name); Call (GroupsCreate name)])
        end
    | Raise e => (Raise e, c, [Call (GroupsFind name)])
    end.
Proof.
  unfold ensure_group, bind. rewrite find_group_run.
  destruct (groups_find K name (remote c)) as [g|[]]; try done.
  unfold on_remote, command, log, emit.
  by destruct (groups_create K name (remote c)) as [[g|e] r'].
Qed.

(** C4: when [groups.find] finds a group of the name, [ensure_group]
    returns it and makes no other call; it calls [groups.create] only when
    [groups.find] raised [NotFound], once, for that name; and, on a service
    where a group that was just created is found by its name, a second
    [ensure_group] with the same name creates nothing, changes nothing, and
    returns the group the first one returned. *)
Theorem ensure_group_idempotent name (c : client R) :
  (forall r g r',
      groups_find K name r = Raise NotFound ->
      groups_create K name r = (Ok g, r') ->
      groups_find K name r' = Ok g) ->
  (forall g,
      groups_find K name (remote c) = Ok g ->
      ensure_group K name c
      = (Ok g, c,
         [Call (GroupsFind name);
          Log Info (FoundGroup (res_name g) (res_id g))])) /\
  (forall n,
      GroupsCreate n ∈ calls_of (snd (ensure_group K name c)) ->
      n = name /\
      groups_find K name (remote c) = Raise NotFound /\
      times (GroupsCreate n) (snd (ensure_group K name c)) = 1) /\
  (groups_find K name (remote c) = Raise NotFound ->
   calls_of (snd (ensure_group K name c))
   = [GroupsFind name; GroupsCreate name]) /\
  (forall g c1 t1,
      ensure_group K name c = (Ok g, c1, t1) ->
      ensure_group K name c1
      = (Ok g, c1,
         [Call (GroupsFind name);
          Log Info (FoundGroup (res_name g) (res_id g))])).
Proof.
  intros Hlaw. split; [|split; [|split]].
  - intros g Hfind. by rewrite ensure_group_run, Hfind.
  - intros n. rewrite ensure_group_run.
    destruct (groups_find K name (remote c)) as [g|[]] eqn:Hfind; simpl;
      try (by intros ?%list_elem_of_singleton).
    destruct (groups_create K name (remote c)) as [[g1|e] r']; simpl;
      intros Hin; apply elem_of_cons in Hin as [Heq|Hin]; try done;
      apply list_elem_of_singleton in Hin; injection Hin as ->;
      repeat split; unfold times; simpl; rewrite !filter_cons;
      by repeat case_decide.
  - intros Hfind. rewrite ensure_group_run, Hfind.
    by destruct (groups_create K name (remote c)) as [[g1|e] r'].
  - intros g c1 t1. rewrite ensure_group_run.
    destruct (groups_find K name (remote c)) as [g0|[]] eqn:Hfind;
      try discriminate.
    + intros [= <- <- _]. by rewrite ensure_group_run, Hfind.
    + destruct (groups_create K name (remote c)) as [[g1|e] r'] eqn:Hcreate;
        intros [= <- <- _].
      rewrite ensure_group_run. destruct c as [r rc sc gc]; simpl in *.
      by rewrite (Hlaw _ _ _ Hfind Hcreate).
Qed.
End EnsureGroup.

(** The simulated service finds a group it has just created. *)
Lemma sim_created_group_is_found name r g r' :
  groups_find Sim.service name r = Raise NotFound ->
  groups_create Sim.service name r = (Ok g, r') ->
  groups_find Sim.service name r' = Ok g.
Proof.
  simpl. unfold Sim.find_by_name. intros Hnone [= <- <-]. simpl.
  rewrite filter_app.
  destruct (filter _ (Sim.groups r)) as [|x [|y l]]; [|done..].
  simpl. rewrite filter_cons, decide_True by done. done.
Qed.

Lemma ensure_group_idempotent_witness :
  let c := Sim.connect Sample.cloud in
  let ops := Resource "group-ops" "ops" in
  fst (fst (ensure_group Sim.service "ops" c)) = Ok ops /\
  calls_of (snd (ensure_group Sim.service "ops" c))
  = [GroupsFind "ops"; GroupsCreate "ops"] /\
  ensure_group Sim.service "ops" (snd (fst (ensure_group Sim.service "ops" c)))
  = (Ok ops, snd (fst (ensure_group Sim.service "ops" c)),
     [Call (GroupsFind "ops"); Log Info (FoundGroup "ops" "group-ops")]).
Proof.
  intros c ops.
  destruct (ensure_group_idempotent Sim.service "ops" c
              (sim_created_group_is_found "ops"))
    as (_ & _ & Hcalls & Hagain).
  split; [vm_compute; reflexivity|split].
  - apply Hcalls. vm_compute. reflexivity.
  - apply (Hagain ops _ (snd (ensure_group Sim.service "ops" c))).
    vm_compute. reflexivity.
Defined.

(** ** ensure_user *)

Section EnsureUser.
Context {R : Type} (K : sdk R).

Lemma _find_user_run email (c : client R) :
  _find_user K email c =
    (match users_find K email (remote c) with
     | Ok k => Ok (Some k)
     | Raise NotFound => Ok None
     | Raise e => Raise e
     end, c, [Call (UsersFind email)]).
Proof.
  unfold _find_user, except_not_found, bind, on_remote, request, ret.
  destruct c as [r rc sc gc]; simpl.
  by destruct (users_find K email r) as [k|[]].
Qed.

Lemma ensure_user_run u default_project (c : client R) :
  ensure_user K u default_project c =
    match User.user u with
    | Some k => (Ok (k, u), c, [])
    | None =>
        match users_find K (User.email u) (remote c) with
        | Ok k =>
            (Ok (k, resolved u k), c,
             [Call (UsersFind (User.email u));
              Log Info (FoundLocalUser (res_name k) (res_id k))])
        | Raise NotFound =>
            match
              users_create K (User.email u) (User.email u) (User.name u)
                default_project (remote c)
            with
            | (Ok k, r') =>
                (Ok (k, resolved u k), set_remote r' c,
                 [Call (UsersFind (User.email u));
                  Call (UsersCreate (User.email u) (User.email u)
                          (User.name u) default_project);
                  Log Info (CreatedLocalUser (res_name k) (res_id k))])
            | (Raise e, r') =>
                (Raise e, set_remote r' c,
                 [Call (UsersFind (User.email u));
                  Call (UsersCreate (User.email u) (User.email u)
                          (User.name u) default_project)])
            end
        | Raise e => (Raise e, c, [Call (UsersFind (User.email u))])
        end
    end.
Proof.
  unfold ensure_user. destruct (User.user u) as [k|]; [done|].
  unfold find_user, bind. rewrite _find_user_run.
  destruct (users_find K (User.email u) (remote c)) as [k|[]]; try done.
  simpl. unfold on_remote, command, log, emit.
  by destruct (users_create K _ _ _ _ (remote c)) as [[k|e] r'].
Qed.

(** C5: a [p9admin.User] whose [user] is set is returned as it is, with no
    event; otherwise [users.find] is asked for the name [user.email], and
    the user it finds is assigned to [user.user] and returned with no
    create; [users.create] is called only when that lookup raised
    [NotFound], once, with name and email [user.email], description
    [user.name] and the given default project, and what it returns is
    assigned and returned; whenever [ensure_user] returns, the value is the
    [user] attribute of the object after the call. *)
Theorem ensure_user_creates_if_missing u default_project (c : client R) :
  (forall k,
      User.user u = Some k ->
      ensure_user K u default_project c = (Ok (k, u), c, [])) /\
  (forall k,
      User.user u = None ->
      users_find K (User.email u) (remote c) = Ok k ->
      ensure_user K u default_project c
      = (Ok (k, resolved u k), c,
         [Call (UsersFind (User.email u));
          Log Info (FoundLocalUser (res_name k) (res_id k))])) /\
  (User.user u = None ->
   users_find K (User.email u) (remote c) = Raise NotFound ->
   calls_of (snd (ensure_user K u default_project c))
   = [UsersFind (User.email u);
      UsersCreate (User.email u) (User.email u) (User.name u)
        default_project] /\
   forall k r',
     users_create K (User.email u) (User.email u) (User.name u)
       default_project (remote c) = (Ok k, r') ->
     fst (ensure_user K u default_project c)
     = (Ok (k, resolved u k), set_remote r' c)) /\
  (forall n e d p,
      UsersCreate n e d p ∈ calls_of (snd (ensure_user K u default_project c))
      ->
      User.user u = None /\
      users_find K (User.email u) (remote c) = Raise NotFound /\
      UsersCreate n e d p
      = UsersCreate (User.email u) (User.email u) (User.name u)
          default_project) /\
  (forall k u' c' t,
      ensure_user K u default_project c = (Ok (k, u'), c', t) ->
      User.user u' = Some k /\
      User.name u' = User.name u /\ User.email u' = User.email u).
Proof.
  rewrite ensure_user_run. split; [|split; [|split; [|split]]].
  - by intros k ->.
  - by intros k -> ->.
  - intros -> ->.
    destruct (users_create K _ _ _ _ (remote c)) as [[k|e] r'];
      (split; [done|]); by intros k' r'' [= <- <-].
  - intros n e d p.
    destruct (User.user u) as [k|]; simpl; [by intros ?%elem_of_nil|].
    destruct (users_find K (User.email u) (remote c)) as [k|[]]; simpl;
      try (by intros ?%list_elem_of_singleton).
    destruct (users_create K _ _ _ _ (remote c)) as [[k|e'] r']; simpl;
      intros Hin; apply elem_of_cons in Hin as [Heq|Hin]; try done;
      apply list_elem_of_singleton in Hin; done.
  - intros k u' c' t.
    destruct (User.user u) as [k0|] eqn:Hu.
    { by intros [= <- <- _ _]. }
    destruct (users_find K (User.email u) (remote c)) as [k0|[]];
      try discriminate.
    { by intros [= <- <- _ _]. }
    destruct (users_create K _ _ _ _ (remote c)) as [[k0|e'] r'];
      try discriminate.
    by intros [= <- <- _ _].
Qed.
End EnsureUser.

Lemma ensure_user_creates_if_missing_witness :
  let c := Sim.connect Sample.cloud in
  let found := User.Make "Alice" "alice@example.com" None in
  ensure_user Sim.service found None c
  = (Ok (Sample.alice, resolved found Sample.alice), c,
     [Call (UsersFind "alice@example.com");
      Log Info (FoundLocalUser "alice@example.com" "u1")]) /\
  calls_of (snd (ensure_user Sim.service Sample.dana (Some Sample.proj) c))
  = [UsersFind "dana@example.com";
     UsersCreate "dana@example.com" "dana@example.com" "Dana"
       (Some Sample.proj)] /\
  ensure_user Sim.service (resolved found Sample.alice) None c
  = (Ok (Sample.alice, resolved found Sample.alice), c, []).
Proof.
  intros c found.
  destruct (ensure_user_creates_if_missing Sim.service found None c)
    as (_ & Hfound & _).
  destruct (ensure_user_creates_if_missing Sim.service Sample.dana
              (Some Sample.proj) c) as (_ & _ & Hmissing & _).
  destruct (ensure_user_creates_if_missing Sim.service
              (resolved found Sample.alice) None c) as (Hset & _).
  split; [|split].
  - apply (Hfound Sample.alice); vm_compute; reflexivity.
  - apply Hmissing; vm_compute; reflexivity.
  - apply (Hset Sample.alice). reflexivity.
Defined.

(** ** grant_project_access *)

Section Grant.
Context {R : Type} (K : sdk R).

Lemma grant_project_access_run project user group role_name (c : client R) :
  grant_project_access K project user group role_name c =
    match subject_of user group with
    | Raise e => (Raise e, c, [])
    | Ok s =>
        match role K role_name c with
        | (Raise e, c1, t1) => (Raise e, c1, t1)
        | (Ok ro, c1, t1) =>
            let check := Call (RolesCheck (res_id ro) user group project) in
            let grant := Call (RolesGrant (res_id ro) user group project) in
            let granted :=
              match
                roles_grant K (res_id ro) user group project (remote c1)
              with
              | (Ok _, r') =>
                  (Ok tt, set_remote r' c1,
                   t1 ++ [check; grant;
                          Log Info (GrantedAccess s (res_name project)
                                      (res_name ro) (res_id ro))])
              | (Raise e, r') =>
                  (Raise e, set_remote r' c1, t1 ++ [check; grant])
              end in
            match
              roles_check K (res_id ro) user group project (remote c1)
            with
            | Ok true =>
                (Ok tt, c1,
                 t1 ++ [check;
                        Log Info (FoundAccess s (res_name project)
                                    (res_name ro) (res_id ro))])
            | Ok false => granted
            | Raise NotFound => granted
            | Raise e => (Raise e, c1, t1 ++ [check])
            end
        end
    end.
Proof.
  unfold grant_project_access. unfold bind at 1, lift.
  destruct (subject_of user group) as [s|e]; [|done].
  unfold bind at 1. destruct (role K role_name c) as [[[ro|e] c1] t1]; [|done].
  unfold bind. rewrite check_role_assignment_run.
  unfold on_remote, command, log, emit.
  destruct (roles_check K (res_id ro) user group project (remote c1))
    as [[]|[]]; simpl; try done;
    by destruct (roles_grant K (res_id ro) user group project (remote c1))
      as [[[]|e] r'].
Qed.

Lemma role_ok role_name ro (c c1 : client R) t1 :
  role K role_name c = (Ok ro, c1, t1) ->
  role_cache c1 !! role_name = Some ro /\ remote c1 = remote c /\
  grants_of t1 = [].
Proof.
  rewrite role_run. destruct (role_cache c !! role_name) as [ro'|] eqn:Hc.
  - by intros [= <- <- <-].
  - destruct (roles_find K role_name (remote c)) as [ro'|e]; [|done].
    intros [= <- <- <-]. destruct c; simpl. by rewrite lookup_insert_eq.
Qed.

Lemma grants_of_app t1 t2 : grants_of (t1 ++ t2) = grants_of t1 ++ grants_of t2.
Proof. unfold grants_of. by rewrite calls_of_app, filter_app. Qed.

(** C6: once the role is resolved, [grant_project_access] calls
    [roles.grant] not at all when [check_role_assignment] returns [True]
    and exactly once, for this role, subject and project, when it returns
    [False]; in no case more than once.  On a service where
    [roles.check] succeeds after a successful [roles.grant] of the same
    assignment, a second call with the same arguments after a first that
    returned makes no [roles.grant] call and leaves the client and the
    service exactly as the first call left them. *)
Theorem grant_project_access_idempotent
    project user group role_name (c : client R) :
  (forall ro r r',
      roles_grant K ro user group project r = (Ok tt, r') ->
      roles_check K ro user group project r' = Ok true) ->
  (forall ro c1 t1,
      one_subject user group ->
      role K role_name c = (Ok ro, c1, t1) ->
      let assigned :=
        fst (fst (check_role_assignment K (res_id ro) user group project c1))
      in
      let t := snd (grant_project_access K project user group role_name c) in
      (assigned = Ok true -> grants_of t = []) /\
      (assigned = Ok false ->
       grants_of t = [RolesGrant (res_id ro) user group project])) /\
  length
    (grants_of (snd (grant_project_access K project user group role_name c)))
  <= 1 /\
  (forall c2 t2,
      grant_project_access K project user group role_name c = (Ok tt, c2, t2)
      ->
      exists t3,
        grant_project_access K project user group role_name c2
        = (Ok tt, c2, t3) /\
        grants_of t3 = []).
Proof.
  intros Hlaw. split; [|split].
  - intros ro c1 t1 [s Hs]%one_subject_ok Hrole. simpl.
    rewrite grant_project_access_run, Hs, Hrole, check_role_assignment_run.
    apply role_ok in Hrole as (_ & _ & Ht1). simpl.
    destruct (roles_check K (res_id ro) user group project (remote c1))
      as [[]|[]]; simpl.
    all: split; intros Ha; try discriminate Ha.
    all: try destruct (roles_grant K _ _ _ _ (remote c1)) as [[[]|e] r'].
    all: simpl; by rewrite grants_of_app, Ht1.
  - rewrite grant_project_access_run.
    destruct (subject_of user group) as [s|e]; [|simpl; lia].
    destruct (role K role_name c) as [[[ro|e] c1] t1] eqn:Hrole.
    + apply role_ok in Hrole as (_ & _ & Ht1). simpl.
      destruct (roles_check K (res_id ro) user group project (remote c1))
        as [[]|[]];
        try destruct (roles_grant K _ _ _ _ (remote c1)) as [[[]|e] r'];
        simpl; rewrite grants_of_app, Ht1; simpl; lia.
    + rewrite role_run in Hrole.
      destruct (role_cache c !! role_name); [done|].
      destruct (roles_find K role_name (remote c)); [done|].
      injection Hrole as _ _ <-. simpl. lia.
  - intros c2 t2. rewrite grant_project_access_run.
    destruct (subject_of user group) as [s|e] eqn:Hs; [|done].
    destruct (role K role_name c) as [[[ro|e] c1] t1] eqn:Hrole; [|done].
    apply role_ok in Hrole as (Hcache & Hremote & _). simpl.
    assert (Hagain : forall c',
      role_cache c' = role_cache c1 ->
      roles_check K (res_id ro) user group project (remote c') = Ok true ->
      exists t3,
        grant_project_access K project user group role_name c'
        = (Ok tt, c', t3) /\ grants_of t3 = []).
    { intros c' Hc' Hcheck. eexists.
      rewrite grant_project_access_run, Hs, role_run, Hc', Hcache.
      simpl. rewrite Hcheck. split; [reflexivity|done]. }
    destruct (roles_check K (res_id ro) user group project (remote c1))
      as [[]|[]] eqn:Hcheck; try done.
    + intros [= <- _]. by apply Hagain.
    + destruct (roles_grant K _ _ _ _ (remote c1)) as [[[]|e] r'] eqn:Hgrant;
        [|done].
      intros [= <- _]. apply Hagain; [by destruct c1|].
      destruct c1; simpl in *. by eapply Hlaw.
    + destruct (roles_grant K _ _ _ _ (remote c1)) as [[[]|e] r'] eqn:Hgrant;
        [|done].
      intros [= <- _]. apply Hagain; [by destruct c1|].
      destruct c1; simpl in *. by eapply Hlaw.
Qed.
End Grant.

(** On the simulated service a granted assignment is there. *)
Lemma sim_granted_is_checked ro user group project r r' :
  roles_grant Sim.service ro user group project r = (Ok tt, r') ->
  roles_check Sim.service ro user group project r' = Ok true.
Proof.
  simpl. intros [= <-]. simpl. rewrite decide_True; [done|].
  apply elem_of_union_l. by apply elem_of_singleton.
Qed.

Lemma grant_project_access_idempotent_witness :
  let c := Sim.connect Sample.cloud in
  let once :=
    grant_project_access Sim.service Sample.proj (Some Sample.alice) None
      "_member_" c in
  grants_of (snd once) = [RolesGrant "r1" (Some Sample.alice) None Sample.proj]
  /\ exists t3,
       grant_project_access Sim.service Sample.proj (Some Sample.alice) None
         "_member_" (snd (fst once))
       = (Ok tt, snd (fst once), t3) /\ grants_of t3 = [].
Proof.
  intros c once.
  destruct (grant_project_access_idempotent Sim.service Sample.proj
              (Some Sample.alice) None "_member_" c
              (fun ro =>
                 sim_granted_is_checked ro (Some Sample.alice) None
                   Sample.proj))
    as (Hcalls & _ & Hagain).
  split.
  - apply (Hcalls Sample.member
             (snd (fst (role Sim.service "_member_" c)))
             (snd (role Sim.service "_member_" c))).
    + right. split; [discriminate | reflexivity].
    + vm_compute. reflexivity.
    + vm_compute. reflexivity.
  - apply (Hagain _ (snd once)). vm_compute. reflexivity.
Defined.

(** ** ensure_group_members *)

Lemma count_in_image {A} (f : A -> call) `{!Inj (=) (=) f} (l : list A)
    `{EqDecision A} (x : A) :
  NoDup l ->
  length (filter (fun c => c = f x) (f <$> l))
  = if decide (x ∈ l) then 1 else 0.
Proof.
  induction 1 as [|y l Hy Hnd IH]; [done|].
  rewrite fmap_cons, filter_cons.
  destruct (decide (f y = f x)) as [Heq|Hne].
  - apply (inj f) in Heq as ->. rewrite length_cons, IH.
    rewrite decide_False by done. rewrite decide_True by left. done.
  - rewrite IH. destruct (decide (x ∈ l)) as [Hin|Hin].
    + rewrite decide_True by (by right). done.
    + rewrite decide_False; [done|].
      intros [->|?]%elem_of_cons; done.
Qed.

Lemma count_not_in_image {A} (f : A -> call) (l : list A) (c : call) :
  (forall x, f x <> c) ->
  length (filter (fun c' => c' = c) (f <$> l)) = 0.
Proof.
  intros Hf. induction l as [|y l IH]; [done|].
  rewrite fmap_cons, filter_cons, decide_False by apply Hf. done.
Qed.

Lemma union_step (uid : string) (l : list string) (X : gset string) :
  list_to_set l ∪ ({[uid]} ∪ X) = list_to_set (uid :: l) ∪ X.
Proof.
  apply set_eq. intros x.
  rewrite !elem_of_union, !elem_of_list_to_set, elem_of_cons,
    elem_of_singleton.
  tauto.
Qed.

Lemma difference_step (uid : string) (l : list string) (X : gset string) :
  (X ∖ {[uid]}) ∖ list_to_set l = X ∖ list_to_set (uid :: l).
Proof.
  apply set_eq. intros x.
  rewrite !elem_of_difference, !elem_of_list_to_set, elem_of_cons,
    elem_of_singleton.
  tauto.
Qed.

Lemma union_nil (X : gset string) : list_to_set [] ∪ X = X.
Proof. rewrite list_to_set_nil. apply (left_id_L ∅ (∪)). Qed.

Lemma difference_nil (X : gset string) : X = X ∖ list_to_set [].
Proof.
  apply set_eq. intros x.
  rewrite elem_of_difference, elem_of_list_to_set, elem_of_nil. tauto.
Qed.

Lemma reconciled (existing ensure : gset string) :
  ((ensure ∖ existing) ∪ existing) ∖ (existing ∖ ensure) = ensure.
Proof.
  apply set_eq. intros x.
  rewrite !elem_of_difference, elem_of_union, elem_of_difference.
  destruct (decide (x ∈ existing)), (decide (x ∈ ensure)); tauto.
Qed.

Lemma extended (existing ensure : gset string) :
  ((ensure ∖ existing) ∪ existing) ∖ ∅ = existing ∪ ensure.
Proof.
  apply set_eq. intros x.
  rewrite elem_of_difference, !elem_of_union, elem_of_difference,
    elem_of_empty.
  destruct (decide (x ∈ existing)); tauto.
Qed.

#[global] Instance add_call_inj group :
  Inj (=) (=) (fun uid => UsersAddToGroup uid group).
Proof. by intros x y [= ->]. Qed.

#[global] Instance remove_call_inj group :
  Inj (=) (=) (fun uid => UsersRemoveFromGroup uid group).
Proof. by intros x y [= ->]. Qed.

Lemma count_adds group (l : list string) uid :
  NoDup l ->
  length (filter (fun c => c = UsersAddToGroup uid group)
            ((fun u => UsersAddToGroup u group) <$> l))
  = if decide (uid ∈ l) then 1 else 0.
Proof. apply (count_in_image (fun u => UsersAddToGroup u group)). Qed.

Lemma count_removes group (l : list string) uid :
  NoDup l ->
  length (filter (fun c => c = UsersRemoveFromGroup uid group)
            ((fun u => UsersRemoveFromGroup u group) <$> l))
  = if decide (uid ∈ l) then 1 else 0.
Proof. apply (count_in_image (fun u => UsersRemoveFromGroup u group)). Qed.

(** ** Iterating over a set *)

Section Orders.
Context `{!SetOrder}.

Lemma elem_of_iterate (x : string) (X : gset string) :
  x ∈ iterate X <-> x ∈ X.
Proof. rewrite (iterate_perm X). apply elem_of_elements. Qed.

Lemma NoDup_iterate (X : gset string) : NoDup (iterate X).
Proof. rewrite (iterate_perm X). apply NoDup_elements. Qed.

Lemma list_to_set_iterate (X : gset string) :
  list_to_set (iterate X) = X.
Proof.
  apply set_eq. intros x. rewrite elem_of_list_to_set.
  apply elem_of_iterate.
Qed.

Lemma iterate_empty : iterate ∅ = [].
Proof.
  apply Permutation_nil_r. by rewrite (iterate_perm ∅), elements_empty.
Qed.
End Orders.

Lemma times_absent (c : call) (t : list event) :
  c ∉ calls_of t -> times c t = 0.
Proof.
  unfold times. induction (calls_of t) as [|x l IH]; [done|].
  intros Hnot. rewrite filter_cons, decide_False.
  - apply IH. intros ?. apply Hnot. by right.
  - intros ->. apply Hnot. by left.
Qed.

(** ** The loops of ensure_group_members, whatever their outcome *)

Section Loops.
Context {R : Type}.

Lemma on_remote_request {A} (call : call) (f : R -> outcome A)
    (c : client R) :
  on_remote (request call f) c = (f (remote c), c, [Call call]).
Proof. by destruct c. Qed.

(** A loop whose body is one remote command and one log record: its remote
    calls are the commands of the elements it reached, all of them when it
    ends normally. *)
Lemma command_loop_calls {A} (f : A -> call) (g : A -> R -> outcome unit * R)
    (m : A -> message) l (c c' : client R) o t :
  for_each l
    (fun x => bind (on_remote (command (f x) (g x)))
                (fun _ => log Debug (m x))) c
  = (o, c', t) ->
  calls_of t `prefix_of` (f <$> l) /\
  (o = Ok tt -> calls_of t = f <$> l).
Proof.
  revert c o t. induction l as [|x l IH]; intros c o t; cbn [for_each].
  - intros [= <- <- <-]. split; [done|done].
  - unfold bind at 1.
    destruct (bind (on_remote (command (f x) (g x))) _ c)
      as [[[[]|e] c1] t1] eqn:Hbody.
    + destruct (for_each l _ c1) as [[o2 c2] t2] eqn:Hrest.
      intros [= <- <- <-]. apply IH in Hrest as [Hpre Hall].
      unfold bind, on_remote, command, log, emit in Hbody.
      destruct (g x (remote c)) as [[[]|e] r']; [|done].
      injection Hbody as _ <-. rewrite calls_of_app, fmap_cons. simpl.
      split.
      * by apply prefix_cons.
      * intros Ho. by rewrite Hall.
    + intros [= <- <- <-].
      unfold bind, on_remote, command, log, emit in Hbody.
      destruct (g x (remote c)) as [[[]|e'] r']; [done|].
      injection Hbody as _ _ <-. split; [|done].
      rewrite fmap_cons. apply prefix_cons, prefix_nil.
Qed.

Lemma log_loop_calls {A} (m : A -> message) l (c : client R) :
  exists t,
    for_each l (fun x => log Debug (m x)) c = (Ok tt, c, t) /\
    calls_of t = [].
Proof.
  induction l as [|x l (t & IH & Ht)]; cbn [for_each]; [by eexists|].
  eexists. unfold bind at 1, log at 1, emit. rewrite IH. split; [done|].
  simpl. exact Ht.
Qed.
End Loops.

Section MembershipCalls.
Context {R : Type} (K : sdk R) `{!SetOrder}.

Lemma ensure_group_members_list_raises
    group ensure_users keep_others (c : client R) e :
  users_list K group (remote c) = Raise e ->
  ensure_group_members K group ensure_users keep_others c
  = (Raise e, c, [Call (UsersList group)]).
Proof.
  intros He. unfold ensure_group_members, bind.
  by rewrite on_remote_request, He.
Qed.

Lemma ensure_group_members_calls
    group ensure_users keep_others (c c' : client R) l o t :
  users_list K group (remote c) = Ok l ->
  ensure_group_members K group ensure_users keep_others c = (o, c', t) ->
  calls_of t
    `prefix_of` membership_plan group keep_others (ids l) (ids ensure_users) /\
  (o = Ok tt ->
   calls_of t = membership_plan group keep_others (ids l) (ids ensure_users)).
Proof.
  intros Hl. unfold ensure_group_members, membership_plan. unfold bind at 1.
  rewrite on_remote_request, Hl. unfold bind at 1.
  destruct (for_each (iterate (to_add _ _)) _ c) as [[[[]|e] c1] t1]
    eqn:Hadd;
    apply command_loop_calls in Hadd as [Hpre1 Hall1].
  2:{ intros [= <- <- <-]. simpl. split; [|done]. apply prefix_cons.
      by apply prefix_app_r. }
  specialize (Hall1 eq_refl). unfold bind at 1.
  destruct (for_each (iterate (to_delete _ _ _)) _ c1)
    as [[[[]|e] c2] t2] eqn:Hrem;
    apply command_loop_calls in Hrem as [Hpre2 Hall2].
  2:{ intros [= <- <- <-]. simpl. rewrite calls_of_app, Hall1.
      split; [|done]. apply prefix_cons. by apply prefix_app. }
  specialize (Hall2 eq_refl). unfold bind at 1.
  destruct (log_loop_calls
              (fun user_id =>
                 LeavingUser user_id (res_name group) (res_id group))
              (iterate (unchanged keep_others (ids l)
                          (ids ensure_users))) c2)
    as (t3 & -> & Ht3).
  unfold log, emit. intros [= <- <- <-]. simpl.
  rewrite !calls_of_app, Hall1, Hall2, Ht3. simpl.
  rewrite app_nil_r. done.
Qed.
End MembershipCalls.

Section Membership.
Context {R : Type} (K : sdk R) (group : resource) `{!SetOrder}.

(** What the service is taken to do: [member_ids r] is the set of ids of
    the members of [group] in the state [r]; [users.list] returns users
    with these ids, a successful [add_to_group] adds one id and a
    successful [remove_from_group] removes one. *)
Variable member_ids : R -> gset string.
Hypothesis listed :
  forall r l, users_list K group r = Ok l -> ids l = member_ids r.
Hypothesis added :
  forall uid r r',
    users_add_to_group K uid group r = (Ok tt, r') ->
    member_ids r' = {[uid]} ∪ member_ids r.
Hypothesis removed :
  forall uid r r',
    users_remove_from_group K uid group r = (Ok tt, r') ->
    member_ids r' = member_ids r ∖ {[uid]}.

Local Abbreviation add_body := (fun user_id : string =>
  bind
    (on_remote (command (UsersAddToGroup user_id group)
                  (users_add_to_group K user_id group)))
    (fun _ => log Debug (AddedUser user_id (res_name group) (res_id group)))).

Local Abbreviation remove_body := (fun user_id : string =>
  bind
    (on_remote (command (UsersRemoveFromGroup user_id group)
                  (users_remove_from_group K user_id group)))
    (fun _ =>
       log Debug (DeletedUser user_id (res_name group) (res_id group)))).

Local Abbreviation leave_body := (fun user_id : string =>
  log Debug (LeavingUser user_id (res_name group) (res_id group))).

Lemma add_body_run uid (c : client R) :
  add_body uid c =
    match users_add_to_group K uid group (remote c) with
    | (Ok _, r') =>
        (Ok tt, set_remote r' c,
         [Call (UsersAddToGroup uid group);
          Log Debug (AddedUser uid (res_name group) (res_id group))])
    | (Raise e, r') =>
        (Raise e, set_remote r' c, [Call (UsersAddToGroup uid group)])
    end.
Proof.
  unfold bind, on_remote, command, log, emit.
  by destruct (users_add_to_group K uid group (remote c)) as [[[]|e] r'].
Qed.

Lemma remove_body_run uid (c : client R) :
  remove_body uid c =
    match users_remove_from_group K uid group (remote c) with
    | (Ok _, r') =>
        (Ok tt, set_remote r' c,
         [Call (UsersRemoveFromGroup uid group);
          Log Debug (DeletedUser uid (res_name group) (res_id group))])
    | (Raise e, r') =>
        (Raise e, set_remote r' c, [Call (UsersRemoveFromGroup uid group)])
    end.
Proof.
  unfold bind, on_remote, command, log, emit.
  by destruct (users_remove_from_group K uid group (remote c)) as [[[]|e] r'].
Qed.

Lemma add_loop l (c c' : client R) t :
  for_each l add_body c = (Ok tt, c', t) ->
  calls_of t = (fun uid => UsersAddToGroup uid group) <$> l /\
  member_ids (remote c') = list_to_set l ∪ member_ids (remote c).
Proof.
  revert c t. induction l as [|uid l IH]; intros c t; simpl.
  - intros [= <- <-]. split; [done|by rewrite union_nil].
  - intros ([] & c1 & t1 & t2 & Hbody & Hrest & ->)%bind_ok.
    rewrite add_body_run in Hbody.
    destruct (users_add_to_group K uid group (remote c)) as [[[]|e] r']
      eqn:Hadd; [|done].
    injection Hbody as <- <-. apply IH in Hrest as [Hcalls Hmem].
    split.
    + rewrite calls_of_app, Hcalls. done.
    + rewrite Hmem. destruct c; simpl in *.
      rewrite (added _ _ _ Hadd). apply union_step.
Qed.

(** The additions never take a member away, whatever their outcome, on a
    service whose failing [add_to_group] takes none away. *)
Lemma add_loop_keeps l (c c' : client R) o t :
  (forall uid r e r',
      users_add_to_group K uid group r = (Raise e, r') ->
      member_ids r ⊆ member_ids r') ->
  for_each l add_body c = (o, c', t) ->
  member_ids (remote c) ⊆ member_ids (remote c').
Proof.
  intros Hkeep. revert c o t.
  induction l as [|uid l IH]; intros c o t; cbn [for_each].
  - by intros [= <- <- <-].
  - unfold bind at 1.
    destruct (bind (on_remote (command (UsersAddToGroup uid group) _)) _ c)
      as [[o1 c1] t1] eqn:Hbody.
    rewrite add_body_run in Hbody.
    destruct (users_add_to_group K uid group (remote c)) as [[[]|e] r']
      eqn:Hadd; injection Hbody as <- <- <-.
    + destruct (for_each l _ (set_remote r' c)) as [[o2 c2] t2] eqn:Hrest.
      intros [= <- <- <-]. apply IH in Hrest.
      etrans; [|exact Hrest]. destruct c; simpl in *.
      rewrite (added _ _ _ Hadd). apply union_subseteq_r.
    + intros [= <- <- <-]. destruct c; simpl in *.
      exact (Hkeep _ _ _ _ Hadd).
Qed.

Lemma remove_loop l (c c' : client R) t :
  for_each l remove_body c = (Ok tt, c', t) ->
  calls_of t = (fun uid => UsersRemoveFromGroup uid group) <$> l /\
  member_ids (remote c') = member_ids (remote c) ∖ list_to_set l.
Proof.
  revert c t. induction l as [|uid l IH]; intros c t; simpl.
  - intros [= <- <-]. split; [done|apply difference_nil].
  - intros ([] & c1 & t1 & t2 & Hbody & Hrest & ->)%bind_ok.
    rewrite remove_body_run in Hbody.
    destruct (users_remove_from_group K uid group (remote c)) as [[[]|e] r']
      eqn:Hrem; [|done].
    injection Hbody as <- <-. apply IH in Hrest as [Hcalls Hmem].
    split.
    + rewrite calls_of_app, Hcalls. done.
    + rewrite Hmem. destruct c; simpl in *.
      rewrite (removed _ _ _ Hrem). apply difference_step.
Qed.

Lemma leave_loop l (c : client R) :
  exists t, for_each l leave_body c = (Ok tt, c, t) /\ calls_of t = [].
Proof.
  induction l as [|uid l [t [IH Ht]]]; simpl; [by eexists|].
  eexists. unfold bind at 1, log at 1, emit. rewrite IH. split; [done|].
  simpl. exact Ht.
Qed.

(** A run of [ensure_group_members] that returns: its remote calls, the
    membership it leaves, and the summary it logs last. *)
Lemma ensure_group_members_ok ensure_users keep_others (c c' : client R) t :
  ensure_group_members K group ensure_users keep_others c = (Ok tt, c', t) ->
  let existing := member_ids (remote c) in
  let ensure := ids ensure_users in
  calls_of t
  = UsersList group
    :: ((fun uid => UsersAddToGroup uid group)
          <$> iterate (to_add existing ensure))
    ++ ((fun uid => UsersRemoveFromGroup uid group)
          <$> iterate (to_delete keep_others existing ensure)) /\
  member_ids (remote c')
  = (to_add existing ensure ∪ existing)
      ∖ to_delete keep_others existing ensure /\
  last t
  = Some (Log Info
            (UpdatingGroup (res_name group) (res_id group)
               (size (to_add existing ensure))
               (size (to_delete keep_others existing ensure))
               (size (unchanged keep_others existing ensure)))).
Proof.
  unfold ensure_group_members.
  intros (l & c0 & t0 & t1 & Hlist & Hrun & ->)%bind_ok.
  rewrite on_remote_request in Hlist.
  injection Hlist as Hlist <- <-. rewrite (listed _ _ Hlist) in Hrun.
  apply bind_ok in Hrun as ([] & c1 & t2 & t3 & Hadd & Hrun & ->).
  apply bind_ok in Hrun as ([] & c2 & t4 & t5 & Hrem & Hrun & ->).
  apply bind_ok in Hrun as ([] & c3 & t6 & t7 & Hleave & Hlog & ->).
  injection Hlog as <- <-.
  apply add_loop in Hadd as [Hadds Hmem1].
  apply remove_loop in Hrem as [Hrems Hmem2].
  destruct (leave_loop
              (iterate (unchanged keep_others (member_ids (remote c))
                          (ids ensure_users))) c2)
    as (t' & Hleave' & Hnone).
  rewrite Hleave' in Hleave. injection Hleave as <- <-.
  cbv zeta. split; [|split].
  - rewrite !calls_of_app, Hadds, Hrems, Hnone. simpl.
    by rewrite app_nil_r.
  - simpl. by rewrite Hmem2, Hmem1, !list_to_set_iterate.
  - rewrite !app_assoc. by rewrite last_snoc.
Qed.

(** C1: a call with [keep_others=False] that returns has asked for the
    members once, has called [add_to_group] exactly once for each id of
    [ensure_users] that was not a member and for no other id or group, and
    [remove_from_group] exactly once for each member id that is not in
    [ensure_users] and for no other; the three sets are the two differences
    and the intersection, whose sizes the summary reports; and the members
    of the group are then the ids of [ensure_users].  This holds in
    whatever order the three sets are iterated. *)
Theorem ensure_group_members_reconciles ensure_users (c c' : client R) t :
  ensure_group_members K group ensure_users false c = (Ok tt, c', t) ->
  let existing := member_ids (remote c) in
  let ensure := ids ensure_users in
  (to_add existing ensure = ensure ∖ existing /\
   to_delete false existing ensure = existing ∖ ensure /\
   unchanged false existing ensure = ensure ∩ existing) /\
  (forall uid g,
      times (UsersAddToGroup uid g) t
      = if decide (g = group /\ uid ∈ ensure ∖ existing) then 1 else 0) /\
  (forall uid g,
      times (UsersRemoveFromGroup uid g) t
      = if decide (g = group /\ uid ∈ existing ∖ ensure) then 1 else 0) /\
  last t
  = Some (Log Info
            (UpdatingGroup (res_name group) (res_id group)
               (size (ensure ∖ existing)) (size (existing ∖ ensure))
               (size (ensure ∩ existing)))) /\
  member_ids (remote c') = ensure.
Proof.
  intros (Hcalls & Hmem & Hlast)%ensure_group_members_ok. simpl in *.
  unfold to_add, to_delete, unchanged in *.
  split; [done|]. split; [|split; [|split]].
  - intros uid g. unfold times. rewrite Hcalls, filter_cons.
    rewrite decide_False by done. rewrite filter_app, length_app.
    destruct (decide (g = group)) as [->|Hg].
    + rewrite count_adds by apply NoDup_iterate.
      rewrite (count_not_in_image _ _ (UsersAddToGroup uid group)) by done.
      rewrite Nat.add_0_r.
      destruct (decide (uid ∈ ids ensure_users ∖ member_ids (remote c))).
      * rewrite !decide_True; [done|done|by apply elem_of_iterate].
      * rewrite !decide_False; [done|by intros [_ ?]|
                                by rewrite elem_of_iterate].
    + rewrite !count_not_in_image by (intros x; congruence).
      rewrite decide_False; [done|by intros [? _]].
  - intros uid g. unfold times. rewrite Hcalls, filter_cons.
    rewrite decide_False by done. rewrite filter_app, length_app.
    destruct (decide (g = group)) as [->|Hg].
    + rewrite count_removes by apply NoDup_iterate.
      rewrite (count_not_in_image _ _ (UsersRemoveFromGroup uid group))
        by done.
      destruct (decide (uid ∈ member_ids (remote c) ∖ ids ensure_users)).
      * rewrite !decide_True; [done|done|by apply elem_of_iterate].
      * rewrite !decide_False; [done|by intros [_ ?]|
                                by rewrite elem_of_iterate].
    + rewrite !count_not_in_image by (intros x; congruence).
      rewrite decide_False; [done|by intros [? _]].
  - exact Hlast.
  - rewrite Hmem. apply reconciled.
Qed.

(** C2: a call with [keep_others=True], whatever its outcome (it returns,
    or [users.list] or an [add_to_group] raises and the exception leaves
    the method), has made no [remove_from_group] call: the set to delete
    is empty.  The client itself takes no member away: every previous
    member is still one afterwards, also when the call raised, on a service
    whose failing [add_to_group] takes none away.  A call that returns has
    called [add_to_group] once for each id of [ensure_users] that was not a
    member, and leaves as members of the group the previous members
    together with the ids of [ensure_users]. *)
Theorem ensure_group_members_keeps_others ensure_users (c : client R) :
  let run := ensure_group_members K group ensure_users true c in
  let existing := member_ids (remote c) in
  let ensure := ids ensure_users in
  let members' := member_ids (remote (snd (fst run))) in
  (to_delete true existing ensure = ∅ /\
   forall uid g, times (UsersRemoveFromGroup uid g) (snd run) = 0) /\
  ((forall uid r e r',
       users_add_to_group K uid group r = (Raise e, r') ->
       member_ids r ⊆ member_ids r') ->
   existing ⊆ members') /\
  (fst (fst run) = Ok tt ->
   (forall uid g,
       times (UsersAddToGroup uid g) (snd run)
       = if decide (g = group /\ uid ∈ ensure ∖ existing) then 1 else 0) /\
   existing ⊆ members' /\
   members' = existing ∪ ensure).
Proof.
  cbv zeta.
  destruct (ensure_group_members K group ensure_users true c)
    as [[o c'] t] eqn:Hrun.
  cbn [fst snd]. split; [split; [done|]|split].
  - intros uid g. apply times_absent. intros Hin.
    destruct (users_list K group (remote c)) as [l|e] eqn:Hl.
    + destruct (ensure_group_members_calls K _ _ _ _ _ _ _ _ Hl Hrun)
        as [[k Hk] _].
      assert (Hplan : UsersRemoveFromGroup uid g
                ∈ membership_plan group true (ids l) (ids ensure_users)).
      { rewrite Hk. apply elem_of_app. by left. }
      unfold membership_plan, to_delete in Hplan.
      rewrite iterate_empty, fmap_nil, app_nil_r in Hplan.
      apply elem_of_cons in Hplan as [?|Hplan]; [done|].
      by apply list_elem_of_fmap in Hplan as (x & ? & _).
    + rewrite (ensure_group_members_list_raises K _ _ _ _ _ Hl) in Hrun.
      injection Hrun as _ _ <-. simpl in Hin.
      by apply list_elem_of_singleton in Hin.
  - intros Hkeep. revert Hrun. unfold ensure_group_members.
    unfold bind at 1. rewrite on_remote_request.
    destruct (users_list K group (remote c)) as [l|e] eqn:Hl;
      [|by intros [= <- <- <-]].
    unfold bind at 1.
    destruct (for_each (iterate (to_add _ _)) _ c) as [[[[]|e] c1] t1]
      eqn:Hadd; apply (add_loop_keeps _ _ _ _ _ Hkeep) in Hadd.
    2:{ by intros [= <- <- <-]. }
    unfold to_delete. rewrite iterate_empty. cbn [for_each].
    unfold bind at 1, ret. unfold bind at 1.
    destruct (leave_loop
                (iterate (unchanged true (ids l) (ids ensure_users))) c1)
      as (t3 & -> & _).
    unfold log, emit. by intros [= <- <- <-].
  - intros ->.
    apply ensure_group_members_ok in Hrun as (Hcalls & Hmem & Hlast).
    simpl in *. unfold to_add, to_delete, unchanged in *.
    rewrite extended in Hmem. rewrite iterate_empty, app_nil_r in Hcalls.
    split; [|split].
    + intros uid g. unfold times. rewrite Hcalls, filter_cons.
      rewrite decide_False by done.
      destruct (decide (g = group)) as [->|Hg].
      * rewrite count_adds by apply NoDup_iterate.
        destruct (decide (uid ∈ ids ensure_users ∖ member_ids (remote c))).
        -- rewrite !decide_True; [done|done|by apply elem_of_iterate].
        -- rewrite !decide_False; [done|by intros [_ ?]|
                                   by rewrite elem_of_iterate].
      * rewrite !count_not_in_image by (intros x; congruence).
        rewrite decide_False; [done|by intros [? _]].
    + rewrite Hmem. apply union_subseteq_l.
    + exact Hmem.
Qed.
End Membership.

(** The simulated service keeps group membership as the hypotheses of
    [Membership] say. *)
Lemma sim_user_of_id r id : res_id (Sim.user_of_id r id) = id.
Proof.
  unfold Sim.user_of_id.
  destruct (list_find _ (Sim.users r)) as [[i u]|] eqn:Hfind; [|done].
  by apply list_find_Some in Hfind as (_ & Hid & _).
Qed.

Lemma sim_listed group r l :
  users_list Sim.service group r = Ok l -> ids l = Sim.member_ids r group.
Proof.
  simpl. intros [= <-]. unfold ids. rewrite <- list_fmap_compose.
  rewrite (list_fmap_ext _ id (elements (Sim.member_ids r group)))
    by (intros i x _; apply sim_user_of_id).
  rewrite list_fmap_id. apply list_to_set_elements_L.
Qed.

Lemma sim_added group uid r r' :
  users_add_to_group Sim.service uid group r = (Ok tt, r') ->
  Sim.member_ids r' group = {[uid]} ∪ Sim.member_ids r group.
Proof.
  simpl. case_decide; [|done]. intros [= <-].
  unfold Sim.member_ids at 1. simpl. by rewrite lookup_insert_eq.
Qed.

Lemma sim_removed group uid r r' :
  users_remove_from_group Sim.service uid group r = (Ok tt, r') ->
  Sim.member_ids r' group = Sim.member_ids r group ∖ {[uid]}.
Proof.
  simpl. case_decide; [|done]. intros [= <-].
  unfold Sim.member_ids at 1. simpl. by rewrite lookup_insert_eq.
Qed.

Lemma ensure_group_members_reconciles_witness :
  let c := Sim.connect Sample.cloud in
  let run :=
    ensure_group_members Sim.service Sample.devs [Sample.bob; Sample.carol]
      false c in
  fst (fst run) = Ok tt /\
  times (UsersAddToGroup "u3" Sample.devs) (snd run) = 1 /\
  times (UsersRemoveFromGroup "u1" Sample.devs) (snd run) = 1 /\
  times (UsersAddToGroup "u2" Sample.devs) (snd run) = 0 /\
  Sim.member_ids (remote (snd (fst run))) Sample.devs
  = ids [Sample.bob; Sample.carol].
Proof.
  intros c run.
  destruct (ensure_group_members_reconciles Sim.service Sample.devs
              (fun r => Sim.member_ids r Sample.devs)
              (sim_listed Sample.devs)
              (fun uid => sim_added Sample.devs uid)
              (fun uid => sim_removed Sample.devs uid)
              [Sample.bob; Sample.carol] c (snd (fst run)) (snd run))
    as (_ & Hadd & Hrem & _ & Hmem).
  { vm_compute. reflexivity. }
  split; [vm_compute; reflexivity|]. split; [|split; [|split]].
  - rewrite Hadd. vm_compute. reflexivity.
  - rewrite Hrem. vm_compute. reflexivity.
  - rewrite Hadd. vm_compute. reflexivity.
  - exact Hmem.
Defined.

Lemma sim_add_raise_keeps group uid r e r' :
  users_add_to_group Sim.service uid group r = (Raise e, r') ->
  Sim.member_ids r group ⊆ Sim.member_ids r' group.
Proof. simpl. case_decide; [done|]. by intros [= _ <-]. Qed.

Lemma ensure_group_members_keeps_others_witness :
  let c := Sim.connect Sample.cloud in
  let ghost := Resource "u9" "ghost@example.com" in
  let run :=
    ensure_group_members Sim.service Sample.devs [Sample.bob; Sample.carol]
      true c in
  let failed :=
    ensure_group_members Sim.service Sample.devs [ghost; Sample.carol]
      true c in
  (fst (fst run) = Ok tt /\
   times (UsersRemoveFromGroup "u1" Sample.devs) (snd run) = 0 /\
   Sim.member_ids Sample.cloud Sample.devs
   ⊆ Sim.member_ids (remote (snd (fst run))) Sample.devs /\
   Sim.member_ids (remote (snd (fst run))) Sample.devs
   = Sim.member_ids Sample.cloud Sample.devs
       ∪ ids [Sample.bob; Sample.carol]) /\
  (fst (fst failed) = Raise NotFound /\
   times (UsersRemoveFromGroup "u1" Sample.devs) (snd failed) = 0 /\
   Sim.member_ids Sample.cloud Sample.devs
   ⊆ Sim.member_ids (remote (snd (fst failed))) Sample.devs).
Proof.
  intros c ghost run failed. split.
  - destruct (ensure_group_members_keeps_others Sim.service Sample.devs
                (fun r => Sim.member_ids r Sample.devs)
                (sim_listed Sample.devs)
                (fun uid => sim_added Sample.devs uid)
                (fun uid => sim_removed Sample.devs uid)
                [Sample.bob; Sample.carol] c)
      as ((_ & Hrem) & _ & Hok).
    destruct Hok as (_ & Hsub & Hmem); [vm_compute; reflexivity|].
    split; [vm_compute; reflexivity|]. split; [apply Hrem|].
    split; [exact Hsub|exact Hmem].
  - destruct (ensure_group_members_keeps_others Sim.service Sample.devs
                (fun r => Sim.member_ids r Sample.devs)
                (sim_listed Sample.devs)
                (fun uid => sim_added Sample.devs uid)
                (fun uid => sim_removed Sample.devs uid)
                [ghost; Sample.carol] c)
      as ((_ & Hrem) & Hkeep & _).
    split; [vm_compute; reflexivity|]. split; [apply Hrem|].
    apply Hkeep. intros uid r e r'. apply sim_add_raise_keeps.
Defined.

(** ** memoize *)

Lemma call_seq_length {K V E S} (f : K -> M E S V) ks s :
  length (fst (fst (call_seq f ks s))) = length ks.
Proof.
  revert s. induction ks as [|k ks IH]; intros s; cbn [call_seq]; [done|].
  destruct (f k s) as [[o s1] t1]. specialize (IH s1).
  destruct (call_seq f ks s1) as [[os s2] t2]. simpl in *. by rewrite IH.
Qed.

Section UseFacts.
Context {A K V : Type} `{Countable K}.
Context {E W : Type}.
Variable key : A -> option K.
Implicit Types (obj : A -> M E W V) (cache : gmap K V).
Implicit Types (journal : list (A * outcome V)).
Implicit Types (us : list (use A V)).
Implicit Types (results : list (outcome (option V))).

(** One use of the wrapper of [spy obj], case by case. *)
Lemma use_step_spy obj u cache w journal :
  use_step key (spy obj) u (cache, (w, journal)) =
    match u with
    | Apply args =>
        match key args with
        | None => (Raise unhashable, (cache, (w, journal)), [])
        | Some k =>
            match cache !! k with
            | Some v => (Ok (Some v), (cache, (w, journal)), [])
            | None =>
                match obj args w with
                | (Ok v, w', t) =>
                    (Ok (Some v),
                     (<[k := v]> cache, (w', journal ++ [(args, Ok v)])), t)
                | (Raise e, w', t) =>
                    (Raise e,
                     (cache, (w', journal ++ [(args, Raise e)])), t)
                end
            end
        end
    | AddMemo args memo =>
        match key args with
        | Some k => (Ok None, (<[k := memo]> cache, (w, journal)), [])
        | None => (Raise unhashable, (cache, (w, journal)), [])
        end
    end.
Proof.
  destruct u as [args|args memo]; cbn [use_step]; [|done].
  unfold memoize_by, spy. destruct (key args) as [k|]; [|done].
  destruct (cache !! k); [done|].
  by destruct (obj args w) as [[[v|e] w'] t].
Qed.

(** What one use leaves in the cache. *)
Lemma use_step_cache obj u cache w journal r cache1 s1 t1 k :
  use_step key (spy obj) u (cache, (w, journal)) = (r, (cache1, s1), t1) ->
  cache1 !! k = note key k (cache !! k) (u, r).
Proof.
  rewrite use_step_spy. destruct u as [args|args memo]; cbn [note].
  - destruct (key args) as [k0|] eqn:Hkey.
    2:{ by intros [= <- <- _ _]. }
    destruct (cache !! k0) as [v0|] eqn:Hk0.
    { intros [= <- <- _ _]. case_decide as Hk; [|done].
      injection Hk as <-. by rewrite Hk0. }
    destruct (obj args w) as [[[v|e] w'] t]; intros [= <- <- _ _]; [|done].
    case_decide as Hk.
    + injection Hk as <-. by rewrite Hk0, lookup_insert_eq.
    + rewrite lookup_insert_ne; [done|]. by intros ->.
  - destruct (key args) as [k0|] eqn:Hkey; intros [= <- <- _ _]; [|done].
    case_decide as Hk.
    + injection Hk as <-. by rewrite lookup_insert_eq.
    + rewrite lookup_insert_ne; [done|]. by intros ->.
Qed.

Lemma use_seq_cons obj u us cache w journal :
  use_seq key (spy obj) (u :: us) (cache, (w, journal)) =
    match use_step key (spy obj) u (cache, (w, journal)) with
    | (r, s1, t1) =>
        match use_seq key (spy obj) us s1 with
        | (rs, s2, t2) => (r :: rs, s2, t1 ++ t2)
        end
    end.
Proof. done. Qed.

Lemma use_seq_cache obj us cache w journal results cache' s' t k :
  use_seq key (spy obj) us (cache, (w, journal)) = (results, (cache', s'), t) ->
  cache' !! k = stored key k (cache !! k) (zip us results).
Proof.
  revert cache w journal results t.
  induction us as [|u us IH]; intros cache w journal results t.
  - by intros [= <- <- _ _].
  - rewrite use_seq_cons.
    destruct (use_step key (spy obj) u (cache, (w, journal)))
      as [[r [cache1 [w1 journal1]]] t1] eqn:Hstep.
    destruct (use_seq key (spy obj) us _) as [[rs [c2 s2]] t2] eqn:Hrest.
    intros [= <- <- <- <-]. apply IH in Hrest.
    rewrite Hrest. unfold stored. cbn [zip zip_with foldl].
    by rewrite (use_step_cache _ _ _ _ _ _ _ _ _ k Hstep).
Qed.

(** What the calls return. *)
Lemma use_seq_values obj us cache w journal results s' t j args k v :
  use_seq key (spy obj) us (cache, (w, journal)) = (results, s', t) ->
  us !! j = Some (Apply args) -> key args = Some k ->
  stored key k (cache !! k) (take j (zip us results)) = Some v ->
  results !! j = Some (Ok (Some v)).
Proof.
  revert cache w journal results t j.
  induction us as [|u us IH]; intros cache w journal results t j; [done|].
  rewrite use_seq_cons.
  destruct (use_step key (spy obj) u (cache, (w, journal)))
    as [[r [cache1 [w1 journal1]]] t1] eqn:Hstep.
  destruct (use_seq key (spy obj) us _) as [[rs s2] t2] eqn:Hrest.
  intros [= <- <- <-]. destruct j as [|j]; simpl.
  - intros [= ->] Hkey Hcur. unfold stored in Hcur. simpl in Hcur.
    rewrite use_step_spy, Hkey, Hcur in Hstep. by injection Hstep as <-.
  - intros Hj Hkey Hcur. eapply IH; [exact Hrest|exact Hj|exact Hkey|].
    unfold stored in *. cbn [zip zip_with take foldl] in Hcur.
    by rewrite (use_step_cache _ _ _ _ _ _ _ _ _ k Hstep).
Qed.

Lemma use_seq_unhashable obj us cache w journal results s' t j args :
  use_seq key (spy obj) us (cache, (w, journal)) = (results, s', t) ->
  us !! j = Some (Apply args) -> key args = None ->
  results !! j = Some (Raise unhashable).
Proof.
  revert cache w journal results t j.
  induction us as [|u us IH]; intros cache w journal results t j; [done|].
  rewrite use_seq_cons.
  destruct (use_step key (spy obj) u (cache, (w, journal)))
    as [[r [cache1 [w1 journal1]]] t1] eqn:Hstep.
  destruct (use_seq key (spy obj) us _) as [[rs s2] t2] eqn:Hrest.
  intros [= <- <- <-]. destruct j as [|j]; simpl.
  - intros [= ->] Hkey. rewrite use_step_spy, Hkey in Hstep.
    by injection Hstep as <-.
  - intros Hj Hkey. eapply IH; [exact Hrest|exact Hj|exact Hkey].
Qed.

Lemma use_seq_add_memo obj us cache w journal results s' t j args memo k :
  use_seq key (spy obj) us (cache, (w, journal)) = (results, s', t) ->
  us !! j = Some (AddMemo args memo) -> key args = Some k ->
  results !! j = Some (Ok None).
Proof.
  revert cache w journal results t j.
  induction us as [|u us IH]; intros cache w journal results t j; [done|].
  rewrite use_seq_cons.
  destruct (use_step key (spy obj) u (cache, (w, journal)))
    as [[r [cache1 [w1 journal1]]] t1] eqn:Hstep.
  destruct (use_seq key (spy obj) us _) as [[rs s2] t2] eqn:Hrest.
  intros [= <- <- <-]. destruct j as [|j]; simpl.
  - intros [= ->] Hkey. rewrite use_step_spy, Hkey in Hstep.
    by injection Hstep as <-.
  - intros Hj Hkey. eapply IH; [exact Hrest|exact Hj|exact Hkey].
Qed.

(** The invocations of the wrapped function. *)
Lemma for_key_app k journal more :
  for_key key k (journal ++ more)
  = for_key key k journal ++ for_key key k more.
Proof. apply filter_app. Qed.

Lemma for_key_one k args (o : outcome V) :
  for_key key k [(args, o)]
  = if decide (key args = Some k) then [(args, o)] else [].
Proof.
  unfold for_key. rewrite filter_cons, filter_nil. simpl.
  by destruct (decide (key args = Some k)).
Qed.

Lemma use_seq_journal obj us cache w journal results cache' w' journal' t k :
  use_seq key (spy obj) us (cache, (w, journal))
  = (results, (cache', (w', journal')), t) ->
  for_key key k journal'
  = for_key key k journal
    ++ match cache !! k with
       | Some _ => []
       | None => due key k (zip us results)
       end.
Proof.
  revert cache w journal results t.
  induction us as [|u us IH]; intros cache w journal results t.
  - intros [= <- <- <- <- <-]. simpl.
    destruct (cache !! k); by rewrite app_nil_r.
  - rewrite use_seq_cons, use_step_spy.
    destruct u as [args|args memo].
    + destruct (key args) as [k0|] eqn:Hkey.
      2:{ destruct (use_seq key (spy obj) us _)
            as [[rs [c2 [w2 j2]]] t2] eqn:Hrest.
          intros [= <- <- <- <- <-]. apply IH in Hrest. rewrite Hrest.
          cbn [zip zip_with due]. rewrite Hkey.
          by rewrite decide_False by done. }
      destruct (cache !! k0) as [v0|] eqn:Hk0.
      { destruct (use_seq key (spy obj) us _)
          as [[rs [c2 [w2 j2]]] t2] eqn:Hrest.
        intros [= <- <- <- <- <-]. apply IH in Hrest. rewrite Hrest.
        cbn [zip zip_with due]. rewrite Hkey.
        destruct (decide (Some k0 = Some k)) as [[= ->]|Hne]; [|done].
        by rewrite Hk0. }
      destruct (obj args w) as [[[v|e] w1] t1].
      * destruct (use_seq key (spy obj) us _)
          as [[rs [c2 [w2 j2]]] t2] eqn:Hrest.
        intros [= <- <- <- <- <-]. apply IH in Hrest. rewrite Hrest.
        cbn [zip zip_with due]. rewrite for_key_app, for_key_one, Hkey.
        destruct (decide (Some k0 = Some k)) as [[= ->]|Hne].
        -- rewrite lookup_insert_eq, Hk0. by rewrite app_nil_r.
        -- rewrite lookup_insert_ne by (by intros ->).
           by rewrite app_nil_r.
      * destruct (use_seq key (spy obj) us _)
          as [[rs [c2 [w2 j2]]] t2] eqn:Hrest.
        intros [= <- <- <- <- <-]. apply IH in Hrest. rewrite Hrest.
        cbn [zip zip_with due]. rewrite for_key_app, for_key_one, Hkey.
        destruct (decide (Some k0 = Some k)) as [[= ->]|Hne].
        -- rewrite Hk0. by rewrite <- app_assoc.
        -- by rewrite app_nil_r.
    + destruct (key args) as [k0|] eqn:Hkey.
      * destruct (use_seq key (spy obj) us _)
          as [[rs [c2 [w2 j2]]] t2] eqn:Hrest.
        intros [= <- <- <- <- <-]. apply IH in Hrest. rewrite Hrest.
        cbn [zip zip_with due]. rewrite Hkey.
        destruct (decide (Some k0 = Some k)) as [[= ->]|Hne].
        -- rewrite lookup_insert_eq. by destruct (cache !! k).
        -- by rewrite lookup_insert_ne by (by intros ->).
      * destruct (use_seq key (spy obj) us _)
          as [[rs [c2 [w2 j2]]] t2] eqn:Hrest.
        intros [= <- <- <- <- <-]. apply IH in Hrest. by rewrite Hrest.
Qed.

Lemma use_seq_hashable obj us cache w journal results cache' w' journal' t p :
  use_seq key (spy obj) us (cache, (w, journal))
  = (results, (cache', (w', journal')), t) ->
  p ∈ journal' -> p ∈ journal \/ is_Some (key (fst p)).
Proof.
  revert cache w journal results t.
  induction us as [|u us IH]; intros cache w journal results t.
  - intros [= <- <- <- <- <-]. by left.
  - rewrite use_seq_cons.
    destruct (use_step key (spy obj) u (cache, (w, journal)))
      as [[r [cache1 [w1 journal1]]] t1] eqn:Hstep.
    destruct (use_seq key (spy obj) us _) as [[rs s2] t2] eqn:Hrest.
    intros [= <- -> <-] Hp.
    destruct (IH _ _ _ _ _ Hrest Hp) as [Hin|Hsome]; [|by right].
    rewrite use_step_spy in Hstep. destruct u as [args|args memo].
    + destruct (key args) as [k0|] eqn:Hkey.
      2:{ injection Hstep as _ _ _ <- _. by left. }
      destruct (cache !! k0).
      { injection Hstep as _ _ _ <- _. by left. }
      destruct (obj args w) as [[[v|e] w2] t3];
        injection Hstep as _ _ _ <- _;
        apply elem_of_app in Hin as [Hin|Hin%list_elem_of_singleton];
        try (by left); subst p; right; simpl; by rewrite Hkey.
    + destruct (key args); injection Hstep as _ _ _ <- _; by left.
Qed.

(** The invocations that are due for a key: none follows one that
    returned. *)
Lemma due_settled k hist before (p : A * outcome V) after :
  due key k hist = before ++ p :: after -> is_ok (snd p) = true ->
  after = [].
Proof.
  revert before. induction hist as [|[u r] hist IH]; intros before; simpl.
  - by destruct before.
  - destruct u as [args|args memo], r as [[v|]|e];
      try case_decide; try (by apply IH).
    + destruct before as [|q [|q' before]]; [|done..].
      by intros [= <- <-].
    + destruct before as [|q before].
      * by intros [= <- _].
      * intros [= _ Heq]. by eapply IH.
    + by destruct before.
    + by destruct before.
Qed.

(** A value held for a key stays, as long as no [add_memo] replaces it. *)
Lemma note_keeps k v (u : use A V) r :
  (forall args memo, u = AddMemo args memo -> key args <> Some k) ->
  note key k (Some v) (u, r) = Some v.
Proof.
  intros Hu. destruct u as [args|args memo], r as [[v'|]|e]; simpl;
    try done; try (by case_decide);
    by rewrite decide_False by (by eapply Hu).
Qed.

Lemma stored_step k cur (hist : list (use A V * outcome (option V))) j h :
  hist !! j = Some h ->
  stored key k cur (take (S j) hist)
  = note key k (stored key k cur (take j hist)) h.
Proof.
  intros Hh. unfold stored. rewrite (take_S_r _ _ _ Hh), foldl_app. done.
Qed.

Lemma stored_keeps k us results (i j : nat) v :
  length results = length us ->
  i <= j ->
  (forall m args memo,
      i <= m < j -> us !! m = Some (AddMemo args memo) ->
      key args <> Some k) ->
  stored key k None (take i (zip us results)) = Some v ->
  stored key k None (take j (zip us results)) = Some v.
Proof.
  intros Hlen Hij. induction Hij as [|j Hij IH]; intros Hno Hi; [done|].
  assert (Hj : stored key k None (take j (zip us results)) = Some v).
  { apply IH; [|done]. intros m args memo Hm. apply Hno. lia. }
  destruct (zip us results !! j) as [[u r]|] eqn:Hh.
  - rewrite (stored_step _ _ _ _ _ Hh), Hj. apply note_keeps.
    intros args memo ->. apply (Hno j args memo); [lia|].
    apply lookup_zip_with_Some in Hh as (x & y & [= <- <-] & Hx & _).
    exact Hx.
  - rewrite take_ge in Hj by (by apply lookup_ge_None).
    rewrite take_ge; [done|]. apply lookup_ge_None in Hh. lia.
Qed.

Lemma zip_lookup us results j u r :
  us !! j = Some u -> results !! j = Some r ->
  zip us results !! j = Some (u, r).
Proof.
  intros Hu Hr. apply lookup_zip_with_Some. by exists u, r.
Qed.

Lemma use_step_pure obj (f : A -> outcome V) a cache w :
  (forall a w, obj a w = (f a, w, [])) ->
  (forall a a' k, key a = Some k -> key a' = Some k -> f a = f a') ->
  (forall a k v, key a = Some k -> cache !! k = Some v -> f a = Ok v) ->
  exists cache1,
    use_step key obj (Apply a) (cache, w)
    = (through_cache key f a, (cache1, w), []) /\
    (forall a k v, key a = Some k -> cache1 !! k = Some v -> f a = Ok v).
Proof.
  intros Hpure Hsame Hagree. cbn [use_step].
  unfold memoize_by, through_cache.
  destruct (key a) as [k|] eqn:Hkey; [|by exists cache].
  destruct (cache !! k) as [v|] eqn:Hk.
  { exists cache. by rewrite (Hagree _ _ _ Hkey Hk). }
  rewrite Hpure. destruct (f a) as [v|e] eqn:Hf; [|by exists cache].
  exists (<[k := v]> cache). split; [done|].
  intros a' k' v' Hkey'. rewrite lookup_insert. case_decide.
  - subst k'. intros [= <-]. rewrite <- Hf. by apply (Hsame a' a k).
  - by apply Hagree.
Qed.

Lemma use_seq_pure obj (f : A -> outcome V) l cache w :
  (forall a w, obj a w = (f a, w, [])) ->
  (forall a a' k, key a = Some k -> key a' = Some k -> f a = f a') ->
  (forall a k v, key a = Some k -> cache !! k = Some v -> f a = Ok v) ->
  exists cache',
    use_seq key obj (Apply <$> l) (cache, w)
    = (through_cache key f <$> l, (cache', w), []).
Proof.
  intros Hpure Hsame. revert cache.
  induction l as [|a l IH]; intros cache Hagree; [by eexists|].
  rewrite !fmap_cons. unfold use_seq. cbn [call_seq].
  destruct (use_step_pure obj f a cache w Hpure Hsame Hagree)
    as (cache1 & -> & Hagree1).
  destruct (IH cache1 Hagree1) as [cache' Hrest].
  unfold use_seq in Hrest. rewrite Hrest. by exists cache'.
Qed.
Lemma call_seq_pure_fun obj (f : A -> outcome V) l w :
  (forall a w, obj a w = (f a, w, [])) ->
  call_seq obj l w = (f <$> l, w, []).
Proof.
  intros Hpure. induction l as [|a l IH]; [done|].
  cbn [call_seq]. by rewrite Hpure, IH.
Qed.

(** Calls only: the uses are the calls of the wrapper. *)
Lemma use_seq_applies obj l s :
  use_seq key obj (Apply <$> l) s =
    match call_seq (memoize_by key obj) l s with
    | (os, s', t) => (returned <$> os, s', t)
    end.
Proof.
  revert s. induction l as [|a l IH]; intros s; [done|].
  rewrite fmap_cons. unfold use_seq in *. cbn [call_seq use_step].
  destruct (memoize_by key obj a s) as [[o s1] t1].
  rewrite IH. by destruct (call_seq (memoize_by key obj) l s1) as [[os s2] t2].
Qed.

(** Two calls in a row with a tuple for which nothing is held, the first
    of which raises: the function is invoked by both. *)
Lemma use_seq_raise_again obj args k cache w journal e w1 t1 :
  key args = Some k -> cache !! k = None ->
  obj args w = (Raise e, w1, t1) ->
  use_seq key (spy obj) [Apply args; Apply args] (cache, (w, journal)) =
    match obj args w1 with
    | (o, w2, t2) =>
        ([Raise e; returned o],
         (match o with Ok v => <[k := v]> cache | Raise _ => cache end,
          (w2, journal ++ [(args, Raise e); (args, o)])),
         t1 ++ t2)
    end.
Proof.
  intros Hkey Hk Hobj.
  rewrite use_seq_cons, use_step_spy, Hkey, Hk, Hobj.
  rewrite use_seq_cons, use_step_spy, Hkey, Hk.
  destruct (obj args w1) as [[[v|e'] w2] t2]; simpl;
    by rewrite <- app_assoc, app_nil_r.
Qed.

(** C3, as the code has it.  Over any sequence of calls of a wrapper
    created by [memoize] and of stores by [add_memo], from an empty cache:

    - a call with a tuple that cannot be hashed raises, and the function
      is never invoked with such a tuple;
    - the invocations of the function for the tuples of one key are those
      that are due: one for each call with such a tuple as long as these
      calls raise, the last one for the first call that returns, none once
      [add_memo] has stored a value; so none follows one that returned,
      while an invocation that raises stores nothing and the next call
      invokes the function again;
    - the cache holds, and every call returns, the value stored last for
      its key: by the first call that returned or by a later [add_memo];
      so between two stores every call returns the same value;
    - when the function is pure and does not tell tuples of one key apart,
      the wrapper gives, call by call, the outcome of the function on the
      tuples that can be hashed. *)
Theorem memoize_settles obj us w results cache' w' journal t :
  use_seq key (spy obj) us (∅, (w, []))
  = (results, (cache', (w', journal)), t) ->
  let hist := zip us results in
  (forall j args,
      us !! j = Some (Apply args) -> key args = None ->
      results !! j = Some (Raise unhashable)) /\
  (forall p, p ∈ journal -> is_Some (key (fst p))) /\
  (forall k, for_key key k journal = due key k hist) /\
  (forall k before p after,
      for_key key k journal = before ++ p :: after ->
      is_ok (snd p) = true -> after = []) /\
  (forall args k cache0 w0 journal0 e w1 t1,
      key args = Some k -> cache0 !! k = None ->
      obj args w0 = (Raise e, w1, t1) ->
      use_seq key (spy obj) [Apply args; Apply args]
        (cache0, (w0, journal0)) =
        match obj args w1 with
        | (o, w2, t2) =>
            ([Raise e; returned o],
             (match o with Ok v => <[k := v]> cache0 | Raise _ => cache0 end,
              (w2, journal0 ++ [(args, Raise e); (args, o)])),
             t1 ++ t2)
        end) /\
  (forall k, cache' !! k = stored key k None hist) /\
  (forall j args k v,
      us !! j = Some (Apply args) -> key args = Some k ->
      stored key k None (take j hist) = Some v ->
      results !! j = Some (Ok (Some v))) /\
  (forall i j a a' k v,
      i < j -> us !! i = Some (Apply a) -> us !! j = Some (Apply a') ->
      key a = Some k -> key a' = Some k -> no_store_between key k us i j ->
      results !! i = Some (Ok (Some v)) ->
      results !! j = Some (Ok (Some v))) /\
  (forall i j a a' memo k,
      i < j -> us !! i = Some (AddMemo a memo) ->
      us !! j = Some (Apply a') ->
      key a = Some k -> key a' = Some k -> no_store_between key k us i j ->
      results !! j = Some (Ok (Some memo))) /\
  (forall (f : A -> outcome V) l,
      (forall a w, obj a w = (f a, w, [])) ->
      (forall a a' k, key a = Some k -> key a' = Some k -> f a = f a') ->
      returned <$> fst (fst (call_seq (memoize_by key obj) l (∅, w)))
      = through_cache key f <$> l /\
      fst (fst (call_seq obj l w)) = f <$> l).
Proof.
  intros Hrun. cbv zeta.
  assert (Hlen : length results = length us).
  { pose proof (call_seq_length (use_step key (spy obj)) us (∅, (w, [])))
      as Hlen.
    unfold use_seq in Hrun. by rewrite Hrun in Hlen. }
  assert (Hvalues : forall j args k v,
             us !! j = Some (Apply args) -> key args = Some k ->
             stored key k None (take j (zip us results)) = Some v ->
             results !! j = Some (Ok (Some v))).
  { intros j args k v Hj Hkey Hcur.
    eapply use_seq_values; [exact Hrun|exact Hj|exact Hkey|].
    by rewrite lookup_empty. }
  assert (Hdue : forall k, for_key key k journal = due key k (zip us results)).
  { intros k. rewrite (use_seq_journal _ _ _ _ _ _ _ _ _ _ k Hrun).
    by rewrite lookup_empty. }
  split; [|split; [|split; [|split; [|split; [|split; [|split;
    [|split; [|split]]]]]]]].
  - intros j args. by eapply use_seq_unhashable.
  - intros p Hp.
    destruct (use_seq_hashable _ _ _ _ _ _ _ _ _ _ p Hrun Hp) as [Hin|Hsome];
      [|done].
    by apply elem_of_nil in Hin.
  - exact Hdue.
  - intros k before p after Heq. rewrite Hdue in Heq.
    by eapply due_settled.
  - intros args k cache0 w0 journal0 e w1 t1.
    apply use_seq_raise_again.
  - intros k. rewrite (use_seq_cache _ _ _ _ _ _ _ _ _ k Hrun).
    by rewrite lookup_empty.
  - exact Hvalues.
  - intros i j a a' k v Hij Hi Hj Hka Hka' Hno Hri.
    apply (Hvalues j a' k v Hj Hka').
    apply (stored_keeps k us results (S i) j v Hlen); [lia| |].
    { intros m args memo Hm. apply Hno. lia. }
    rewrite (stored_step _ _ _ _ _ (zip_lookup _ _ _ _ _ Hi Hri)).
    cbn [note]. rewrite decide_True by done.
    destruct (stored key k None (take i (zip us results))) as [v0|] eqn:Hcur;
      [|done].
    specialize (Hvalues i a k v0 Hi Hka Hcur). congruence.
  - intros i j a a' memo k Hij Hi Hj Hka Hka' Hno.
    apply (Hvalues j a' k memo Hj Hka').
    apply (stored_keeps k us results (S i) j memo Hlen); [lia| |].
    { intros m args memo' Hm. apply Hno. lia. }
    pose proof (use_seq_add_memo _ _ _ _ _ _ _ _ _ _ _ _ Hrun Hi Hka) as Hri.
    rewrite (stored_step _ _ _ _ _ (zip_lookup _ _ _ _ _ Hi Hri)).
    cbn [note]. by rewrite decide_True by done.
  - intros f l Hpure Hsame. split.
    + destruct (use_seq_pure obj f l ∅ w Hpure Hsame) as [c Hc]; [done|].
      rewrite use_seq_applies in Hc.
      destruct (call_seq (memoize_by key obj) l (∅, w)) as [[os s'] t'].
      by injection Hc as Hc _ _.
    + by rewrite (call_seq_pure_fun obj f l w Hpure).
Qed.
End UseFacts.

Lemma memoize_settles_witness :
  let us :=
    [Apply (Py.Int 1); Apply (Py.Float 1); Apply (Py.Lst []);
     Apply (Py.Int 1); AddMemo (Py.Float 1) "memo"; Apply (Py.Int 1)] in
  let run := use_seq Py.key (spy Py.flaky) us (∅, (0, [])) in
  fst (fst run)
  = [Raise NotFound; Ok (Some "float"); Raise unhashable;
     Ok (Some "float"); Ok None; Ok (Some "memo")] /\
  for_key Py.key 1 (snd (snd (snd (fst run))))
  = [(Py.Int 1, Raise NotFound); (Py.Float 1, Ok "float")] /\
  fst (snd (fst run)) !! 1 = Some "memo" /\
  (fst (fst run)) !! 5 = Some (Ok (Some "memo")).
Proof.
  intros us run.
  destruct (memoize_settles Py.key Py.flaky us 0 (fst (fst run))
              (fst (snd (fst run))) (fst (snd (snd (fst run))))
              (snd (snd (snd (fst run)))) (snd run))
    as (_ & _ & Hdue & _ & _ & Hcache & _ & _ & Hmemo & _).
  { vm_compute. reflexivity. }
  split; [vm_compute; reflexivity|]. split; [|split].
  - rewrite Hdue. vm_compute. reflexivity.
  - rewrite Hcache. vm_compute. reflexivity.
  - apply (Hmemo 4 5 (Py.Float 1) (Py.Int 1) "memo" 1);
      [lia|done|done|done|done|].
    intros m args memo Hm. lia.
Defined.

(** Without these conditions the wrapper of a pure function differs from
    the function: [type(x).__name__] memoized answers for [1.0] what it
    answered for [1], and raises for a list. *)
Lemma memoize_confuses_equal_tuples :
  let type_name : Py.arg -> M unit unit string :=
    fun a => ret (Py.type_name a) in
  let args := [Py.Int 1; Py.Float 1; Py.Lst []] in
  fst (fst (call_seq (memoize_by Py.key type_name) args (∅, tt)))
  = [Ok "int"; Ok "int"; Raise unhashable] /\
  fst (fst (call_seq type_name args tt)) = [Ok "int"; Ok "float"; Ok "list"].
Proof. split; vm_compute; reflexivity. Qed.

(** C3 as the claim states it fails: a wrapped function that raises is
    invoked again by the next call with the same arguments.  Here the
    lookup of a role that does not exist is made twice by two calls. *)
Lemma memoize_invoked_again_after_raise :
  ~ (forall (obj : string -> M event Sim.state resource) ks w os cache' w'
       journal t args,
        call_seq (memoize (spy obj)) ks (∅, (w, []))
        = (os, (cache', (w', journal)), t) ->
        invocations args journal <= 1).
Proof.
  intros Honce.
  pose (obj := fun name : string =>
                 request (RolesFind name) (roles_find Sim.service name)).
  pose (run := call_seq (memoize (spy obj)) ["admin"; "admin"]
                 (∅, (Sim.empty, []))).
  specialize (Honce obj ["admin"; "admin"] Sim.empty (fst (fst run))
                (fst (snd (fst run))) (fst (snd (snd (fst run))))
                (snd (snd (snd (fst run)))) (snd run) "admin").
  assert (Hcount : invocations "admin" (snd (snd (snd (fst run)))) = 2)
    by (vm_compute; reflexivity).
  rewrite Hcount in Honce.
  assert (Hle : 2 <= 1) by (apply Honce; vm_compute; reflexivity).
  lia.
Qed.

(** * Further properties *)

(** ** revoke_project_access *)

Section Revoke.
Context {R : Type} (K : sdk R).

Lemma revoke_project_access_run project user group role_name (c : client R) :
  revoke_project_access K project user group role_name c =
    match subject_of user group with
    | Raise e => (Raise e, c, [])
    | Ok s =>
        match role K role_name c with
        | (Raise e, c1, t1) => (Raise e, c1, t1)
        | (Ok ro, c1, t1) =>
            let check := Call (RolesCheck (res_id ro) user group project) in
            let revoke := Call (RolesRevoke (res_id ro) user group project) in
            let absent :=
              (Ok tt, c1,
               t1 ++ [check;
                      Log Info (NoAccess s (res_name project)
                                  (res_name ro) (res_id ro))]) in
            match
              roles_check K (res_id ro) user group project (remote c1)
            with
            | Ok true =>
                match
                  roles_revoke K (res_id ro) user group project (remote c1)
                with
                | (Ok _, r') =>
                    (Ok tt, set_remote r' c1,
                     t1 ++ [check; revoke;
                            Log Info (RevokedAccess s (res_name project)
                                        (res_name ro) (res_id ro))])
                | (Raise e, r') =>
                    (Raise e, set_remote r' c1, t1 ++ [check; revoke])
                end
            | Ok false => absent
            | Raise NotFound => absent
            | Raise e => (Raise e, c1, t1 ++ [check])
            end
        end
    end.
Proof.
  unfold revoke_project_access. unfold bind at 1, lift.
  destruct (subject_of user group) as [s|e]; [|done].
  unfold bind at 1. destruct (role K role_name c) as [[[ro|e] c1] t1]; [|done].
  unfold bind. rewrite check_role_assignment_run.
  unfold on_remote, command, log, emit.
  destruct (roles_check K (res_id ro) user group project (remote c1))
    as [[]|[]]; simpl; try done.
  by destruct (roles_revoke K (res_id ro) user group project (remote c1))
    as [[[]|e] r'].
Qed.

Lemma role_ok_revokes role_name ro (c c1 : client R) t1 :
  role K role_name c = (Ok ro, c1, t1) -> revokes_of t1 = [].
Proof.
  rewrite role_run. destruct (role_cache c !! role_name) as [ro'|].
  - by intros [= _ _ <-].
  - destruct (roles_find K role_name (remote c)) as [ro'|e]; [|done].
    by intros [= _ _ <-].
Qed.

Lemma revokes_of_app t1 t2 :
  revokes_of (t1 ++ t2) = revokes_of t1 ++ revokes_of t2.
Proof. unfold revokes_of. by rewrite calls_of_app, filter_app. Qed.

(** [revoke_project_access], once the role is resolved, calls
    [roles.revoke] exactly once, for this role, subject and project, when
    [check_role_assignment] returns [True], and not at all (leaving the
    service as it is) when it returns [False].  On a service where
    [roles.check] no longer succeeds after a successful [roles.revoke] of
    the assignment, a second call after a first that returned makes no
    [roles.revoke] call and changes nothing. *)
Theorem revoke_project_access_idempotent
    project user group role_name (c : client R) :
  (forall ro r r',
      roles_revoke K ro user group project r = (Ok tt, r') ->
      roles_check K ro user group project r' <> Ok true) ->
  (forall ro c1 t1,
      one_subject user group ->
      role K role_name c = (Ok ro, c1, t1) ->
      let assigned :=
        fst (fst (check_role_assignment K (res_id ro) user group project c1))
      in
      let run := revoke_project_access K project user group role_name c in
      (assigned = Ok true ->
       revokes_of (snd run) = [RolesRevoke (res_id ro) user group project]) /\
      (assigned = Ok false ->
       revokes_of (snd run) = [] /\ fst run = (Ok tt, c1))) /\
  (forall c2 t2,
      revoke_project_access K project user group role_name c = (Ok tt, c2, t2)
      ->
      let again := revoke_project_access K project user group role_name c2 in
      revokes_of (snd again) = [] /\ snd (fst again) = c2).
Proof.
  intros Hlaw. split.
  - intros ro c1 t1 [s Hs]%one_subject_ok Hrole. simpl.
    rewrite revoke_project_access_run, Hs, Hrole, check_role_assignment_run.
    apply role_ok_revokes in Hrole as Ht1. simpl.
    destruct (roles_check K (res_id ro) user group project (remote c1))
      as [[]|[]]; simpl.
    all: split; intros Ha; try discriminate Ha.
    all: try destruct (roles_revoke K _ _ _ _ (remote c1)) as [[[]|e] r'].
    all: simpl; by rewrite revokes_of_app, Ht1.
  - intros c2 t2. rewrite revoke_project_access_run.
    destruct (subject_of user group) as [s|e] eqn:Hs; [|done].
    destruct (role K role_name c) as [[[ro|e] c1] t1] eqn:Hrole; [|done].
    apply role_ok in Hrole as (Hcache & Hremote & _). simpl.
    assert (Hagain : forall c',
      role_cache c' = role_cache c1 ->
      roles_check K (res_id ro) user group project (remote c') <> Ok true ->
      let again := revoke_project_access K project user group role_name c' in
      revokes_of (snd again) = [] /\ snd (fst again) = c').
    { intros c' Hc' Hcheck. simpl.
      rewrite revoke_project_access_run, Hs, role_run, Hc', Hcache. simpl.
      destruct (roles_check K (res_id ro) user group project (remote c'))
        as [[]|[]]; done. }
    destruct (roles_check K (res_id ro) user group project (remote c1))
      as [[]|[]] eqn:Hcheck; try done.
    + destruct (roles_revoke K _ _ _ _ (remote c1)) as [[[]|e] r'] eqn:Hrev;
        [|done].
      intros [= <- _]. apply Hagain; [by destruct c1|].
      destruct c1; simpl in *. by eapply Hlaw.
    + intros [= <- _]. apply Hagain; [done|]. by rewrite Hcheck.
    + intros [= <- _]. apply Hagain; [done|]. by rewrite Hcheck.
Qed.
End Revoke.

(** On the simulated service a revoked assignment is gone. *)
Lemma sim_revoked_is_gone ro user group project r r' :
  roles_revoke Sim.service ro user group project r = (Ok tt, r') ->
  roles_check Sim.service ro user group project r' <> Ok true.
Proof.
  simpl. case_decide; [|done]. intros [= <-]. simpl.
  rewrite decide_False; [done|].
  rewrite elem_of_difference, elem_of_singleton. tauto.
Qed.

Lemma revoke_project_access_idempotent_witness :
  let c := Sim.connect Sample.cloud in
  let granted :=
    snd (fst (grant_project_access Sim.service Sample.proj (Some Sample.alice)
                None "_member_" c)) in
  let once :=
    revoke_project_access Sim.service Sample.proj (Some Sample.alice) None
      "_member_" granted in
  let again :=
    revoke_project_access Sim.service Sample.proj (Some Sample.alice) None
      "_member_" (snd (fst once)) in
  fst (fst once) = Ok tt /\
  revokes_of (snd once)
  = [RolesRevoke "r1" (Some Sample.alice) None Sample.proj] /\
  revokes_of (snd again) = [] /\ snd (fst again) = snd (fst once).
Proof.
  intros c granted once again.
  destruct (revoke_project_access_idempotent Sim.service Sample.proj
              (Some Sample.alice) None "_member_" granted
              (fun ro =>
                 sim_revoked_is_gone ro (Some Sample.alice) None Sample.proj))
    as (Hcalls & Hagain).
  split; [vm_compute; reflexivity|]. split.
  - apply (Hcalls Sample.member granted []).
    + right. split; [discriminate | reflexivity].
    + vm_compute. reflexivity.
    + vm_compute. reflexivity.
  - apply (Hagain _ (snd once)). vm_compute. reflexivity.
Defined.

(** ** grant_project_access followed by revoke_project_access *)

Section GrantRevoke.
Context {R : Type} (K : sdk R).

(** On a service where [roles.check] succeeds after a successful
    [roles.grant], [revoke_project_access] called after a
    [grant_project_access] that returned, with the same arguments, does not
    look the role up again: its remote calls are one [roles.check] and one
    [roles.revoke] for the role that the grant resolved. *)
Theorem revoke_after_grant project user group role_name (c c2 : client R) t2 :
  (forall ro r r',
      roles_grant K ro user group project r = (Ok tt, r') ->
      roles_check K ro user group project r' = Ok true) ->
  grant_project_access K project user group role_name c = (Ok tt, c2, t2) ->
  exists ro,
    role_cache c2 !! role_name = Some ro /\
    calls_of (snd (revoke_project_access K project user group role_name c2))
    = [RolesCheck (res_id ro) user group project;
       RolesRevoke (res_id ro) user group project].
Proof.
  intros Hlaw. rewrite grant_project_access_run.
  destruct (subject_of user group) as [s|e] eqn:Hs; [|done].
  destruct (role K role_name c) as [[[ro|e] c1] t1] eqn:Hrole; [|done].
  apply role_ok in Hrole as (Hcache & Hremote & _). simpl.
  assert (Hthen : forall c',
    role_cache c' = role_cache c1 ->
    roles_check K (res_id ro) user group project (remote c') = Ok true ->
    exists ro,
      role_cache c' !! role_name = Some ro /\
      calls_of (snd (revoke_project_access K project user group role_name c'))
      = [RolesCheck (res_id ro) user group project;
         RolesRevoke (res_id ro) user group project]).
  { intros c' Hc' Hcheck. exists ro. rewrite Hc'. split; [done|].
    rewrite revoke_project_access_run, Hs, role_run, Hc', Hcache. simpl.
    rewrite Hcheck.
    by destruct (roles_revoke K _ _ _ _ (remote c')) as [[[]|e] r']. }
  destruct (roles_check K (res_id ro) user group project (remote c1))
    as [[]|[]] eqn:Hcheck; try done.
  - intros [= <- _]. by apply Hthen.
  - destruct (roles_grant K _ _ _ _ (remote c1)) as [[[]|e] r'] eqn:Hgrant;
      [|done].
    intros [= <- _]. apply Hthen; [by destruct c1|].
    destruct c1; simpl in *. by eapply Hlaw.
  - destruct (roles_grant K _ _ _ _ (remote c1)) as [[[]|e] r'] eqn:Hgrant;
      [|done].
    intros [= <- _]. apply Hthen; [by destruct c1|].
    destruct c1; simpl in *. by eapply Hlaw.
Qed.
End GrantRevoke.

Lemma revoke_after_grant_witness :
  let c := Sim.connect Sample.cloud in
  let granted :=
    grant_project_access Sim.service Sample.proj None (Some Sample.devs)
      "_member_" c in
  exists ro,
    role_cache (snd (fst granted)) !! "_member_" = Some ro /\
    calls_of
      (snd (revoke_project_access Sim.service Sample.proj None
              (Some Sample.devs) "_member_" (snd (fst granted))))
    = [RolesCheck (res_id ro) None (Some Sample.devs) Sample.proj;
       RolesRevoke (res_id ro) None (Some Sample.devs) Sample.proj].
Proof.
  intros c granted.
  apply (revoke_after_grant Sim.service Sample.proj None (Some Sample.devs)
           "_member_" c (snd (fst granted)) (snd granted)
           (fun ro =>
              sim_granted_is_checked ro None (Some Sample.devs) Sample.proj)).
  vm_compute. reflexivity.
Defined.

(** ** ensure_group_members: the order of the remote calls *)

Section MembershipOrder.
Context {R : Type} (K : sdk R) `{!SetOrder}.

(** For every outcome of [ensure_group_members], in whatever order the
    sets are iterated: when [users.list] raises, that exception leaves the
    method after this one call, with nothing changed; otherwise the remote
    calls made are an initial part of the plan, the whole plan when the
    method returns.  The plan is the listing, then one [add_to_group] for
    each id to add, then one [remove_from_group] for each id to delete,
    each group of calls in the order in which its set is iterated.  So a
    [remove_from_group] call is made only after an [add_to_group] call for
    every id to add. *)
Theorem ensure_group_members_follows_plan
    group ensure_users keep_others (c : client R) :
  let run := ensure_group_members K group ensure_users keep_others c in
  (forall e,
      users_list K group (remote c) = Raise e ->
      run = (Raise e, c, [Call (UsersList group)])) /\
  (forall l,
      users_list K group (remote c) = Ok l ->
      let plan :=
        membership_plan group keep_others (ids l) (ids ensure_users) in
      calls_of (snd run) `prefix_of` plan /\
      (fst (fst run) = Ok tt -> calls_of (snd run) = plan) /\
      (exists adds removes,
          adds ≡ₚ elements (to_add (ids l) (ids ensure_users)) /\
          removes ≡ₚ
            elements (to_delete keep_others (ids l) (ids ensure_users)) /\
          plan
          = UsersList group
            :: ((fun uid => UsersAddToGroup uid group) <$> adds)
            ++ ((fun uid => UsersRemoveFromGroup uid group) <$> removes)) /\
      (forall uid add,
          UsersRemoveFromGroup uid group ∈ calls_of (snd run) ->
          add ∈ to_add (ids l) (ids ensure_users) ->
          UsersAddToGroup add group ∈ calls_of (snd run))).
Proof.
  cbv zeta. split.
  - intros e He. by apply ensure_group_members_list_raises.
  - intros l Hl.
    destruct (ensure_group_members K group ensure_users keep_others c)
      as [[o c'] t] eqn:Hrun.
    destruct (ensure_group_members_calls K _ _ _ _ _ _ _ _ Hl Hrun)
      as [Hpre Hall].
    simpl. split; [done|]. split; [done|]. split.
    { exists (iterate (to_add (ids l) (ids ensure_users))),
        (iterate (to_delete keep_others (ids l) (ids ensure_users))).
      split; [apply iterate_perm|]. split; [apply iterate_perm|done]. }
    intros uid add Hrem Hadd.
    set (adds := (fun uid => UsersAddToGroup uid group)
                   <$> iterate (to_add (ids l) (ids ensure_users))) in *.
    assert (Hfirst : (UsersList group :: adds) `prefix_of`
              membership_plan group keep_others (ids l) (ids ensure_users)).
    { unfold membership_plan. apply prefix_cons. by apply prefix_app_r. }
    destruct (prefix_weak_total _ _ _ Hfirst Hpre) as [[k Hk]|[k Hk]].
    + rewrite Hk. apply elem_of_app. left. right.
      apply list_elem_of_fmap. exists add. split; [done|].
      by apply elem_of_iterate.
    + assert (Hin : UsersRemoveFromGroup uid group ∈ UsersList group :: adds).
      { rewrite Hk. apply elem_of_app. by left. }
      apply elem_of_cons in Hin as [?|Hin]; [done|].
      apply list_elem_of_fmap in Hin as (x & ? & _). done.
Qed.
End MembershipOrder.

Lemma ensure_group_members_follows_plan_witness :
  let c := Sim.connect Sample.cloud in
  let ghost := Resource "u9" "ghost@example.com" in
  let run :=
    @ensure_group_members _ Sim.service elements_order Sample.devs
      [Sample.carol; ghost] false c in
  let other :=
    @ensure_group_members _ Sim.service reversed_order Sample.devs
      [Sample.carol; ghost] false c in
  (fst (fst run) = Raise NotFound /\
   calls_of (snd run)
   = [UsersList Sample.devs; UsersAddToGroup "u3" Sample.devs;
      UsersAddToGroup "u9" Sample.devs] /\
   calls_of (snd run)
     `prefix_of` @membership_plan elements_order Sample.devs false
                   (ids [Sample.alice; Sample.bob])
                   (ids [Sample.carol; ghost])) /\
  (fst (fst other) = Raise NotFound /\
   calls_of (snd other)
   = [UsersList Sample.devs; UsersAddToGroup "u9" Sample.devs] /\
   calls_of (snd other)
     `prefix_of` @membership_plan reversed_order Sample.devs false
                   (ids [Sample.alice; Sample.bob])
                   (ids [Sample.carol; ghost])).
Proof.
  intros c ghost run other. split.
  - destruct (@ensure_group_members_follows_plan _ Sim.service
                elements_order Sample.devs [Sample.carol; ghost] false c)
      as (_ & Hplan).
    destruct (Hplan [Sample.alice; Sample.bob]) as (Hpre & _).
    { vm_compute. reflexivity. }
    split; [vm_compute; reflexivity|]. split; [vm_compute; reflexivity|].
    exact Hpre.
  - destruct (@ensure_group_members_follows_plan _ Sim.service
                reversed_order Sample.devs [Sample.carol; ghost] false c)
      as (_ & Hplan).
    destruct (Hplan [Sample.alice; Sample.bob]) as (Hpre & _).
    { vm_compute. reflexivity. }
    split; [vm_compute; reflexivity|]. split; [vm_compute; reflexivity|].
    exact Hpre.
Defined.

(** ** ensure_group_members, run again *)

Lemma nothing_to_add (existing ensure : gset string) :
  ensure ⊆ existing -> to_add existing ensure = ∅.
Proof.
  intros Hsub. unfold to_add. apply set_eq. intros x.
  rewrite elem_of_difference, elem_of_empty. split; [|done].
  intros [Hin Hnot]. apply Hnot, Hsub, Hin.
Qed.

Section MembershipAgain.
Context {R : Type} (K : sdk R) (group : resource) `{!SetOrder}.
Variable member_ids : R -> gset string.
Hypothesis listed :
  forall r l, users_list K group r = Ok l -> ids l = member_ids r.
Hypothesis added :
  forall uid r r',
    users_add_to_group K uid group r = (Ok tt, r') ->
    member_ids r' = {[uid]} ∪ member_ids r.
Hypothesis removed :
  forall uid r r',
    users_remove_from_group K uid group r = (Ok tt, r') ->
    member_ids r' = member_ids r ∖ {[uid]}.

(** On a service that keeps membership as [add_to_group] and
    [remove_from_group] change it: after a call of [ensure_group_members]
    that returned, the same call again, when its [users.list] succeeds,
    makes no other remote call, returns, and leaves the client and the
    service as they are. *)
Theorem ensure_group_members_again
    ensure_users keep_others (c c1 : client R) t1 l :
  ensure_group_members K group ensure_users keep_others c = (Ok tt, c1, t1) ->
  users_list K group (remote c1) = Ok l ->
  let again := ensure_group_members K group ensure_users keep_others c1 in
  fst again = (Ok tt, c1) /\ calls_of (snd again) = [UsersList group].
Proof.
  intros Hrun Hl.
  apply (ensure_group_members_ok K group member_ids listed added removed)
    in Hrun as (_ & Hmem & _).
  cbv zeta in Hmem. rewrite <- (listed _ _ Hl) in Hmem.
  assert (Hadd : to_add (ids l) (ids ensure_users) = ∅).
  { apply nothing_to_add. rewrite Hmem. unfold to_add, to_delete.
    destruct keep_others.
    - rewrite extended. apply union_subseteq_r.
    - by rewrite reconciled. }
  assert (Hdel : to_delete keep_others (ids l) (ids ensure_users) = ∅).
  { unfold to_delete. destruct keep_others; [done|].
    rewrite Hmem. unfold to_add, to_delete. rewrite reconciled.
    apply set_eq. intros x. rewrite elem_of_difference, elem_of_empty.
    tauto. }
  cbv zeta.
  destruct (ensure_group_members K group ensure_users keep_others c1)
    as [[o c2] t2] eqn:Hagain.
  revert Hagain. unfold ensure_group_members. unfold bind at 1.
  rewrite on_remote_request, Hl, Hadd, Hdel, iterate_empty.
  cbn [for_each]. unfold bind at 1, ret. unfold bind at 1. unfold bind at 1.
  destruct (log_loop_calls
              (fun user_id =>
                 LeavingUser user_id (res_name group) (res_id group))
              (iterate (unchanged keep_others (ids l) (ids ensure_users)))
              c1)
    as (t3 & -> & Ht3).
  unfold log, emit. intros [= <- <- <-]. simpl. split; [done|].
  change (Call (UsersList group) :: t3 ++ ?x)
    with ([Call (UsersList group)] ++ t3 ++ x).
  by rewrite !calls_of_app, Ht3.
Qed.
End MembershipAgain.

Lemma ensure_group_members_again_witness :
  let c := Sim.connect Sample.cloud in
  let once :=
    ensure_group_members Sim.service Sample.devs [Sample.bob; Sample.carol]
      false c in
  let again :=
    ensure_group_members Sim.service Sample.devs [Sample.bob; Sample.carol]
      false (snd (fst once)) in
  fst again = (Ok tt, snd (fst once)) /\
  calls_of (snd again) = [UsersList Sample.devs].
Proof.
  intros c once again.
  apply (ensure_group_members_again Sim.service Sample.devs
           (fun r => Sim.member_ids r Sample.devs)
           (sim_listed Sample.devs)
           (fun uid => sim_added Sample.devs uid)
           (fun uid => sim_removed Sample.devs uid)
           [Sample.bob; Sample.carol] false c (snd (fst once)) (snd once)
           [Sample.carol; Sample.bob]).
  - vm_compute. reflexivity.
  - vm_compute. reflexivity.
Defined.

(** ** ensure_user and find_user on a [p9admin.User] *)

Section UserObjects.
Context {R : Type} (K : sdk R).

(** The object that [ensure_user] leaves behind is resolved: any later
    [ensure_user] on it, whatever the default project and whatever the
    state of the service, returns the same keystone user with no remote
    call and no log record. *)
Theorem ensure_user_again u default_project (c c' : client R) k u' t :
  ensure_user K u default_project c = (Ok (k, u'), c', t) ->
  forall default_project' (c'' : client R),
    ensure_user K u' default_project' c'' = (Ok (k, u'), c'', []).
Proof.
  rewrite ensure_user_run. intros Hrun dp' c''.
  assert (Hu' : User.user u' = Some k).
  { destruct (User.user u) as [k0|] eqn:Hu.
    { injection Hrun as <- <- _ _. done. }
    destruct (users_find K (User.email u) (remote c)) as [k0|[]];
      try discriminate.
    { by injection Hrun as <- <- _ _. }
    destruct (users_create K _ _ _ _ (remote c)) as [[k0|e'] r'];
      try discriminate.
    by injection Hrun as <- <- _ _. }
  by rewrite ensure_user_run, Hu'.
Qed.

(** [find_user] given a [p9admin.User] makes one [users.find] call for the
    object's e-mail and assigns what it returns to the object's [user],
    also when that is [None]: an object that was resolved is unresolved
    after a lookup that raised [NotFound].  Given an e-mail address it
    returns the same result and has no object to change. *)
Theorem find_user_assigns u email (c : client R) :
  (forall found arg c' t,
      find_user K (UserObject u) c = (Ok (found, arg), c', t) ->
      arg = UserObject (User.Make (User.name u) (User.email u) found) /\
      c' = c /\ t = [Call (UsersFind (User.email u))]) /\
  (users_find K (User.email u) (remote c) = Raise NotFound ->
   find_user K (UserObject u) c
   = (Ok (None, UserObject (User.Make (User.name u) (User.email u) None)),
      c, [Call (UsersFind (User.email u))])) /\
  (forall k,
      users_find K (User.email u) (remote c) = Ok k ->
      find_user K (UserObject u) c
      = (Ok (Some k, UserObject (resolved u k)), c,
         [Call (UsersFind (User.email u))])) /\
  find_user K (Email email) c
  = (match users_find K email (remote c) with
     | Ok k => Ok (Some k, Email email)
     | Raise NotFound => Ok (None, Email email)
     | Raise e => Raise e
     end, c, [Call (UsersFind email)]).
Proof.
  unfold find_user, bind. rewrite !_find_user_run.
  split; [|split; [|split]].
  - intros found arg c' t.
    destruct (users_find K (User.email u) (remote c)) as [k|[]]; simpl;
      intros [= <- <- <- <-]; done.
  - by intros ->.
  - by intros k ->.
  - by destruct (users_find K email (remote c)) as [k|[]].
Qed.
End UserObjects.

Lemma ensure_user_again_witness :
  let c := Sim.connect Sample.cloud in
  let once := ensure_user Sim.service Sample.dana (Some Sample.proj) c in
  let dana := Resource "user-dana@example.com" "dana@example.com" in
  fst (fst once) = Ok (dana, resolved Sample.dana dana) /\
  ensure_user Sim.service (resolved Sample.dana dana) None c
  = (Ok (dana, resolved Sample.dana dana), c, []).
Proof.
  intros c once dana. split; [vm_compute; reflexivity|].
  apply (ensure_user_again Sim.service Sample.dana (Some Sample.proj) c
           (snd (fst once)) dana (resolved Sample.dana dana) (snd once)).
  vm_compute. reflexivity.
Defined.

Lemma find_user_assigns_witness :
  let c := Sim.connect Sample.cloud in
  let stale :=
    User.Make "Eve" "eve@example.com" (Some (Resource "u7" "eve@example.com"))
  in
  find_user Sim.service (UserObject stale) c
  = (Ok (None, UserObject (User.Make "Eve" "eve@example.com" None)), c,
     [Call (UsersFind "eve@example.com")]).
Proof.
  intros c stale.
  destruct (find_user_assigns Sim.service stale "" c) as (_ & Hnone & _).
  apply Hnone. vm_compute. reflexivity.
Defined.

(** ** The memoized getters *)

(** ** What the methods leave of the caches *)

Section Frame.
Context {R : Type} (K : sdk R) `{!SetOrder}.











































End Frame.

Section Getters.
Context {R : Type} (K : sdk R) `{!SetOrder}.


Lemma foldl_insert_last {A} (id : A -> string) xs (m : gmap string A) k :
  foldl (fun m x => <[id x := x]> m) m xs !! k
  = match last (filter (fun x => id x = k) xs) with
    | Some s => Some s
    | None => m !! k
    end.
Proof.
  induction xs as [|x xs IH] using rev_ind; [done|].
  rewrite foldl_app, filter_app. simpl. rewrite filter_cons, filter_nil.
  destruct (decide (id x = k)) as [<-|Hne].
  - by rewrite last_snoc, lookup_insert_eq.
  - rewrite app_nil_r, lookup_insert_ne by done. exact IH.
Qed.

(** What a consumer of [subnets] or [security_groups] leaves in the cache:
    for an id that was yielded, [subnet] ([security_group]) returns the
    object yielded last with that id, with no remote call, even if another
    object was cached under the id before; the entries of ids that were
    not yielded are as they were.  What is yielded to a consumer that asks
    for [S n] elements being the first [S n] elements of the SDK's listing,
    the object returned for an id is the last of these with that id. *)
Theorem last_yield_wins n (c c' : client R) t :
  (forall g xs,
      take_from (subnets_next K) n g c = (Ok xs, c', t) ->
      (forall id s,
          last (filter (fun x => subnet_id x = id) xs) = Some s ->
          subnet K id c' = (Ok s, c', [])) /\
      (forall id,
          id ∉ subnet_id <$> xs ->
          subnet_cache c' !! id = subnet_cache c !! id)) /\
  (forall g xs,
      take_from (security_groups_next K) n g c = (Ok xs, c', t) ->
      (forall id s,
          last (filter (fun x => res_id x = id) xs) = Some s ->
          security_group K id c' = (Ok s, c', [])) /\
      (forall id,
          id ∉ res_id <$> xs ->
          security_group_cache c' !! id = security_group_cache c !! id)) /\
  (forall kw,
      let xs := take (S n) (fst (net_subnets K kw (remote c))) in
      let c1 :=
        snd (fst (take_from (subnets_next K) (S n) (subnets kw) c)) in
      (forall id s,
          last (filter (fun x => subnet_id x = id) xs) = Some s ->
          subnet K id c1 = (Ok s, c1, [])) /\
      (forall id,
          id ∉ subnet_id <$> xs ->
          subnet_cache c1 !! id = subnet_cache c !! id)) /\
  (forall kw,
      let xs := take (S n) (fst (net_security_groups K kw (remote c))) in
      let c1 :=
        snd (fst (take_from (security_groups_next K) (S n)
                    (security_groups kw) c)) in
      (forall id s,
          last (filter (fun x => res_id x = id) xs) = Some s ->
          security_group K id c1 = (Ok s, c1, [])) /\
      (forall id,
          id ∉ res_id <$> xs ->
          security_group_cache c1 !! id = security_group_cache c !! id)).
Proof.
  split; [|split; [|split]].
  - intros g xs Htake.
    apply (take_from_cache _ subnet_cache subnet_id) in Htake;
      [|apply subnets_next_cache|apply subnets_next_end].
    split.
    + intros id s Hlast.
      by rewrite subnet_run, Htake, foldl_insert_last, Hlast.
    + intros id Hid. rewrite Htake. by apply foldl_insert_notin.
  - intros g xs Htake.
    apply (take_from_cache _ security_group_cache res_id) in Htake;
      [|apply security_groups_next_cache|apply security_groups_next_end].
    split.
    + intros id s Hlast.
      by rewrite security_group_run, Htake, foldl_insert_last, Hlast.
    + intros id Hid. rewrite Htake. by apply foldl_insert_notin.
  - intros kw. cbv zeta. rewrite subnets_consumed. cbn [fst snd].
    assert (Hcache : forall m,
               subnet_cache (set_subnet_cache m c) = m) by (by destruct c).
    split.
    + intros id s Hlast.
      by rewrite subnet_run, Hcache, foldl_insert_last, Hlast.
    + intros id Hid. rewrite Hcache. by apply foldl_insert_notin.
  - intros kw. cbv zeta. rewrite security_groups_consumed. cbn [fst snd].
    assert (Hcache : forall m,
               security_group_cache (set_security_group_cache m c) = m)
      by (by destruct c).
    split.
    + intros id s Hlast.
      by rewrite security_group_run, Hcache, foldl_insert_last, Hlast.
    + intros id Hid. rewrite Hcache. by apply foldl_insert_notin.
Qed.
End Getters.


Lemma last_yield_wins_witness :
  let renumbered := Subnet "s1" "sub" "10.9.0.0/24" in
  let fetched := snd (fst (subnet Sim.service "s1" (Sim.connect Sample.cloud)))
  in
  let c :=
    set_remote
      (Sim.State [] [] [] ∅ ∅ [] [renumbered] [] [] [] None) fetched in
  let run := take_from (subnets_next Sim.service) 5 (subnets []) c in
  let renamed := Resource "sg1" "web" in
  let d :=
    Sim.connect
      (Sim.State [] [] [] ∅ ∅ [] [] []
         [Sample.sg_a; Sample.sg_b; renamed] [] None) in
  let groups :=
    take_from (security_groups_next Sim.service) 5 (security_groups []) d in
  (subnet_cache c !! "s1" = Some Sample.sub_a /\
   fst (fst run) = Ok [renumbered] /\
   subnet Sim.service "s1" (snd (fst run))
   = (Ok renumbered, snd (fst run), [])) /\
  (fst (fst groups) = Ok [Sample.sg_a; Sample.sg_b; renamed] /\
   security_group Sim.service "sg1" (snd (fst groups))
   = (Ok renamed, snd (fst groups), []) /\
   security_group Sim.service "sg2" (snd (fst groups))
   = (Ok Sample.sg_b, snd (fst groups), [])).
Proof.
  intros renumbered fetched c run renamed d groups. split.
  - destruct (last_yield_wins Sim.service 5 c (snd (fst run)) (snd run))
      as (Hsub & _).
    destruct (Hsub (subnets []) [renumbered]) as (Hlast & _).
    { vm_compute. reflexivity. }
    split; [vm_compute; reflexivity|]. split; [vm_compute; reflexivity|].
    apply Hlast. vm_compute. reflexivity.
  - destruct (last_yield_wins Sim.service 4 d d []) as (_ & _ & _ & Hsg).
    destruct (Hsg []) as (Hlast & _).
    split; [vm_compute; reflexivity|]. split.
    + apply Hlast. vm_compute. reflexivity.
    + apply Hlast. vm_compute. reflexivity.
Defined.

(** ** The generators and the listing call *)

Section Generators.
Context {R : Type} (K : sdk R).

Lemma subnets_resume_quiet l (c c' : client R) o t :
  subnets_resume l c = (o, c', t) ->
  calls_of t = [] /\ remote c' = remote c /\
  forall x g', o = Ok (Some x, g') -> exists l', g' = Suspended l'.
Proof.
  destruct l as [[|x rest] [e|]]; simpl;
    unfold bind, modify, ret, raise; simpl; intros [= <- <- <-];
    (split; [done|split; [done|]]); intros x' g' [=]; subst; by eexists.
Qed.

Lemma security_groups_resume_quiet l (c c' : client R) o t :
  security_groups_resume l c = (o, c', t) ->
  calls_of t = [] /\ remote c' = remote c /\
  forall x g', o = Ok (Some x, g') -> exists l', g' = Suspended l'.
Proof.
  destruct l as [[|x rest] [e|]]; simpl;
    unfold bind, modify, ret, raise; simpl; intros [= <- <- <-];
    (split; [done|split; [done|]]); intros x' g' [=]; subst; by eexists.
Qed.

(** Taking from a generator that is already running makes no remote call. *)
Lemma take_from_suspended {A}
    (next : generator A -> M event (client R) (option A * generator A)) :
  (forall l c c' o t,
      next (Suspended l) c = (o, c', t) ->
      calls_of t = [] /\ remote c' = remote c /\
      forall x g', o = Ok (Some x, g') -> exists l', g' = Suspended l') ->
  forall n l c c' o t,
    take_from next n (Suspended l) c = (o, c', t) ->
    calls_of t = [] /\ remote c' = remote c.
Proof.
  intros Hnext n. induction n as [|n IH]; intros l c c' o t; cbn [take_from].
  - by intros [= <- <- <-].
  - unfold bind at 1.
    destruct (next (Suspended l) c) as [[[[[x|] g1]|e] c1] t1] eqn:Hstep;
      apply Hnext in Hstep as (Ht1 & Hr1 & Hg).
    + destruct (Hg x g1 eq_refl) as [l1 ->]. unfold bind at 1.
      destruct (take_from next n (Suspended l1) c1) as [[[xs|e] c2] t2]
        eqn:Hrest; apply IH in Hrest as [Ht2 Hr2];
        intros [= <- <- <-]; simpl;
        rewrite ?calls_of_app, ?Ht1, ?Ht2, ?app_nil_r; split; congruence.
    + intros [= <- <- <-]. rewrite calls_of_app, Ht1. done.
    + by intros [= <- <- <-].
Qed.

(** A consumer of [subnets(kw)] or [security_groups(kw)] causes exactly one
    listing call, with the keyword arguments given, however many elements
    it takes and however the iteration ends, and none if it never asks for
    an element; the iteration itself does not change the service. *)
Theorem generators_list_once kw n (c : client R) :
  let s := take_from (subnets_next K) n (subnets kw) c in
  let g := take_from (security_groups_next K) n (security_groups kw) c in
  calls_of (snd s) = (if n is 0 then [] else [Subnets kw]) /\
  remote (snd (fst s)) = remote c /\
  calls_of (snd g) = (if n is 0 then [] else [SecurityGroups kw]) /\
  remote (snd (fst g)) = remote c.
Proof.
  destruct n as [|n]; [done|]. cbv zeta. unfold subnets, security_groups.
  cbn [take_from subnets_next security_groups_next].
  assert (Hs : forall n l (c c' : client R) o t,
             take_from (subnets_next K) n (Suspended l) c = (o, c', t) ->
             calls_of t = [] /\ remote c' = remote c).
  { apply take_from_suspended. intros l. apply subnets_resume_quiet. }
  assert (Hg : forall n l (c c' : client R) o t,
             take_from (security_groups_next K) n (Suspended l) c
             = (o, c', t) ->
             calls_of t = [] /\ remote c' = remote c).
  { apply take_from_suspended. intros l. apply security_groups_resume_quiet. }
  split; [|split; [|split]].
  all: unfold bind at 1 2; rewrite on_remote_paginate.
  all: match goal with
       | |- context [subnets_resume ?l ?c0] =>
           destruct (subnets_resume l c0) as [[[[[x|] g1]|e] c1] t1] eqn:Hstep;
           apply subnets_resume_quiet in Hstep as (Ht1 & Hr1 & Hsus)
       | |- context [security_groups_resume ?l ?c0] =>
           destruct (security_groups_resume l c0)
             as [[[[[x|] g1]|e] c1] t1] eqn:Hstep;
           apply security_groups_resume_quiet in Hstep as (Ht1 & Hr1 & Hsus)
       end.
  all: try (simpl; rewrite ?calls_of_app, ?Ht1; done).
  all: destruct (Hsus x g1 eq_refl) as [l1 ->]; unfold bind at 1.
  all: match goal with
       | |- context [take_from (subnets_next K) ?n0 (Suspended ?l0) ?c0] =>
           destruct (take_from (subnets_next K) n0 (Suspended l0) c0)
             as [[[xs|e] c2] t2] eqn:Hrest;
           apply Hs in Hrest as [Ht2 Hr2]
       | |- context [take_from (security_groups_next K) ?n0 (Suspended ?l0)
                       ?c0] =>
           destruct (take_from (security_groups_next K) n0 (Suspended l0) c0)
             as [[[xs|e] c2] t2] eqn:Hrest;
           apply Hg in Hrest as [Ht2 Hr2]
       end.
  all: simpl; rewrite ?calls_of_app, ?Ht1, ?Ht2, ?app_nil_r; simpl;
    congruence.
Qed.
End Generators.

(** ** find_project *)

Section FindProject.
Context {R : Type} (X : xsdk R).

(** [find_project] returns the project that [projects.find] finds under
    the name; only when that raises [NotFound] does it try the argument as
    an id with [projects.get]; when that raises [NotFound] too it raises
    [SystemExit] with the message.  It never returns [None], it does not
    change the service, and any other exception of the first lookup leaves
    the method without the second lookup being tried. *)
Theorem find_project_by_name_then_id name (r : R) :
  let run := find_project X name r in
  let by_name := XCall (ProjectsFind name) in
  let by_id := XCall (ProjectsGet name) in
  snd (fst run) = r /\
  (forall p, projects_find X name r = Ok p -> run = (Ok p, r, [by_name])) /\
  (projects_find X name r = Raise NotFound ->
   (forall p,
       projects_get X name r = Ok p -> run = (Ok p, r, [by_name; by_id])) /\
   (projects_get X name r = Raise NotFound ->
    run
    = (Raise
         (SystemExit
            ("Could not find project with name or ID " ++ dq ++ name ++ dq)),
       r, [by_name; by_id])) /\
   (forall e,
       projects_get X name r = Raise e -> e <> NotFound ->
       run = (Raise e, r, [by_name; by_id]))) /\
  (forall e,
      projects_find X name r = Raise e -> e <> NotFound ->
      run = (Raise e, r, [by_name])).
Proof.
  cbv zeta. unfold find_project, except_not_found, xrequest, sys_exit, raise.
  destruct (projects_find X name r) as [p|[]];
    destruct (projects_get X name r) as [p'|[]]; simpl.
  all: repeat split; intros; simplify_eq; done.
Qed.
End FindProject.

Lemma find_project_by_name_then_id_witness :
  find_project XSim.service "proj" XSample.cloud
  = (Ok XSample.tenant, XSample.cloud, [XCall (ProjectsFind "proj")]) /\
  find_project XSim.service "p1" XSample.cloud
  = (Ok XSample.tenant, XSample.cloud,
     [XCall (ProjectsFind "p1"); XCall (ProjectsGet "p1")]) /\
  fst (fst (find_project XSim.service "nope" XSample.cloud))
  = Raise
      (SystemExit ("Could not find project with name or ID " ++ dq ++ "nope"
                   ++ dq)).
Proof.
  destruct (find_project_by_name_then_id XSim.service "proj" XSample.cloud)
    as (_ & Hname & _).
  destruct (find_project_by_name_then_id XSim.service "p1" XSample.cloud)
    as (_ & _ & Hid & _).
  destruct (find_project_by_name_then_id XSim.service "nope" XSample.cloud)
    as (_ & _ & Hnone & _).
  split; [|split].
  - apply Hname. vm_compute. reflexivity.
  - apply Hid; vm_compute; reflexivity.
  - destruct Hnone as (_ & Hexit & _); [vm_compute; reflexivity|].
    rewrite Hexit; [reflexivity|vm_compute; reflexivity].
Defined.

(** ** service_project and external_network *)

Section ExternalNetwork.
Context {R : Type} (X : xsdk R).
Implicit Types (enc spc : gmap unit resource) (r : R).

Lemma service_project_run spc r :
  service_project X (spc, r) =
    match spc !! tt with
    | Some p => (Ok p, (spc, r), [])
    | None =>
        match projects_find X "service" r with
        | Ok p =>
            (Ok p, (<[tt := p]> spc, r),
             [XCall (ProjectsFind "service");
              XInfo (FoundProject (res_name p) (res_id p))])
        | Raise NotFound =>
            (Raise (SystemExit "1"), (spc, r),
             [XCall (ProjectsFind "service");
              XCritical CouldNotFindServiceProject])
        | Raise e => (Raise e, (spc, r), [XCall (ProjectsFind "service")])
        end
    end.
Proof.
  unfold service_project, memoize, memoize_by. destruct (spc !! tt); [done|].
  unfold except_not_found, bind, xrequest, emit, ret, sys_exit, raise.
  by destruct (projects_find X "service" r) as [p|[]].
Qed.

Lemma service_project_ok spc r p spc1 r1 t1 :
  service_project X (spc, r) = (Ok p, (spc1, r1), t1) ->
  spc1 !! tt = Some p /\ r1 = r.
Proof.
  rewrite service_project_run. destruct (spc !! tt) as [p0|] eqn:Hc.
  - by intros [= <- <- <- _].
  - destruct (projects_find X "service" r) as [p0|[]]; try done.
    intros [= <- <- <- _]. by rewrite lookup_insert_eq.
Qed.

Lemma external_network_run enc spc r :
  external_network X (enc, (spc, r)) =
    match enc !! tt with
    | Some n => (Ok n, (enc, (spc, r)), [])
    | None =>
        match service_project X (spc, r) with
        | (Raise e, w1, t1) => (Raise e, (enc, w1), t1)
        | (Ok p, (spc1, r1), t1) =>
            let ask := XCall (NetFindNetwork "external" (res_id p)) in
            match net_find_network X "external" (res_id p) r1 with
            | Ok (Some n) => (Ok n, (<[tt := n]> enc, (spc1, r1)), t1 ++ [ask])
            | Ok None =>
                (Raise (SystemExit "1"), (enc, (spc1, r1)),
                 t1 ++ [ask;
                        XCritical (CouldNotFindNetwork "external"
                                     (res_name p))])
            | Raise e => (Raise e, (enc, (spc1, r1)), t1 ++ [ask])
            end
        end
    end.
Proof.
  unfold external_network, memoize, memoize_by. destruct (enc !! tt); [done|].
  unfold bind at 1.
  destruct (service_project X (spc, r)) as [[[p|e] [spc1 r1]] t1] eqn:Hsp;
    [|done].
  apply service_project_ok in Hsp as [Hhit ->].
  unfold bind at 1, behind, xrequest.
  destruct (net_find_network X "external" (res_id p) r) as [[n|]|e]; try done.
  unfold bind at 1. rewrite service_project_run, Hhit.
  unfold bind, emit, sys_exit, raise. done.
Qed.

(** [external_network] asks the service at most twice, for the project
    "service" and then for the network "external" in it, and once it has
    returned it returns the same network with no remote call whatever the
    service has become.  When the network is missing it raises
    [SystemExit] and stores no network, but the service project stays
    cached; when the service project is missing it raises [SystemExit]
    without asking for the network and stores nothing. *)
Theorem external_network_once enc spc r :
  (forall n s' t,
      external_network X (enc, (spc, r)) = (Ok n, s', t) ->
      forall r',
        external_network X (fst s', (fst (snd s'), r'))
        = (Ok n, (fst s', (fst (snd s'), r')), [])) /\
  (enc !! tt = None -> spc !! tt = None ->
   forall p,
     projects_find X "service" r = Ok p ->
     let found :=
       [XCall (ProjectsFind "service");
        XInfo (FoundProject (res_name p) (res_id p));
        XCall (NetFindNetwork "external" (res_id p))] in
     (forall n,
         net_find_network X "external" (res_id p) r = Ok (Some n) ->
         external_network X (enc, (spc, r))
         = (Ok n, (<[tt := n]> enc, (<[tt := p]> spc, r)), found)) /\
     (net_find_network X "external" (res_id p) r = Ok None ->
      external_network X (enc, (spc, r))
      = (Raise (SystemExit "1"), (enc, (<[tt := p]> spc, r)),
         found ++ [XCritical (CouldNotFindNetwork "external" (res_name p))])))
  /\
  (enc !! tt = None -> spc !! tt = None ->
   projects_find X "service" r = Raise NotFound ->
   external_network X (enc, (spc, r))
   = (Raise (SystemExit "1"), (enc, (spc, r)),
      [XCall (ProjectsFind "service");
       XCritical CouldNotFindServiceProject])).
Proof.
  split; [|split].
  - intros n s' t. rewrite external_network_run.
    destruct (enc !! tt) as [n0|] eqn:Hc.
    { intros [= <- <- _] r'. cbn [fst snd]. rewrite external_network_run.
      by rewrite Hc. }
    destruct (service_project X (spc, r)) as [[[p|e] [spc1 r1]] t1]; [|done].
    cbv zeta.
    destruct (net_find_network X "external" (res_id p) r1) as [[n0|]|e];
      try done.
    intros [= <- <- _] r'. cbn [fst snd]. rewrite external_network_run.
    by rewrite lookup_insert_eq.
  - intros Henc Hspc p Hp. cbv zeta. split.
    + intros n Hn.
      by rewrite external_network_run, Henc, service_project_run, Hspc, Hp,
        Hn.
    + intros Hn.
      by rewrite external_network_run, Henc, service_project_run, Hspc, Hp,
        Hn.
  - intros Henc Hspc Hp.
    by rewrite external_network_run, Henc, service_project_run, Hspc, Hp.
Qed.
End ExternalNetwork.

Lemma external_network_once_witness :
  let start : gmap unit resource * (gmap unit resource * XSim.state) :=
    (∅, (∅, XSample.cloud)) in
  let once := external_network XSim.service start in
  fst (fst once) = Ok XSample.external /\
  xcalls_of (snd once)
  = [ProjectsFind "service"; NetFindNetwork "external" "p0"] /\
  external_network XSim.service
    (fst (snd (fst once)), (fst (snd (snd (fst once))), XSample.isolated))
  = (Ok XSample.external,
     (fst (snd (fst once)), (fst (snd (snd (fst once))), XSample.isolated)),
     []) /\
  external_network XSim.service (∅, (∅, XSample.isolated))
  = (Raise (SystemExit "1"),
     (∅, (<[tt := XSample.services]> ∅, XSample.isolated)),
     [XCall (ProjectsFind "service");
      XInfo (FoundProject "service" "p0");
      XCall (NetFindNetwork "external" "p0");
      XCritical (CouldNotFindNetwork "external" "service")]).
Proof.
  intros start once.
  destruct (external_network_once XSim.service ∅ ∅ XSample.cloud)
    as (Hagain & _).
  destruct (external_network_once XSim.service ∅ ∅ XSample.isolated)
    as (_ & Hfound & _).
  split; [vm_compute; reflexivity|]. split; [vm_compute; reflexivity|].
  split.
  - apply (Hagain XSample.external (snd (fst once)) (snd once)).
    vm_compute. reflexivity.
  - destruct (Hfound eq_refl eq_refl XSample.services) as (_ & Hmissing).
    { vm_compute. reflexivity. }
    apply Hmissing. vm_compute. reflexivity.
Defined.

(** ** create_router *)

Section CreateRouter.
Context {R : Type} (X : xsdk R).
Implicit Types (enc spc : gmap unit resource) (r : R).

Lemma xcalls_of_app (t1 t2 : list xevent) :
  xcalls_of (t1 ++ t2) = xcalls_of t1 ++ xcalls_of t2.
Proof. apply omap_app. Qed.

Lemma behind_behind {A C1 C2} (m : M xevent R A) (c1 : C1) (c2 : C2) r :
  behind (behind m) (c1, (c2, r)) =
    match m r with (o, r', t) => (o, (c1, (c2, r')), t) end.
Proof. unfold behind. by destruct (m r) as [[o r'] t]. Qed.

Lemma create_router_run project network subnet name
    (s : gmap unit resource * (gmap unit resource * R)) :
  create_router X project network subnet name s =
    match external_network X s with
    | (Raise e, s1, t1) => (Raise e, s1, t1)
    | (Ok ext, (enc1, (spc1, r1)), t1) =>
        let sid := subnet_id (gw_subnet subnet) in
        let cr :=
          NetCreateRouter (res_id project) name "Default router" (res_id ext)
        in
        let cp :=
          NetCreatePort (res_id project) (res_id network) sid
            (gateway_ip subnet) in
        match
          net_create_router X (res_id project) name "Default router"
            (res_id ext) r1
        with
        | (Raise e, r2) => (Raise e, (enc1, (spc1, r2)), t1 ++ [XCall cr])
        | (Ok router, r2) =>
            let made :=
              [XCall cr;
               XInfo (CreatedRouter (res_name router) (res_id router));
               XCall cp] in
            match
              net_create_port X (res_id project) (res_id network) sid
                (gateway_ip subnet) r2
            with
            | (Raise e, r3) => (Raise e, (enc1, (spc1, r3)), t1 ++ made)
            | (Ok port, r3) =>
                let attach :=
                  [XInfo (CreatedPort (res_id port));
                   XCall (NetAddInterfaceToRouter router sid (res_id port))]
                in
                match
                  net_add_interface_to_router X router sid (res_id port) r3
                with
                | (Raise e, r4) =>
                    (Raise e, (enc1, (spc1, r4)), t1 ++ made ++ attach)
                | (Ok _, r4) =>
                    (Ok router, (enc1, (spc1, r4)),
                     t1 ++ made ++ attach ++ [XInfo AddedPortToRouter])
                end
            end
        end
    end.
Proof.
  unfold create_router. unfold bind at 1.
  destruct (external_network X s) as [[[ext|e] [enc1 [spc1 r1]]] t1]; [|done].
  cbv zeta. unfold bind at 1. rewrite behind_behind. unfold xcommand at 1.
  destruct (net_create_router X _ _ _ _ r1) as [[router|e] r2]; [|done].
  unfold bind at 1, emit at 1. unfold bind at 1. rewrite behind_behind.
  unfold xcommand at 1.
  destruct (net_create_port X _ _ _ _ r2) as [[port|e] r3]; [|done].
  unfold bind at 1, emit at 1. unfold bind at 1. rewrite behind_behind.
  unfold xcommand at 1.
  destruct (net_add_interface_to_router X _ _ _ r3) as [[[]|e] r4]; [|done].
  unfold bind, emit, ret. done.
Qed.

(** [create_router] makes no creating call when [external_network] raises;
    it returns the router that [create_router] of the SDK returned, and
    only after the port has been created and attached to it, the three
    calls having been made in this order; and when the port cannot be
    created the exception leaves the method with the router left as
    created: no further call is made, none undoes the creation. *)
Theorem create_router_steps project network subnet name
    (s : gmap unit resource * (gmap unit resource * R)) :
  let run := create_router X project network subnet name s in
  let sid := subnet_id (gw_subnet subnet) in
  (forall e s1 t1,
      external_network X s = (Raise e, s1, t1) -> run = (Raise e, s1, t1)) /\
  (forall ext enc1 spc1 r1 t1,
      external_network X s = (Ok ext, (enc1, (spc1, r1)), t1) ->
      let cr :=
        NetCreateRouter (res_id project) name "Default router" (res_id ext)
      in
      let cp :=
        NetCreatePort (res_id project) (res_id network) sid
          (gateway_ip subnet) in
      (forall router,
          fst (fst run) = Ok router ->
          exists r2 port r3 r4,
            net_create_router X (res_id project) name "Default router"
              (res_id ext) r1 = (Ok router, r2) /\
            net_create_port X (res_id project) (res_id network) sid
              (gateway_ip subnet) r2 = (Ok port, r3) /\
            net_add_interface_to_router X router sid (res_id port) r3
            = (Ok tt, r4) /\
            snd (fst run) = (enc1, (spc1, r4)) /\
            xcalls_of (snd run)
            = xcalls_of t1
              ++ [cr; cp; NetAddInterfaceToRouter router sid (res_id port)])
      /\
      (forall router r2 e r3,
          net_create_router X (res_id project) name "Default router"
            (res_id ext) r1 = (Ok router, r2) ->
          net_create_port X (res_id project) (res_id network) sid
            (gateway_ip subnet) r2 = (Raise e, r3) ->
          fst run = (Raise e, (enc1, (spc1, r3))) /\
          xcalls_of (snd run) = xcalls_of t1 ++ [cr; cp])).
Proof.
  cbv zeta. rewrite create_router_run. split.
  - by intros e s1 t1 ->.
  - intros ext enc1 spc1 r1 t1 ->. cbv zeta. split.
    + intros router.
      destruct (net_create_router X _ _ _ _ r1) as [[router0|e] r2];
        [|done].
      destruct (net_create_port X _ _ _ _ r2) as [[port|e] r3] eqn:Hp;
        [|done].
      destruct (net_add_interface_to_router X _ _ _ r3) as [[[]|e] r4] eqn:Hi;
        [|done].
      cbn [fst snd]. intros [= <-]. exists r2, port, r3, r4.
      repeat split; try done. by rewrite xcalls_of_app.
    + intros router r2 e r3 -> ->. cbn [fst snd]. split; [done|].
      by rewrite xcalls_of_app.
Qed.
End CreateRouter.

Lemma create_router_steps_witness :
  let made :=
    create_router XSim.service XSample.tenant XSample.inner XSample.sub "gw"
      (∅, (∅, XSample.cloud)) in
  let failed :=
    create_router XSim.service XSample.tenant XSample.inner XSample.sub "gw"
      (∅, (∅, XSample.full)) in
  fst (fst made) = Ok (Resource "router-gw" "gw") /\
  xcalls_of (snd made)
  = [ProjectsFind "service"; NetFindNetwork "external" "p0";
     NetCreateRouter "p1" "gw" "Default router" "n0";
     NetCreatePort "p1" "n1" "s1" "10.0.0.1";
     NetAddInterfaceToRouter (Resource "router-gw" "gw") "s1" "port-s1"] /\
  fst (fst failed) = Raise (OtherError "Conflict") /\
  XSim.routers (snd (snd (snd (fst failed)))) = [Resource "router-gw" "gw"] /\
  xcalls_of (snd failed)
  = [ProjectsFind "service"; NetFindNetwork "external" "p0";
     NetCreateRouter "p1" "gw" "Default router" "n0";
     NetCreatePort "p1" "n1" "s1" "10.0.0.1"].
Proof.
  intros made failed.
  destruct (create_router_steps XSim.service XSample.tenant XSample.inner
              XSample.sub "gw" (∅, (∅, XSample.full))) as (_ & Hsteps).
  destruct (Hsteps XSample.external (<[tt := XSample.external]> ∅)
              (<[tt := XSample.services]> ∅) XSample.full
              [XCall (ProjectsFind "service");
               XInfo (FoundProject "service" "p0");
               XCall (NetFindNetwork "external" "p0")])
    as (_ & Hfail).
  { vm_compute. reflexivity. }
  destruct (Hfail (Resource "router-gw" "gw")
              (XSim.set_routers [Resource "router-gw" "gw"] XSample.full)
              (OtherError "Conflict")
              (XSim.set_routers [Resource "router-gw" "gw"] XSample.full))
    as (_ & Hcalls).
  { vm_compute. reflexivity. }
  { vm_compute. reflexivity. }
  split; [vm_compute; reflexivity|]. split; [vm_compute; reflexivity|].
  split; [vm_compute; reflexivity|]. split; [vm_compute; reflexivity|].
  exact Hcalls.
Defined.

(** ** volumes and servers *)

Section OwnedFacts.
Context {R : Type}.
Variable list_call : xcall.
Variable list_all : R -> listing owned.
Implicit Types (cache : gmap unit (listing owned)) (r : R).

Abbreviation of_project project_id :=
  (fun x : owned => owned_project_id x = project_id).

Lemma scan_spec project_id l :
  match scan project_id l with
  | (Some x, rest) =>
      filter (of_project project_id) l
      = x :: filter (of_project project_id) rest
      /\ length rest < length l
  | (None, _) => filter (of_project project_id) l = []
  end.
Proof.
  induction l as [|y l IH]; simpl; [done|].
  rewrite filter_cons. case_decide.
  - split; [done|lia].
  - destruct (scan project_id l) as [[x|] rest]; [|done].
    destruct IH as [-> Hlen]. split; [done|lia].
Qed.

Lemma all_owned_run cache r :
  all_owned list_call list_all (cache, r) =
    match cache !! tt with
    | Some _ => (Ok tt, (cache, r), [])
    | None => (Ok tt, (<[tt := list_all r]> cache, r), [XCall list_call])
    end.
Proof.
  unfold all_owned, bind, memoize, memoize_by, ret. by destruct (cache !! tt).
Qed.

Lemma advance_run project_id cache r l :
  cache !! tt = Some (l, None) ->
  advance project_id (cache, r) =
    match scan project_id l with
    | (Some x, rest) => (Ok (Some x), (<[tt := (rest, None)]> cache, r), [])
    | (None, _) => (Ok None, (<[tt := ([], None)]> cache, r), [])
    end.
Proof.
  unfold advance. intros ->. by destruct (scan project_id l) as [[x|] rest].
Qed.

(** Draining a running generator whose iterator ends normally. *)
Lemma owned_take_looping n project_id cache r l :
  cache !! tt = Some (l, None) -> length l < n ->
  owned_take list_call list_all n (Looping project_id) (cache, r)
  = (Ok (filter (of_project project_id) l),
     (<[tt := ([], None)]> cache, r), []).
Proof.
  revert cache l. induction n as [|n IH]; intros cache l Hc Hn; [lia|].
  cbn [owned_take owned_next]. unfold bind at 1. unfold bind at 1.
  rewrite (advance_run _ _ _ _ Hc).
  pose proof (scan_spec project_id l) as Hscan.
  destruct (scan project_id l) as [[x|] rest].
  - destruct Hscan as [-> Hlen]. unfold ret at 1. cbn [fst snd].
    unfold bind at 1.
    rewrite (IH (<[tt := (rest, None)]> cache) rest);
      [|by rewrite lookup_insert_eq|lia].
    unfold ret. by rewrite insert_insert_eq.
  - rewrite Hscan. by unfold ret.
Qed.

(** The first consumer that runs [volumes(project_id)] ([servers]) to its
    end gets the elements of the project, in the order of the listing,
    with one listing call; the memoized iterator is then exhausted, and any
    later [volumes] ([servers]), for any project and in any state of the
    service, yields nothing and asks nothing. *)
Lemma owned_listed_once project_id n cache r l :
  cache !! tt = None -> list_all r = (l, None) -> length l < n ->
  owned_take list_call list_all n (Unstarted project_id) (cache, r)
  = (Ok (filter (of_project project_id) l),
     (<[tt := ([], None)]> cache, r), [XCall list_call]) /\
  forall other m r',
    owned_take list_call list_all m (Unstarted other)
      (<[tt := ([], None)]> cache, r')
    = (Ok [], (<[tt := ([], None)]> cache, r'), []).
Proof.
  intros Hc Hl Hn. split.
  - destruct n as [|n]; [lia|].
    cbn [owned_take owned_next]. unfold bind at 1. unfold bind at 1.
    rewrite all_owned_run, Hc, Hl. unfold bind at 1.
    rewrite (advance_run _ _ _ l) by apply lookup_insert_eq.
    pose proof (scan_spec project_id l) as Hscan.
    destruct (scan project_id l) as [[x|] rest].
    + destruct Hscan as [-> Hlen]. unfold ret at 1. cbn [fst snd].
      unfold bind at 1.
      rewrite (owned_take_looping n project_id _ r rest);
        [|by rewrite lookup_insert_eq|lia].
      unfold ret. by rewrite !insert_insert_eq.
    + rewrite Hscan. unfold ret. by rewrite insert_insert_eq.
  - intros other [|m] r'; [done|].
    cbn [owned_take owned_next]. unfold bind at 1. unfold bind at 1.
    rewrite all_owned_run, lookup_insert_eq. unfold bind at 1.
    rewrite (advance_run _ _ _ []) by apply lookup_insert_eq.
    simpl. unfold ret. by rewrite insert_insert_eq.
Qed.
End OwnedFacts.

(** [volumes] and [servers] share one memoized iterator each: the first
    consumer that runs [volumes(project_id)] to its end gets exactly the
    volumes of that project, in the order of the listing, at the cost of
    one listing call; after that the iterator is exhausted, and every later
    [volumes], for any project and whatever the service holds by then,
    yields nothing and makes no call.  The same for [servers]. *)
Theorem owned_listings_are_one_pass {R} (X : xsdk R) project_id n
    (cache : gmap unit (listing owned)) (r : R) l :
  cache !! tt = None -> length l < n ->
  (block_storage_volumes X r = (l, None) ->
   volumes_take X n (volumes X project_id) (cache, r)
   = (Ok (filter (fun x => owned_project_id x = project_id) l),
      (<[tt := ([], None)]> cache, r), [XCall BlockStorageVolumes]) /\
   forall other m r',
     volumes_take X m (volumes X other) (<[tt := ([], None)]> cache, r')
     = (Ok [], (<[tt := ([], None)]> cache, r'), [])) /\
  (compute_servers X r = (l, None) ->
   servers_take X n (servers X project_id) (cache, r)
   = (Ok (filter (fun x => owned_project_id x = project_id) l),
      (<[tt := ([], None)]> cache, r), [XCall ComputeServers]) /\
   forall other m r',
     servers_take X m (servers X other) (<[tt := ([], None)]> cache, r')
     = (Ok [], (<[tt := ([], None)]> cache, r'), [])).
Proof.
  intros Hc Hn. split; intros Hl.
  - by apply owned_listed_once.
  - by apply owned_listed_once.
Qed.

Lemma owned_listings_are_one_pass_witness :
  let first :=
    volumes_take XSim.service 10 (volumes XSim.service "p1")
      (∅, XSample.cloud) in
  fst (fst first) = Ok [Owned "v1" "p1"; Owned "v3" "p1"] /\
  snd first = [XCall BlockStorageVolumes] /\
  volumes_take XSim.service 10 (volumes XSim.service "p0")
    (fst (snd (fst first)), XSample.cloud)
  = (Ok [], (fst (snd (fst first)), XSample.cloud), []).
Proof.
  intros first.
  destruct (owned_listings_are_one_pass XSim.service "p1" 10 ∅ XSample.cloud
              [Owned "v1" "p1"; Owned "v2" "p0"; Owned "v3" "p1"])
    as ((Hfirst & Hlater) & _).
  { reflexivity. }
  { simpl. lia. }
  { reflexivity. }
  subst first. rewrite Hfirst.
  split; [reflexivity|]. split; [reflexivity|].
  exact (Hlater "p0" 10 XSample.cloud).
Defined.

(** ** groups *)

Section Groups.
Context {R : Type} (X : xsdk R).

(** [groups] retrieves the list of groups once: the first call that
    succeeds makes one [groups.list] call and logs the number of groups;
    every later call returns that same list with no remote call and no log
    record, whatever groups the service has by then.  A call whose
    [groups.list] raises stores nothing. *)
Theorem groups_retrieved_once (cache : gmap unit (list resource)) (r : R) :
  cache !! tt = None ->
  (forall l,
      groups_list X r = Ok l ->
      groups X (cache, r)
      = (Ok l, (<[tt := l]> cache, r),
         [XCall GroupsList; XInfo (RetrievedGroups (length l))]) /\
      forall r', groups X (<[tt := l]> cache, r')
                 = (Ok l, (<[tt := l]> cache, r'), [])) /\
  (forall e,
      groups_list X r = Raise e ->
      groups X (cache, r) = (Raise e, (cache, r), [XCall GroupsList])).
Proof.
  intros Hc. unfold groups, memoize, memoize_by. rewrite Hc.
  unfold bind, xrequest, emit, ret. split.
  - intros l ->. split; [done|]. intros r'. by rewrite lookup_insert_eq.
  - by intros e ->.
Qed.
End Groups.

Lemma groups_retrieved_once_witness :
  groups XSim.service (∅, XSample.cloud)
  = (Ok [Resource "g1" "devs"],
     (<[tt := [Resource "g1" "devs"]]> ∅, XSample.cloud),
     [XCall GroupsList; XInfo (RetrievedGroups 1)]) /\
  groups XSim.service (<[tt := [Resource "g1" "devs"]]> ∅, XSample.full)
  = (Ok [Resource "g1" "devs"],
     (<[tt := [Resource "g1" "devs"]]> ∅, XSample.full), []).
Proof.
  destruct (groups_retrieved_once XSim.service ∅ XSample.cloud
              (lookup_empty tt)) as (Hfirst & _).
  destruct (Hfirst [Resource "g1" "devs"] eq_refl) as (Hrun & Hlater).
  split; [exact Hrun|apply Hlater].
Defined.

(** ** __init__ *)

Lemma environ_found env key :
  is_Some (env !! key) ->
  environ env key = inr (default "" (env !! key)).
Proof. unfold environ. by intros [v ->]. Qed.

Lemma environ_missing env key :
  env !! key = None -> environ env key = inl key.
Proof. unfold environ. by intros ->. Qed.

(** [__init__] reads two variables for SAML and six for a password; it
    raises [KeyError] for the first of them, in the order of reading, that
    is not set, and otherwise builds the authentication from their values.
    The record is logged once the first two have been read.  The protocol
    is SAML only when [OS_PROTOCOL] is set to exactly that. *)
Theorem init_requires_environment (env : gmap string string) :
  let saml := bool_decide (env !! "OS_PROTOCOL" = Some "SAML") in
  let value key := default "" (env !! key) in
  let logged :=
    if saml then
      [AuthenticatingSaml (value "OS_USERNAME") (value "OS_PROJECT_NAME")]
    else
      [AuthenticatingPassword (value "OS_USERNAME")
         (value "OS_PROJECT_NAME")] in
  init env =
    match list_find (fun key => env !! key = None) (required saml) with
    | Some (i, key) => (if decide (i < 2) then [] else logged, inl key)
    | None =>
        (logged,
         inr (if saml then SamlAuth
              else Password (value "OS_AUTH_URL") (value "OS_USERNAME")
                     (value "OS_PASSWORD") (value "OS_USER_DOMAIN_ID")
                     (value "OS_PROJECT_NAME")
                     (value "OS_PROJECT_DOMAIN_ID")))
    end.
Proof.
  cbv zeta. unfold init.
  assert (Hsaml : default "password" (env !! "OS_PROTOCOL") = "SAML"
                  <-> env !! "OS_PROTOCOL" = Some "SAML").
  { destruct (env !! "OS_PROTOCOL") as [v|]; simpl; [|done].
    split; [by intros ->|by intros [= ->]]. }
  destruct (decide (default "password" (env !! "OS_PROTOCOL") = "SAML"))
    as [Hp|Hp].
  - rewrite bool_decide_eq_true_2 by (by apply Hsaml).
    unfold required, environ. simpl.
    destruct (env !! "OS_USERNAME"), (env !! "OS_PROJECT_NAME"); simpl;
      repeat case_decide; done.
  - rewrite bool_decide_eq_false_2 by (by rewrite <- Hsaml).
    unfold required, environ. simpl.
    destruct (env !! "OS_USERNAME"), (env !! "OS_PROJECT_NAME"),
      (env !! "OS_AUTH_URL"), (env !! "OS_PASSWORD"),
      (env !! "OS_USER_DOMAIN_ID"), (env !! "OS_PROJECT_DOMAIN_ID"); simpl;
      repeat case_decide; done.
Qed.
